(** * generate-registry: a shallow embedding of [generate-registry.ts]

    The script scans [registry/<category>/<entity>/...], classifies the
    imports of every source file and merges the freshly computed items
    into a persisted [registry.json].  This file embeds the script
    function by function and proves the properties of its dependency
    classification and of its manifest merge.

    Conventions.
    - A JavaScript string is the list of its UTF-16 code units.
    - A JavaScript [Map] / [Set] is an insertion-ordered association
      list / list without repeated keys, as iteration order is observable
      ([[...map.values()]], [[...set]]).
    - [fs], [console] and [process.exit] are modelled by an explicit
      world (the directory tree and the three JSON files) and a small
      monad with a trace of events, early exit and exceptions. *)

From Stdlib Require Import Ascii String.
From Stdlib Require Import List NArith ZArith Bool Arith Lia.
From Stdlib Require Import Sorted Permutation.
Import ListNotations.

Set Implicit Arguments.

(* ------------------------------------------------------------------ *)
(** ** JavaScript strings                                              *)
(* ------------------------------------------------------------------ *)

(** A string is its sequence of UTF-16 code units. *)
Definition jsstring := list N.

Module Js.

(** ASCII literals. *)
Definition lit (s : String.string) : jsstring :=
  map N_of_ascii (String.list_ascii_of_string s).

Fixpoint eqb (a b : jsstring) : bool :=
  match a, b with
  | [], [] => true
  | x :: a', y :: b' => N.eqb x y && eqb a' b'
  | _, _ => false
  end.

(** [s.startsWith(p)] *)
Fixpoint startsWith (s p : jsstring) {struct p} : bool :=
  match p, s with
  | [], _ => true
  | y :: p', x :: s' => N.eqb x y && startsWith s' p'
  | _ :: _, [] => false
  end.

(** [s.endsWith(p)] *)
Definition endsWith (s p : jsstring) : bool :=
  startsWith (rev s) (rev p).

(** [s.slice(n)] for [0 <= n] *)
Definition slice (s : jsstring) (n : nat) : jsstring := skipn n s.

(** [s.includes(c)] for a one-unit needle *)
Definition includes (s : jsstring) (c : N) : bool := existsb (N.eqb c) s.

(** [s.split(sep)] where the separator is a set of single code units
    (a one-character string, or a character class such as [/[-_]/]).
    The result always has at least one element. *)
Fixpoint split_on (sep : N -> bool) (s : jsstring) : list jsstring :=
  match s with
  | [] => [[]]
  | c :: s' =>
      if sep c then [] :: split_on sep s'
      else match split_on sep s' with
           | [] => [[c]]
           | w :: ws => (c :: w) :: ws
           end
  end.

Definition split (s : jsstring) (sep : N) : list jsstring :=
  split_on (N.eqb sep) s.

(** [parts.join(sep)] *)
Fixpoint join (parts : list jsstring) (sep : jsstring) : jsstring :=
  match parts with
  | [] => []
  | [p] => p
  | p :: ps => p ++ sep ++ join ps sep
  end.

(** Truthiness of a string value: only the empty string is falsy. *)
Definition truthy (s : jsstring) : bool :=
  match s with [] => false | _ :: _ => true end.

(** The relational comparison [a < b] on strings: code unit by code
    unit, a proper prefix being smaller. *)
Fixpoint ltb (a b : jsstring) : bool :=
  match a, b with
  | _, [] => false
  | [], _ :: _ => true
  | x :: a', y :: b' =>
      if N.ltb x y then true
      else if N.eqb x y then ltb a' b' else false
  end.

Definition slash : N := 47.
Definition dot : N := 46.

End Js.

Notation "'js' s" := (Js.lit s%string) (at level 1, s at level 0, only parsing).

(* ------------------------------------------------------------------ *)
(** ** [Set<string>] and [Map<string, V>]                              *)
(* ------------------------------------------------------------------ *)

(** A [Set<string>]: the elements in insertion order. *)
Module JsSet.

Definition t := list jsstring.

Definition empty : t := [].

Definition has (s : t) (x : jsstring) : bool := existsb (Js.eqb x) s.

(** [s.add(x)]: appended unless already present. *)
Definition add (s : t) (x : jsstring) : t :=
  if has s x then s else s ++ [x].

(** [s.delete(x)] *)
Definition delete (s : t) (x : jsstring) : t :=
  filter (fun y => negb (Js.eqb x y)) s.

(** [other.forEach((d) => s.add(d))] *)
Definition add_all (s other : t) : t := fold_left add other s.

Definition size (s : t) : nat := length s.

End JsSet.

(** A [Map<string, V>]: the entries in insertion order; [set] on a key
    already present replaces the value in place. *)
Module JsMap.

Section WithValue.
Variable V : Type.

Definition t := list (jsstring * V).

Definition empty : t := [].

Fixpoint get (m : t) (k : jsstring) : option V :=
match m with
| [] => None
| (k', v) :: m' => if Js.eqb k k' then Some v else get m' k
end.

Definition has (m : t) (k : jsstring) : bool :=
match get m k with Some _ => true | None => false end.

Fixpoint set (m : t) (k : jsstring) (v : V) : t :=
match m with
| [] => [(k, v)]
| (k', v') :: m' =>
    if Js.eqb k k' then (k', v) :: m' else (k', v') :: set m' k v
end.

(** [new Map(entries)] *)
Definition of_entries (entries : list (jsstring * V)) : t :=
fold_left (fun m kv => set m (fst kv) (snd kv)) entries empty.

(** [[...m.values()]] *)
Definition values (m : t) : list V := map snd m.

Definition keys (m : t) : list jsstring := map fst m.

Definition size (m : t) : nat := length m.

End WithValue.

Arguments empty {V}.

End JsMap.

(** [[...set].sort()] with the default comparator: the strings are
    ordered by [Js.ltb].  The sorted array is the same whatever stable
    algorithm the engine uses; insertion sort is used here. *)
Fixpoint sort_insert (x : jsstring) (l : list jsstring) : list jsstring :=
  match l with
  | [] => [x]
  | y :: l' => if Js.ltb y x then y :: sort_insert x l' else x :: l
  end.

Definition js_sort (l : list jsstring) : list jsstring :=
  fold_right sort_insert [] l.

(* ------------------------------------------------------------------ *)
(** ** Regular expressions                                             *)
(* ------------------------------------------------------------------ *)

(** The fragment of JavaScript regular expressions the script uses,
    with the backtracking semantics of the language: alternatives are
    tried left to right, [*] is greedy, [*?] is lazy, an iteration of a
    star that consumes nothing fails.  Every pattern of the script has
    exactly one capture group. *)
Module Re.

Inductive regex : Type :=
| Eps
| Chr (p : N -> bool)            (* a literal, a class, [.], [\s] *)
| Cat (r1 r2 : regex)
| Alt (r1 r2 : regex)
| Star (greedy : bool) (r : regex)
| Grp (r : regex)                (* the capture group 1 *)
| Bol                            (* [^] without the [m] flag *)
| Eol.                           (* [$] without the [m] flag *)

(** Position in the input, what is left of it, capture group 1. *)
Record mstate : Type := MState {
  pos : nat;
  rest : jsstring;
  cap : option jsstring
}.

Definition advance (st : mstate) (s' : jsstring) : mstate :=
  {| pos := S (pos st); rest := s'; cap := cap st |}.

Definition capture (st st' : mstate) : mstate :=
  {| pos := pos st';
     rest := rest st';
     cap := Some (firstn (length (rest st) - length (rest st')) (rest st)) |}.

Definition progress (st st' : mstate) : bool :=
  length (rest st') <? length (rest st).

Section Matcher.
Variable A : Type.

(** Continuation-passing backtracking matcher. *)
Fixpoint run (r : regex) (st : mstate) (k : mstate -> option A)
  {struct r} : option A :=
  match r with
  | Eps => k st
  | Chr p =>
      match rest st with
      | c :: s' => if p c then k (advance st s') else None
      | [] => None
      end
  | Cat r1 r2 => run r1 st (fun st' => run r2 st' k)
  | Alt r1 r2 =>
      match run r1 st k with
      | Some a => Some a
      | None => run r2 st k
      end
  | Star g r' =>
      (fix loop (n : nat) (st : mstate) {struct n} : option A :=
         match n with
         | O => k st
         | S n' =>
             let again (_ : unit) :=
               run r' st
                 (fun st' => if progress st st' then loop n' st' else None) in
             if g then
               match again tt with Some a => Some a | None => k st end
             else
               match k st with Some a => Some a | None => again tt end
         end) (length (rest st)) st
  | Grp r' => run r' st (fun st' => k (capture st st'))
  | Bol => if pos st =? 0 then k st else None
  | Eol => match rest st with [] => k st | _ :: _ => None end
  end.

End Matcher.

(** One attempt at index [i]. *)
Definition match_at (r : regex) (i : nat) (s : jsstring) : option mstate :=
  run r {| pos := i; rest := s; cap := None |} (fun st => Some st).

(** The leftmost match at or after index [i]; [s] is the input from
    index [i] on. *)
Fixpoint search (r : regex) (i : nat) (s : jsstring) : option mstate :=
  match match_at r i s with
  | Some st => Some st
  | None =>
      match s with
      | [] => None
      | _ :: s' => search r (S i) s'
      end
  end.

(** [s.match(r)] / [r.exec(s)] for a pattern without the [g] flag:
    [None] is [null], otherwise the content of group 1. *)
Definition exec (r : regex) (s : jsstring) : option (option jsstring) :=
  match search r 0 s with
  | Some st => Some (cap st)
  | None => None
  end.

(** [r.test(s)] *)
Definition test (r : regex) (s : jsstring) : bool :=
  match exec r s with Some _ => true | None => false end.

(** [while ((m = r.exec(s)) !== null) ...] for a pattern with the [g]
    flag: the successive values of [m[1]].  Each match of the patterns
    used below is non-empty, so [lastIndex] strictly increases and
    [length s + 1] rounds are enough. *)
Fixpoint exec_loop (n : nat) (r : regex) (i : nat) (s : jsstring)
  : list (option jsstring) :=
  match n with
  | O => []
  | S n' =>
      match search r i s with
      | None => []
      | Some st =>
          cap st ::
            (if length (rest st) <? length s
             then exec_loop n' r (pos st) (rest st)
             else [])
      end
  end.

Definition exec_all (r : regex) (s : jsstring) : list (option jsstring) :=
  exec_loop (S (length s)) r 0 s.

(** *** Building blocks *)

Fixpoint seq (rs : list regex) : regex :=
  match rs with
  | [] => Eps
  | [r] => r
  | r :: rs' => Cat r (seq rs')
  end.

Definition chr (c : N) : regex := Chr (N.eqb c).

Definition str (s : jsstring) : regex := seq (map chr s).

Definition plus (r : regex) : regex := Cat r (Star true r).

Definition opt (r : regex) : regex := Alt r Eps.

Definition one_of (s : jsstring) : regex :=
  Chr (fun c => existsb (N.eqb c) s).

Definition none_of (s : jsstring) : regex :=
  Chr (fun c => negb (existsb (N.eqb c) s)).

(** Line terminators: LF, CR, U+2028, U+2029. *)
Definition line_terminator (c : N) : bool :=
  (c =? 10)%N || (c =? 13)%N || (c =? 8232)%N || (c =? 8233)%N.

(** [.] without the [s] flag *)
Definition any : regex := Chr (fun c => negb (line_terminator c)).

(** [\s]: white space and line terminators *)
Definition is_space (c : N) : bool :=
  (c =? 9)%N || (c =? 10)%N || (c =? 11)%N || (c =? 12)%N || (c =? 13)%N
  || (c =? 32)%N || (c =? 160)%N || (c =? 5760)%N
  || ((8192 <=? c)%N && (c <=? 8202)%N)
  || (c =? 8232)%N || (c =? 8233)%N || (c =? 8239)%N || (c =? 8287)%N
  || (c =? 12288)%N || (c =? 65279)%N.

Definition space : regex := Chr is_space.

(** *** What a pattern denotes

    [matches r st st'] holds when [r] can take the matcher from the
    state [st] to the state [st']; the matcher [run] only ever hands
    such states to its continuation. *)
Inductive matches : regex -> mstate -> mstate -> Prop :=
| M_eps st : matches Eps st st
| M_chr p st c s' :
    rest st = c :: s' -> p c = true ->
    matches (Chr p) st (advance st s')
| M_cat r1 r2 st st1 st2 :
    matches r1 st st1 -> matches r2 st1 st2 ->
    matches (Cat r1 r2) st st2
| M_alt_l r1 r2 st st' : matches r1 st st' -> matches (Alt r1 r2) st st'
| M_alt_r r1 r2 st st' : matches r2 st st' -> matches (Alt r1 r2) st st'
| M_star_stop g r st : matches (Star g r) st st
| M_star_step g r st st1 st2 :
    matches r st st1 -> progress st st1 = true ->
    matches (Star g r) st1 st2 ->
    matches (Star g r) st st2
| M_grp r st st' : matches r st st' -> matches (Grp r) st (capture st st')
| M_bol st : pos st = 0 -> matches Bol st st
| M_eol st : rest st = [] -> matches Eol st st.

End Re.

(* ------------------------------------------------------------------ *)
(** ** Library functions the script imports                            *)
(* ------------------------------------------------------------------ *)

(** [toKebabCase] comes from the package [remeda]; [toUpperCase] and
    [toLowerCase] are the Unicode case mappings of [String.prototype].
    The script is embedded over any implementation of the three. *)
Class Runtime : Type := {
  toKebabCase : jsstring -> jsstring;
  toUpperCase : jsstring -> jsstring;
  toLowerCase : jsstring -> jsstring
}.

(** *** [path] (POSIX) *)

(** [path.join(dir, name)] for a normalised [dir] and an entry name. *)
Definition path_join (dir name : jsstring) : jsstring :=
  dir ++ js "/" ++ name.

(** [path.resolve(name)]: [name] under the working directory. *)
Definition path_resolve (cwd name : jsstring) : jsstring :=
  if Js.endsWith cwd (js "/") then cwd ++ name else path_join cwd name.

(** [path.basename(p)]: the last run of characters other than [/],
    the [/] that end the path set aside; empty when the path holds
    nothing but [/]. *)
Definition basename (p : jsstring) : jsstring :=
  last (filter Js.truthy (Js.split p Js.slash)) [].

(** The [/] that end a path. *)
Fixpoint leading (f : N -> bool) (s : jsstring) : jsstring :=
  match s with
  | [] => []
  | c :: s' => if f c then c :: leading f s' else []
  end.

Definition trailing_slashes (p : jsstring) : jsstring :=
  leading (N.eqb Js.slash) (rev p).

(** [path.extname(p)]: from the last [.] of the base name to its end;
    empty when there is no [.], when the only [.] starts the base
    name, and when the base name is [..]. *)
Fixpoint last_dot_suffix (s : jsstring) : option jsstring :=
  match s with
  | [] => None
  | c :: s' =>
      match last_dot_suffix s' with
      | Some e => Some e
      | None => if (c =? Js.dot)%N then Some s else None
      end
  end.

Definition extname (p : jsstring) : jsstring :=
  let b := basename p in
  if Js.eqb b (js "..") then []
  else
    match b with
    | [] => []
    | c :: b' =>
        match last_dot_suffix b' with
        | Some e => e
        | None => []
        end
    end.

(** [path.basename(p, ext)].  An [ext] that is empty or longer than
    the path is not looked at; an [ext] equal to the whole path gives
    the empty string.  Otherwise [ext] is matched backwards against the
    base name: where the base name ends in [ext] and is more than
    [ext], [ext] is cut off; where the base name runs out while it
    still matches, the result runs to the end of the path, the [/]
    that end it included; in every other case the base name is the
    result. *)
Definition basename_ext (p ext : jsstring) : jsstring :=
  let b := basename p in
  if Js.truthy ext && (length ext <=? length p) then
    if Js.eqb ext p then []
    else if Js.endsWith b ext then
      if Js.eqb b ext then b else firstn (length b - length ext) b
    else if (length b <? length ext) && Js.endsWith ext b
    then b ++ trailing_slashes p
    else b
  else b.

(* ------------------------------------------------------------------ *)
(** ** Configuration and types                                         *)
(* ------------------------------------------------------------------ *)

Inductive RegistryItemType : Type :=
| item_component | item_block | item_ui | item_hook | item_lib | item_page.

Inductive RegistryFileType : Type :=
| file_component | file_style | file_hook | file_lib | file_page | file_file.

Record RegistryFile : Type := {
  file_path : jsstring;
  file_type : RegistryFileType;
  file_target : jsstring
}.

Record RegistryItem : Type := {
  item_name : jsstring;
  item_type : RegistryItemType;
  item_title : jsstring;
  item_description : option jsstring;
  item_dependencies : option (list jsstring);
  item_registryDependencies : option (list jsstring);
  item_files : list RegistryFile
}.

(** The value of [items] in a [registry.json].  The cast
    [JSON.parse(...) as Registry] checks nothing, so [items] may be
    absent (or [null]), an array whose elements are items or [null],
    or any other value.  An element that is not [null] is taken to be
    an object with a string [name]. *)
Inductive items_value : Type :=
| NoItems
| ItemArray (elements : list (option RegistryItem))
| NotAnArray.

(** A parsed [registry.json].  [name], [homepage] and [items] are read
    through [?.] and [??], so they may be absent. *)
Record Registry : Type := {
  reg_schema : jsstring;
  reg_name : option jsstring;
  reg_homepage : option jsstring;
  reg_items : items_value
}.

(** [items] as an array of the items [items]. *)
Definition listed (items : list RegistryItem) : items_value :=
  ItemArray (map Some items).

(** A parsed [package.json]: each section in [Object.entries] order. *)
Record PackageJson : Type := {
  pkg_dependencies : option (list (jsstring * jsstring));
  pkg_devDependencies : option (list (jsstring * jsstring));
  pkg_peerDependencies : option (list (jsstring * jsstring))
}.

Record Category : Type := {
  itemType : RegistryItemType;
  fileType : RegistryFileType;
  targetDir : jsstring
}.

Definition REGISTRY_NAME : jsstring := js "my-registry".
Definition REGISTRY_HOMEPAGE : jsstring := js "https://your-registry-url.com".
Definition REGISTRY_SCHEMA : jsstring :=
  js "https://ui.shadcn.com/schema/registry.json".

Definition ENTITY_CATEGORIES : list (jsstring * Category) :=
  [ (js "components",
      {| itemType := item_component; fileType := file_component;
         targetDir := js "components" |});
    (js "hooks",
      {| itemType := item_hook; fileType := file_hook;
         targetDir := js "hooks" |});
    (js "lib",
      {| itemType := item_lib; fileType := file_lib;
         targetDir := js "lib" |});
    (js "types",
      {| itemType := item_lib; fileType := file_lib;
         targetDir := js "types" |});
    (js "styles",
      {| itemType := item_component; fileType := file_style;
         targetDir := js "styles" |}) ].

Definition LOCAL_ALIASES : list jsstring := [js "@/"; js "~/"; js "#"].

(** [/^<prefix>(.+)$/] *)
Definition ui_pattern (prefix : jsstring) : Re.regex :=
  Re.seq [Re.Bol; Re.str prefix; Re.Grp (Re.plus Re.any); Re.Eol].

Definition SHADCN_UI_PATTERNS : list Re.regex :=
  [ ui_pattern (js "@/components/ui/");
    ui_pattern (js "~/components/ui/");
    ui_pattern (js "components/ui/") ].

(** [/\.<word>\.[tj]sx?$/] *)
Definition excluded_pattern (word : jsstring) : Re.regex :=
  Re.seq [Re.chr Js.dot; Re.str word; Re.chr Js.dot; Re.one_of (js "tj");
          Re.chr 115; Re.opt (Re.chr 120); Re.Eol].

Definition EXCLUDED_PATTERNS : list Re.regex :=
  [ excluded_pattern (js "stories");
    excluded_pattern (js "test");
    excluded_pattern (js "spec") ].

Definition NODE_BUILTINS : JsSet.t :=
  map Js.lit
    [ "assert"; "buffer"; "child_process"; "cluster"; "console";
      "constants"; "crypto"; "dgram"; "dns"; "domain"; "events"; "fs";
      "http"; "http2"; "https"; "module"; "net"; "os"; "path";
      "perf_hooks"; "process"; "punycode"; "querystring"; "readline";
      "repl"; "stream"; "string_decoder"; "timers"; "tls"; "trace_events";
      "tty"; "url"; "util"; "v8"; "vm"; "worker_threads"; "zlib" ]%string.

Definition SOURCE_EXTENSIONS : JsSet.t :=
  [js ".tsx"; js ".ts"; js ".js"; js ".jsx"].

Record CliOptions : Type := {
  noOverride : bool;
  targets : JsSet.t
}.

(* ------------------------------------------------------------------ *)
(** ** package.json resolution                                         *)
(* ------------------------------------------------------------------ *)

(** [`${name}@${version}`] *)
Definition spec_string (name version : jsstring) : jsstring :=
  name ++ js "@" ++ version.

(** [Object.entries(deps ?? {})] *)
Definition entries_of (deps : option (list (jsstring * jsstring)))
  : list (jsstring * jsstring) :=
  match deps with Some l => l | None => [] end.

Definition add_section (map : JsMap.t jsstring)
  (deps : option (list (jsstring * jsstring))) : JsMap.t jsstring :=
  fold_left
    (fun m nv => JsMap.set m (fst nv) (spec_string (fst nv) (snd nv)))
    (entries_of deps) map.

Definition buildPackageMap (pkg : PackageJson) : JsMap.t jsstring :=
  fold_left add_section
    [pkg_dependencies pkg; pkg_devDependencies pkg; pkg_peerDependencies pkg]
    JsMap.empty.

(* ------------------------------------------------------------------ *)
(** ** Import parsing                                                  *)
(* ------------------------------------------------------------------ *)

(** The single quote and the double quote. *)
Definition quotes : jsstring := [39; 34]%N.

(** The classes "one of the two quotes" and "anything but a quote",
    written [Q] and [^Q] below. *)
Definition quote : Re.regex := Re.one_of quotes.
Definition not_quote : Re.regex := Re.none_of quotes.

(** [/(?:^|\n)\s*(?:import|export)\s+(?:.*?\s+from\s+)?Q([^Q]+)Q/g] *)
Definition staticRe : Re.regex :=
  Re.seq
    [ Re.Alt Re.Bol (Re.chr 10);
      Re.Star true Re.space;
      Re.Alt (Re.str (js "import")) (Re.str (js "export"));
      Re.plus Re.space;
      Re.opt (Re.seq [ Re.Star false Re.any; Re.plus Re.space;
                       Re.str (js "from"); Re.plus Re.space ]);
      quote; Re.Grp (Re.plus not_quote); quote ].

(** [/(?:require|import)\s*\(\s*Q([^Q]+)Q\s*\)/g] *)
Definition dynRe : Re.regex :=
  Re.seq
    [ Re.Alt (Re.str (js "require")) (Re.str (js "import"));
      Re.Star true Re.space; Re.chr 40; Re.Star true Re.space;
      quote; Re.Grp (Re.plus not_quote); quote;
      Re.Star true Re.space; Re.chr 41 ].

(** [results.add(m[1])] for every match. *)
Definition add_captures (results : JsSet.t) (ms : list (option jsstring))
  : JsSet.t :=
  fold_left
    (fun acc m => match m with Some p => JsSet.add acc p | None => acc end)
    ms results.

Definition extractImportPaths (source : jsstring) : list jsstring :=
  let results := add_captures JsSet.empty (Re.exec_all staticRe source) in
  add_captures results (Re.exec_all dynRe source).

Definition toPackageName (importPath : jsstring) : jsstring :=
  if Js.startsWith importPath (js "@")
  then Js.join (firstn 2 (Js.split importPath Js.slash)) (js "/")
  else hd [] (Js.split importPath Js.slash).

Definition isLocalImport (importPath : jsstring) : bool :=
  if Js.startsWith importPath (js ".") then true
  else existsb (fun alias => Js.startsWith importPath alias) LOCAL_ALIASES.

(** The loop over the patterns; [None] is [null] (or an undefined
    [match[1]]). *)
Fixpoint first_component (patterns : list Re.regex) (importPath : jsstring)
  : option jsstring :=
  match patterns with
  | [] => None
  | pattern :: patterns' =>
      match Re.exec pattern importPath with
      | Some m1 => m1
      | None => first_component patterns' importPath
      end
  end.

Definition extractShadcnComponent (importPath : jsstring) : option jsstring :=
  first_component SHADCN_UI_PATTERNS importPath.

(** What [resolveRegistryDep] does once [alias] is known to be a prefix
    of the path. *)
Definition lookup_entity (registryEntityMap : JsMap.t jsstring)
  (rest : jsstring) : option jsstring :=
  if JsMap.has registryEntityMap rest then JsMap.get registryEntityMap rest
  else
    let parts := Js.split rest Js.slash in
    if 2 <=? length parts then
      let key := nth 0 parts [] ++ js "/" ++ nth 1 parts [] in
      if JsMap.has registryEntityMap key then JsMap.get registryEntityMap key
      else None
    else None.

(** The loop over the aliases: [continue] on a prefix that does not
    match, [break] after the first one that does. *)
Fixpoint resolve_in (aliases : list jsstring) (importPath : jsstring)
  (registryEntityMap : JsMap.t jsstring) : option jsstring :=
  match aliases with
  | [] => None
  | alias :: aliases' =>
      if negb (Js.startsWith importPath alias)
      then resolve_in aliases' importPath registryEntityMap
      else lookup_entity registryEntityMap
             (Js.slice importPath (length alias))
  end.

Definition resolveRegistryDep (importPath : jsstring)
  (registryEntityMap : JsMap.t jsstring) : option jsstring :=
  resolve_in LOCAL_ALIASES importPath registryEntityMap.

Record FileDeps : Type := {
  npm : JsSet.t;
  registry : JsSet.t;
  unresolved : JsSet.t
}.

Definition no_deps : FileDeps :=
  {| npm := JsSet.empty; registry := JsSet.empty; unresolved := JsSet.empty |}.

(** The outcome of one iteration of the loop of [analyzeFile]. *)
Inductive classification : Type :=
| Catalog (name : jsstring)        (* [registry.add(...)] *)
| Package (spec : jsstring)        (* [npm.add(...)] *)
| Unresolved (pkgName : jsstring)  (* [unresolved.add(...)] *)
| Ignored.                         (* [continue] with nothing recorded *)

(** [if (x)] on a value that is a string or [null]. *)
Definition truthy_or_null (x : option jsstring) : option jsstring :=
  match x with
  | Some s => if Js.truthy s then Some s else None
  | None => None
  end.

Definition classify (packageMap registryEntityMap : JsMap.t jsstring)
  (importPath : jsstring) : classification :=
  match truthy_or_null (extractShadcnComponent importPath) with
  | Some shadcnName => Catalog shadcnName
  | None =>
      match
        (if negb (Js.startsWith importPath (js "."))
         then truthy_or_null (resolveRegistryDep importPath registryEntityMap)
         else None)
      with
      | Some registryDep => Catalog registryDep
      | None =>
          if isLocalImport importPath then Ignored
          else
            let pkgName := toPackageName importPath in
            if JsSet.has NODE_BUILTINS pkgName then Ignored
            else if JsMap.has packageMap pkgName then
              match JsMap.get packageMap pkgName with
              | Some spec => Package spec
              | None => Ignored
              end
            else Unresolved pkgName
      end
  end.

Definition record (deps : FileDeps) (c : classification) : FileDeps :=
  match c with
  | Catalog name =>
      {| npm := npm deps; registry := JsSet.add (registry deps) name;
         unresolved := unresolved deps |}
  | Package spec =>
      {| npm := JsSet.add (npm deps) spec; registry := registry deps;
         unresolved := unresolved deps |}
  | Unresolved pkgName =>
      {| npm := npm deps; registry := registry deps;
         unresolved := JsSet.add (unresolved deps) pkgName |}
  | Ignored => deps
  end.

(** The loop of [analyzeFile] over a list of import paths. *)
Definition analyzeImports (packageMap registryEntityMap : JsMap.t jsstring)
  (importPaths : list jsstring) : FileDeps :=
  fold_left
    (fun deps importPath =>
       record deps (classify packageMap registryEntityMap importPath))
    importPaths no_deps.

Definition analyzeFile (source : jsstring)
  (packageMap registryEntityMap : JsMap.t jsstring) : FileDeps :=
  analyzeImports packageMap registryEntityMap (extractImportPaths source).

(* ------------------------------------------------------------------ *)
(** ** The world: file system, console, process                        *)
(* ------------------------------------------------------------------ *)

(** A directory tree.  [BadFile] is an entry that is not a directory
    and whose [readFileSync] throws; [BadDir] is a directory whose
    [readdirSync] throws. *)
#[warnings="-register-all"]
Inductive node : Type :=
| File (content : jsstring)
| Dir (entries : list (jsstring * node))
| BadFile
| BadDir.

(** A JSON file on disk.  [Parsed None] is a document that parses to
    [null]; for [package.json] it stands for every document on which
    [buildPackageMap] throws a [TypeError], which besides [null] is one
    that lists a version with no string form. *)
Inductive json_file (A : Type) : Type :=
| Missing
| Unreadable
| Malformed
| Parsed (document : option A).

Arguments Missing {A}.
Arguments Unreadable {A}.
Arguments Malformed {A}.

Record World : Type := {
  argv : list jsstring;               (* [process.argv] *)
  cwd : jsstring;                     (* [process.cwd()] *)
  registry_root : option node;        (* what [REGISTRY_DIR] names *)
  package_json : json_file PackageJson;
  registry_json : json_file Registry;
  output_writable : bool              (* whether [writeFileSync] succeeds *)
}.

Definition REGISTRY_DIR (w : World) : jsstring :=
  path_resolve (cwd w) (js "registry").
Definition OUTPUT_FILE (w : World) : jsstring :=
  path_resolve (cwd w) (js "registry.json").
Definition PACKAGE_JSON (w : World) : jsstring :=
  path_resolve (cwd w) (js "package.json").

Record Summary : Type := {
  added : nat;
  updated : nat;
  skipped : nat
}.

(** What the run does to the outside: the diagnostics
    ([console.warn], [console.error]), the per-entity status lines, the
    final counts and the write of the output file.  The other
    [console.log] lines carry no decision and are left out. *)
Inductive event : Type :=
| WarnTargetNotFound (target : jsstring)
| ErrorRegistryDirNotFound (dir : jsstring)
| WarnNoPackageJson
| WarnRegistryUnparseable
| WarnNoCategories
| WarnNoSourceFiles (categoryName entityName : jsstring)
| WarnUnknownPkgs (categoryName entityName : jsstring)
    (unknownPkgs : list jsstring)
| LogSkipped (entityName : jsstring)
| LogUpdated (entityName : jsstring)
| LogAdded (entityName : jsstring)
| WriteFile (file : jsstring) (registry : Registry)
| LogSummary (summary : Summary) (total : nat).

Inductive error : Type :=
| IOError (path : jsstring)           (* an exception of [fs] *)
| SyntaxError (path : jsstring)       (* an exception of [JSON.parse] *)
| TypeError.                          (* a property read on [null], a
                                         call of what is no function *)

(** What a call into [fs] gives: a value or an exception. *)
Inductive attempt (A : Type) : Type :=
| Done (a : A)
| Failed (e : error).

Arguments Failed {A}.

(** How a computation ends: with a value, by [process.exit(code)], or
    by an exception nobody catches. *)
Inductive result (A : Type) : Type :=
| Ok (a : A)
| Exit (code : Z)
| Throw (e : error).

Arguments Exit {A}.
Arguments Throw {A}.

(** A computation extends the trace of events and ends in a result. *)
Definition M (A : Type) : Type := list event -> result A * list event.

Definition ret {A} (a : A) : M A := fun tr => (Ok a, tr).

Definition bind {A B} (m : M A) (f : A -> M B) : M B :=
  fun tr =>
    match m tr with
    | (Ok a, tr') => f a tr'
    | (Exit code, tr') => (Exit code, tr')
    | (Throw e, tr') => (Throw e, tr')
    end.

Definition emit (e : event) : M unit := fun tr => (Ok tt, tr ++ [e]).

Definition exit {A} (code : Z) : M A := fun tr => (Exit code, tr).

Definition throw {A} (e : error) : M A := fun tr => (Throw e, tr).

Definition lift {A} (r : attempt A) : M A :=
  fun tr =>
    match r with
    | Done a => (Ok a, tr)
    | Failed e => (Throw e, tr)
    end.

Notation "x <- m ;; k" := (bind m (fun x => k))
  (at level 61, m at next level, right associativity).
Notation "m ;; k" := (bind m (fun _ => k))
  (at level 61, right associativity).

(** [for (const x of xs) acc = body(acc, x)] *)
Fixpoint for_each {A S} (xs : list A) (body : S -> A -> M S) (acc : S)
  : M S :=
  match xs with
  | [] => ret acc
  | x :: xs' => acc' <- body acc x ;; for_each xs' body acc'
  end.

(** The completion signal of the process. *)
Definition exit_code {A} (r : result A) : Z :=
  match r with
  | Ok _ => 0
  | Exit code => code
  | Throw _ => 1
  end.

(** *** [fs] *)

Definition isDirectory (n : node) : bool :=
  match n with
  | Dir _ | BadDir => true
  | File _ | BadFile => false
  end.

Definition readdirSync (dir : jsstring) (n : node)
  : attempt (list (jsstring * node)) :=
  match n with
  | Dir entries => Done entries
  | _ => Failed (IOError dir)
  end.

Definition readFileSync (file : jsstring) (n : node) : attempt jsstring :=
  match n with
  | File content => Done content
  | _ => Failed (IOError file)
  end.

(** The entry called [name] of a directory. *)
Fixpoint entry (entries : list (jsstring * node)) (name : jsstring)
  : option node :=
  match entries with
  | [] => None
  | (name', n) :: entries' =>
      if Js.eqb name name' then Some n else entry entries' name
  end.

Definition child (n : node) (name : jsstring) : option node :=
  match n with
  | Dir entries => entry entries name
  | _ => None
  end.

(** The names of the sub-directories:
    [readdirSync(dir, { withFileTypes: true }).filter((e) => e.isDirectory())] *)
Definition subdirectories (entries : list (jsstring * node))
  : list (jsstring * node) :=
  filter (fun e => isDirectory (snd e)) entries.

Fixpoint walkDir (dir : jsstring) (n : node) {struct n}
  : attempt (list (jsstring * node)) :=
  match n with
  | Dir entries =>
      (fix walk (es : list (jsstring * node))
         : attempt (list (jsstring * node)) :=
         match es with
         | [] => Done []
         | (name, n') :: es' =>
             let fullPath := path_join dir name in
             match
               (if isDirectory n' then walkDir fullPath n'
                else Done [(fullPath, n')])
             with
             | Done here =>
                 match walk es' with
                 | Done more => Done (here ++ more)
                 | Failed e => Failed e
                 end
             | Failed e => Failed e
             end
         end) entries
  | _ => Failed (IOError dir)
  end.

Definition isSourceFile (filePath : jsstring) : bool :=
  let ext := extname filePath in
  if negb (JsSet.has SOURCE_EXTENSIONS ext)
     && negb (Js.endsWith filePath (js ".css"))
  then false
  else negb (existsb (fun pattern => Re.test pattern filePath)
               EXCLUDED_PATTERNS).

(* ------------------------------------------------------------------ *)
(** ** The script                                                      *)
(* ------------------------------------------------------------------ *)

Section Script.
Context {runtime : Runtime}.

Definition inferFileType (filePath : jsstring)
  (categoryDefault : RegistryFileType) : RegistryFileType :=
  if Js.endsWith filePath (js ".css") then file_style
  else
    let base := toLowerCase (basename_ext filePath (extname filePath)) in
    if Js.startsWith base (js "use-") || Js.endsWith base (js "-hook")
    then file_hook
    else if Js.eqb base (js "utils") || Js.eqb base (js "helpers")
            || Js.eqb base (js "lib")
    then file_lib
    else categoryDefault.

(** [w.charAt(0).toUpperCase() + w.slice(1)] *)
Definition capitalize (w : jsstring) : jsstring :=
  toUpperCase (firstn 1 w) ++ Js.slice w 1.

Definition toTitle (name : jsstring) : jsstring :=
  Js.join
    (map capitalize
       (Js.split_on (fun c => (c =? 45)%N || (c =? 95)%N) name))
    (js " ").

(** *** CLI argument parsing *)

(** [fs.existsSync(path.join(REGISTRY_DIR, category, target))] for a
    [target] without [/]; [path.join] resolves the segments [.] and
    [..] and drops an empty one. *)
Definition target_exists (w : World) (category target : jsstring) : bool :=
  match registry_root w with
  | None => false
  | Some root =>
      if Js.eqb target (js "..") then true
      else
        match child root category with
        | None => false
        | Some c =>
            if Js.eqb target [] || Js.eqb target (js ".") then true
            else match child c target with Some _ => true | None => false end
        end
  end.

Definition parse_target (w : World) (targets : JsSet.t) (target : jsstring)
  : M JsSet.t :=
  if Js.includes target Js.slash then ret (JsSet.add targets target)
  else
    let visit (acc : JsSet.t * bool) (category : jsstring) :=
      if target_exists w category target
      then (JsSet.add (fst acc) (category ++ js "/" ++ target), true)
      else acc in
    let '(targets', found) :=
      fold_left visit (map fst ENTITY_CATEGORIES) (targets, false) in
    if negb found
    then emit (WarnTargetNotFound target) ;; ret targets'
    else ret targets'.

Definition parseArgs (w : World) : M CliOptions :=
  let args := skipn 2 (argv w) in
  let noOverride := existsb (Js.eqb (js "--no-override")) args in
  let positional :=
    filter (fun a => negb (Js.startsWith a (js "--"))) args in
  targets <- for_each positional (parse_target w) JsSet.empty ;;
  ret {| noOverride := noOverride; targets := targets |}.

(** *** registry.json helpers *)

Definition loadExistingRegistry (w : World) : M (option Registry) :=
  match registry_json w with
  | Missing => ret None
  | Parsed document => ret document
  | Unreadable | Malformed => emit WarnRegistryUnparseable ;; ret None
  end.

(** *** Registry entity map *)

Definition index_category (categoryName : jsstring)
  (entries : list (jsstring * node)) (map : JsMap.t jsstring)
  : JsMap.t jsstring :=
  fold_left
    (fun m e =>
       if negb (isDirectory (snd e)) then m
       else JsMap.set m (categoryName ++ js "/" ++ fst e)
              (toKebabCase (fst e)))
    entries map.

Definition buildRegistryEntityMap (registryDir : jsstring) (root : node)
  : M (JsMap.t jsstring) :=
  for_each (map fst ENTITY_CATEGORIES)
    (fun map categoryName =>
       let categoryDir := path_join registryDir categoryName in
       match child root categoryName with
       | None => ret map
       | Some c =>
           entries <- lift (readdirSync categoryDir c) ;;
           ret (index_category categoryName entries map)
       end)
    JsMap.empty.

(** *** package.json *)

Definition loadPackageJson (w : World) : M (option PackageJson) :=
  match package_json w with
  | Missing =>
      emit WarnNoPackageJson ;;
      ret (Some {| pkg_dependencies := None; pkg_devDependencies := None;
                   pkg_peerDependencies := None |})
  | Unreadable => throw (IOError (PACKAGE_JSON w))
  | Malformed => throw (SyntaxError (PACKAGE_JSON w))
  | Parsed document => ret document
  end.

(** *** Process a single entity *)

Definition merge (all d : FileDeps) : FileDeps :=
  {| npm := JsSet.add_all (npm all) (npm d);
     registry := JsSet.add_all (registry all) (registry d);
     unresolved := JsSet.add_all (unresolved all) (unresolved d) |}.

Definition registry_file (categoryName entityName : jsstring)
  (category : Category) (absPath : jsstring) : RegistryFile :=
  let fileName := basename absPath in
  {| file_path :=
       js "registry/" ++ categoryName ++ js "/" ++ entityName ++ js "/"
       ++ fileName;
     file_type := inferFileType absPath (fileType category);
     file_target :=
       targetDir category ++ js "/" ++ entityName ++ js "/" ++ fileName |}.

(** The callback of [sourceFiles.map]: the three sets and the file
    descriptors built so far, extended by one file. *)
Definition visit_file (categoryName entityName : jsstring)
  (category : Category) (packageMap registryEntityMap : JsMap.t jsstring)
  (acc : FileDeps * list RegistryFile) (f : jsstring * node)
  : M (FileDeps * list RegistryFile) :=
  let absPath := fst f in
  content <- lift (readFileSync absPath (snd f)) ;;
  let all :=
    if negb (Js.endsWith absPath (js ".css"))
    then merge (fst acc) (analyzeFile content packageMap registryEntityMap)
    else fst acc in
  ret (all, snd acc ++ [registry_file categoryName entityName category absPath]).

(** [if (set.size > 0) item.field = [...set].sort()] *)
Definition sorted_field (s : JsSet.t) : option (list jsstring) :=
  if 0 <? JsSet.size s then Some (js_sort s) else None.

Definition build_item (entityName : jsstring) (category : Category)
  (all : FileDeps) (registryFiles : list RegistryFile) : RegistryItem :=
  let allRegistry := JsSet.delete (registry all) (toKebabCase entityName) in
  {| item_name := toKebabCase entityName;
     item_type := itemType category;
     item_title := toTitle entityName;
     item_description := None;
     item_dependencies := sorted_field (npm all);
     item_registryDependencies := sorted_field allRegistry;
     item_files := registryFiles |}.

Definition processEntity (categoryName entityName entityDir : jsstring)
  (dir : node) (category : Category)
  (packageMap registryEntityMap : JsMap.t jsstring)
  : M (option RegistryItem) :=
  walked <- lift (walkDir entityDir dir) ;;
  let sourceFiles := filter (fun f => isSourceFile (fst f)) walked in
  if length sourceFiles =? 0 then
    emit (WarnNoSourceFiles categoryName entityName) ;; ret None
  else
    r <- for_each sourceFiles
           (visit_file categoryName entityName category packageMap
              registryEntityMap)
           (no_deps, []) ;;
    let unknownPkgs := unresolved (fst r) in
    (if 0 <? length unknownPkgs
     then emit (WarnUnknownPkgs categoryName entityName unknownPkgs)
     else ret tt) ;;
    ret (Some (build_item entityName category (fst r) (snd r))).

(** *** Main *)

Definition ItemMap : Type := JsMap.t RegistryItem.

(** [.map((item) => [item.name, item])]: reading [name] of an element
    that is [null] throws. *)
Fixpoint item_entries (elements : list (option RegistryItem))
  : attempt (list (jsstring * RegistryItem)) :=
  match elements with
  | [] => Done []
  | None :: _ => Failed TypeError
  | Some item :: elements' =>
      match item_entries elements' with
      | Done entries => Done ((item_name item, item) :: entries)
      | Failed e => Failed e
      end
  end.

(** [new Map((existingRegistry?.items ?? []).map((item) => [item.name, item]))];
    a value of [items] that is no array has no [map] to call. *)
Definition existing_items (existingRegistry : option Registry)
  : attempt ItemMap :=
  let items :=
    match existingRegistry with
    | Some r => reg_items r
    | None => NoItems
    end in
  match items with
  | NoItems => Done (JsMap.of_entries [])
  | ItemArray elements =>
      match item_entries elements with
      | Done entries => Done (JsMap.of_entries entries)
      | Failed e => Failed e
      end
  | NotAnArray => Failed TypeError
  end.

(** The filter on the entity names of a category. *)
Definition selected (options : CliOptions) (categoryName entityName : jsstring)
  : bool :=
  if JsSet.size (targets options) =? 0 then true
  else JsSet.has (targets options) (categoryName ++ js "/" ++ entityName)
       || JsSet.has (targets options) entityName.

Definition count_skipped (s : Summary) : Summary :=
  {| added := added s; updated := updated s; skipped := S (skipped s) |}.
Definition count_updated (s : Summary) : Summary :=
  {| added := added s; updated := S (updated s); skipped := skipped s |}.
Definition count_added (s : Summary) : Summary :=
  {| added := S (added s); updated := updated s; skipped := skipped s |}.

(** The body of the loop over the entity names of one category. *)
Definition entity_step (options : CliOptions) (existingItemMap : ItemMap)
  (packageMap registryEntityMap : JsMap.t jsstring)
  (categoryName : jsstring) (category : Category) (categoryDir : jsstring)
  (st : Summary * ItemMap) (e : jsstring * node) : M (Summary * ItemMap) :=
  let entityName := fst e in
  let alreadyExists := JsMap.has existingItemMap entityName in
  if noOverride options && alreadyExists then
    emit (LogSkipped entityName) ;;
    ret (count_skipped (fst st), snd st)
  else
    let entityDir := path_join categoryDir entityName in
    item <- processEntity categoryName entityName entityDir (snd e) category
              packageMap registryEntityMap ;;
    match item with
    | None => ret st
    | Some item =>
        let updatedItemMap := JsMap.set (snd st) entityName item in
        if alreadyExists then
          emit (LogUpdated entityName) ;;
          ret (count_updated (fst st), updatedItemMap)
        else
          emit (LogAdded entityName) ;;
          ret (count_added (fst st), updatedItemMap)
    end.

(** The body of the loop over the active categories. *)
Definition category_step (options : CliOptions) (existingItemMap : ItemMap)
  (packageMap registryEntityMap : JsMap.t jsstring)
  (registryDir : jsstring) (rootEntries : list (jsstring * node))
  (st : Summary * ItemMap) (c : jsstring * Category) : M (Summary * ItemMap) :=
  let categoryName := fst c in
  let categoryDir := path_join registryDir categoryName in
  match entry (subdirectories rootEntries) categoryName with
  | None => ret st
  | Some dir =>
      entries <- lift (readdirSync categoryDir dir) ;;
      let entityNames :=
        filter (fun e => selected options categoryName (fst e))
          (subdirectories entries) in
      for_each entityNames
        (entity_step options existingItemMap packageMap registryEntityMap
           categoryName (snd c) categoryDir)
        st
  end.

Definition or_default (x : option jsstring) (default : jsstring) : jsstring :=
  match x with Some v => v | None => default end.

(** The document handed to [JSON.stringify]. *)
Definition build_registry (existingRegistry : option Registry)
  (updatedItemMap : ItemMap) : Registry :=
  {| reg_schema := REGISTRY_SCHEMA;
     reg_name :=
       Some (or_default
               (match existingRegistry with
                | Some r => reg_name r | None => None end)
               REGISTRY_NAME);
     reg_homepage :=
       Some (or_default
               (match existingRegistry with
                | Some r => reg_homepage r | None => None end)
               REGISTRY_HOMEPAGE);
     reg_items := listed (JsMap.values updatedItemMap) |}.

Definition writeFileSync (w : World) (registry : Registry) : M unit :=
  if output_writable w then emit (WriteFile (OUTPUT_FILE w) registry)
  else throw (IOError (OUTPUT_FILE w)).

(** The configured categories present as directories under the root. *)
Definition active_categories (rootEntries : list (jsstring * node))
  : list (jsstring * Category) :=
  filter
    (fun c => JsSet.has (map fst (subdirectories rootEntries)) (fst c))
    ENTITY_CATEGORIES.

Definition no_counts : Summary := {| added := 0; updated := 0; skipped := 0 |}.

(** The two nested loops of [main]. *)
Definition process_categories (options : CliOptions)
  (existingItemMap : ItemMap) (packageMap registryEntityMap : JsMap.t jsstring)
  (registryDir : jsstring) (rootEntries : list (jsstring * node))
  : M (Summary * ItemMap) :=
  for_each (active_categories rootEntries)
    (category_step options existingItemMap packageMap registryEntityMap
       registryDir rootEntries)
    (no_counts, existingItemMap).

(** [main] once the arguments and [package.json] are read. *)
Definition main_from_packages (w : World) (options : CliOptions)
  (root : node) (pkg : PackageJson) : M unit :=
  let packageMap := buildPackageMap pkg in
  registryEntityMap <- buildRegistryEntityMap (REGISTRY_DIR w) root ;;
  existingRegistry <- loadExistingRegistry w ;;
  existingItemMap <- lift (existing_items existingRegistry) ;;
  rootEntries <- lift (readdirSync (REGISTRY_DIR w) root) ;;
  if length (active_categories rootEntries) =? 0 then
    emit WarnNoCategories ;; exit 0
  else
    st <- process_categories options existingItemMap packageMap
            registryEntityMap (REGISTRY_DIR w) rootEntries ;;
    let registry := build_registry existingRegistry (snd st) in
    writeFileSync w registry ;;
    emit (LogSummary (fst st) (JsMap.size (snd st))).

Definition main (w : World) : M unit :=
  options <- parseArgs w ;;
  match registry_root w with
  | None => emit (ErrorRegistryDirNotFound (REGISTRY_DIR w)) ;; exit 1
  | Some root =>
      pkg <- loadPackageJson w ;;
      match pkg with
      | None => throw TypeError
      | Some pkg => main_from_packages w options root pkg
      end
  end.

End Script.

(* ------------------------------------------------------------------ *)
(** ** The specification side                                         *)
(* ------------------------------------------------------------------ *)

(** Whether the run is in the skip-existing mode: [--no-override] is
    among the arguments. *)
Definition skip_existing_mode (w : World) : bool :=
  existsb (Js.eqb (js "--no-override")) (skipn 2 (argv w)).

(** The documents written by a run. *)
Definition writes (tr : list event) : list Registry :=
  flat_map
    (fun e => match e with WriteFile _ registry => [registry] | _ => [] end)
    tr.

(** The persisted manifest as [loadExistingRegistry] returns it. *)
Definition persisted (w : World) : option Registry :=
  match registry_json w with
  | Parsed document => document
  | _ => None
  end.

(** The items a persisted manifest lists: the elements of [items] that
    are not [null]. *)
Definition persisted_list (existingRegistry : option Registry)
  : list RegistryItem :=
  match existingRegistry with
  | Some r =>
      match reg_items r with
      | ItemArray elements =>
          flat_map
            (fun element =>
               match element with Some item => [item] | None => [] end)
            elements
      | NoItems | NotAnArray => []
      end
  | None => []
  end.

(** The index of the persisted items by name,
    [new Map(items.map((item) => [item.name, item]))] over the listed
    items: what [existing_items] returns whenever it returns. *)
Definition persisted_index (existingRegistry : option Registry) : ItemMap :=
  JsMap.of_entries
    (map (fun item => (item_name item, item))
       (persisted_list existingRegistry)).

(** The first configured alias prefix the path starts with. *)
Definition first_alias (importPath : jsstring) : option jsstring :=
  find (fun alias => Js.startsWith importPath alias) LOCAL_ALIASES.

(** Alias resolution in the words of the specification: look the
    remainder up in the index; if that misses and the remainder has at
    least two segments, look up the first two joined by [/]. *)
Definition alias_lookup_spec (index : JsMap.t jsstring)
  (remainder : jsstring) : option jsstring :=
  match JsMap.get index remainder with
  | Some name => Some name
  | None =>
      match Js.split remainder Js.slash with
      | first :: second :: _ => JsMap.get index (first ++ js "/" ++ second)
      | _ => None
      end
  end.

(** The version a section of [package.json] lists for a package: the
    one of its last entry of that name. *)
Fixpoint section_version (entries : list (jsstring * jsstring))
  (name : jsstring) : option jsstring :=
  match entries with
  | [] => None
  | (n, v) :: entries' =>
      match section_version entries' name with
      | Some v' => Some v'
      | None => if Js.eqb name n then Some v else None
      end
  end.

(** The version of a package by precedence of the sections:
    [peerDependencies], then [devDependencies], then [dependencies]. *)
Definition version_by_precedence (pkg : PackageJson) (name : jsstring)
  : option jsstring :=
  match section_version (entries_of (pkg_peerDependencies pkg)) name with
  | Some v => Some v
  | None =>
      match section_version (entries_of (pkg_devDependencies pkg)) name with
      | Some v => Some v
      | None => section_version (entries_of (pkg_dependencies pkg)) name
      end
  end.

(** The dependency sets after one import. *)
Definition only_catalog (name : jsstring) : FileDeps :=
  {| npm := []; registry := [name]; unresolved := [] |}.

(** [a < b] as a proposition. *)
Definition str_lt (a b : jsstring) : Prop := Js.ltb a b = true.

(** A dependency field of an item: omitted, or a non-empty array in
    strictly increasing order. *)
Definition well_formed_field (field : option (list jsstring)) : Prop :=
  match field with
  | None => True
  | Some l => l <> [] /\ StronglySorted str_lt l /\ NoDup l
  end.

(** An item whose catalog dependencies do not name the item itself. *)
Definition no_self_dependency (item : RegistryItem) : Prop :=
  forall deps,
    item_registryDependencies item = Some deps -> ~ In (item_name item) deps.

(** An item some call of [processEntity] returned. *)
Definition produced {runtime : Runtime} (item : RegistryItem) : Prop :=
  exists categoryName entityName entityDir dir category packageMap index
         tr tr',
    processEntity categoryName entityName entityDir dir category packageMap
      index tr = (Ok (Some item), tr').

(** A directory that can be walked and holds no eligible source file. *)
Definition no_source_files (entityDir : jsstring) (dir : node) : Prop :=
  exists walked,
    walkDir entityDir dir = Done walked
    /\ filter (fun f => isSourceFile (fst f)) walked = [].

(** Every entity directory called [name], in whatever category, holds
    no eligible source file. *)
Definition only_empty_entities_named (w : World) (name : jsstring) : Prop :=
  forall root rootEntries categoryName categoryDir entries dir,
    registry_root w = Some root ->
    readdirSync (REGISTRY_DIR w) root = Done rootEntries ->
    entry (subdirectories rootEntries) categoryName = Some categoryDir ->
    readdirSync (path_join (REGISTRY_DIR w) categoryName) categoryDir
    = Done entries ->
    In (name, dir) (subdirectories entries) ->
    no_source_files
      (path_join (path_join (REGISTRY_DIR w) categoryName) name) dir.

(** A computation that writes no file, never exits the process and
    fails, if at all, on an exception of [fs]. *)
Definition quiet {A : Type} (m : M A) : Prop :=
  forall tr,
    writes (snd (m tr)) = writes tr
    /\ (forall code, fst (m tr) <> Exit code)
    /\ (forall e, fst (m tr) = Throw e -> exists path, e = IOError path).

(** An [fs] call that fails, if at all, on an exception of [fs]. *)
Definition fails_on_io {A : Type} (r : attempt A) : Prop :=
  forall e, r = Failed e -> exists path, e = IOError path.

(** Induction over a directory tree. *)
Fixpoint node_induction (P : node -> Prop)
  (HFile : forall content, P (File content))
  (HDir : forall entries,
      Forall (fun e => P (snd e)) entries -> P (Dir entries))
  (HBadFile : P BadFile) (HBadDir : P BadDir) (n : node) {struct n} : P n :=
  match n with
  | File content => HFile content
  | Dir entries =>
      HDir entries
        ((fix all (es : list (jsstring * node))
            : Forall (fun e => P (snd e)) es :=
            match es with
            | [] => Forall_nil _
            | (name, n') :: es' =>
                Forall_cons (name, n')
                  (node_induction P HFile HDir HBadFile HBadDir n')
                  (all es')
            end) entries)
  | BadFile => HBadFile
  | BadDir => HBadDir
  end.

(** Why a run can end in an exception: a call into [fs] failed, or
    [package.json] does not parse, or the package table cannot be built
    from it, or the [items] of [registry.json] cannot be indexed. *)
Definition exception_cause (w : World) (e : error) : Prop :=
  match e with
  | IOError _ => True
  | SyntaxError path => path = PACKAGE_JSON w /\ package_json w = Malformed
  | TypeError =>
      package_json w = Parsed None
      \/ existing_items (persisted w) = Failed TypeError
  end.

(** The four ways a run ends. *)
Inductive main_outcome {runtime : Runtime} (w : World)
  : result unit -> list event -> Prop :=
| missing_root tr :
    registry_root w = None -> writes tr = [] ->
    main_outcome w (Exit 1) (tr ++ [ErrorRegistryDirNotFound (REGISTRY_DIR w)])
| uncaught_exception e tr :
    registry_root w <> None -> writes tr = [] -> exception_cause w e ->
    main_outcome w (Throw e) tr
| no_category root rootEntries tr :
    registry_root w = Some root ->
    readdirSync (REGISTRY_DIR w) root = Done rootEntries ->
    active_categories rootEntries = [] ->
    writes tr = [] ->
    main_outcome w (Exit 0) (tr ++ [WarnNoCategories])
| completed options packageMap index root rootEntries st tr1 tr2 :
    registry_root w = Some root ->
    readdirSync (REGISTRY_DIR w) root = Done rootEntries ->
    noOverride options = skip_existing_mode w ->
    existing_items (persisted w) = Done (persisted_index (persisted w)) ->
    process_categories options (persisted_index (persisted w)) packageMap
      index (REGISTRY_DIR w) rootEntries tr1 = (Ok st, tr2) ->
    writes tr2 = [] ->
    main_outcome w (Ok tt)
      (tr2 ++ [ WriteFile (OUTPUT_FILE w)
                  (build_registry (persisted w) (snd st));
                LogSummary (fst st) (JsMap.size (snd st)) ]).

(* ------------------------------------------------------------------ *)
(** ** A runtime for closed examples                                  *)
(* ------------------------------------------------------------------ *)

(** The three library functions on ASCII input.  [toKebabCase] of
    [remeda] splits its argument into words, lower-cases them and joins
    them by [-].  The words are found in one pass over the characters:
    [-], [_] and white space end a word and are dropped; a word ends
    before an upper-case letter that follows a lower-case one, before
    the last of a run of upper-case letters that a lower-case letter
    follows, and between a digit and what is no digit. *)
Module Ascii_runtime.

Definition is_upper (c : N) : bool := (65 <=? c)%N && (c <=? 90)%N.
Definition is_lower (c : N) : bool := (97 <=? c)%N && (c <=? 122)%N.
Definition is_digit (c : N) : bool := (48 <=? c)%N && (c <=? 57)%N.
Definition lower (c : N) : N := if is_upper c then (c + 32)%N else c.
Definition upper (c : N) : N := if is_lower c then (c - 32)%N else c.

(** [WORD_SEPARATORS]: [-], [_] and the white space characters. *)
Definition is_separator (c : N) : bool :=
  (c =? 45)%N || (c =? 95)%N || Re.is_space c || (c =? 133)%N.

(** [/[a-z]$/.test(word)], [/\d$/.test(word)] *)
Definition ends_with (f : N -> bool) (word : jsstring) : bool :=
  match rev word with
  | c :: _ => f c
  | [] => false
  end.

(** [/[A-Z][A-Z]$/.test(word)] *)
Definition ends_with_two_capitals (word : jsstring) : bool :=
  match rev word with
  | a :: b :: _ => is_upper a && is_upper b
  | _ => false
  end.

(** [flush()]: the word, unless it is empty, is one more result. *)
Definition flush (results : list jsstring) (word : jsstring)
  : list jsstring :=
  if Js.truthy word then results ++ [word] else results.

(** One turn of the loop over the characters; the state is [results]
    and [word]. *)
Definition step (st : list jsstring * jsstring) (character : N)
  : list jsstring * jsstring :=
  let (results, word) := st in
  if is_separator character then (flush results word, [])
  else if ends_with is_lower word && is_upper character then
    (flush results word, [character])
  else if ends_with_two_capitals word && is_lower character then
    (flush results (removelast word), [last word 0%N; character])
  else if negb (Bool.eqb (ends_with is_digit word) (is_digit character)) then
    (flush results word, [character])
  else (results, word ++ [character]).

Definition words (s : jsstring) : list jsstring :=
  let (results, word) := fold_left step s ([], []) in
  flush results word.

Definition kebab (s : jsstring) : jsstring :=
  Js.join (map (map lower) (words s)) (js "-").

Definition instance : Runtime :=
  {| toKebabCase := kebab;
     toUpperCase := map upper;
     toLowerCase := map lower |}.

End Ascii_runtime.

(* ------------------------------------------------------------------ *)
(** ** Concrete trees and manifests                                   *)
(* ------------------------------------------------------------------ *)

(** A run of the script from an empty trace. *)
Definition run (w : World) : result unit * list event :=
  @main Ascii_runtime.instance w [].

(** The command line [node generate-registry.ts <args>]. *)
Definition command_line (args : list jsstring) : list jsstring :=
  js "node" :: js "generate-registry.ts" :: args.

(** A file made of the given lines. *)
Definition source_text (lines : list String.string) : jsstring :=
  Js.join (map Js.lit lines) [10%N].

Definition a_package_json : PackageJson :=
  {| pkg_dependencies := Some [(js "react", js "18.2.0")];
     pkg_devDependencies := None;
     pkg_peerDependencies := None |}.

Definition pkg_three_sections : PackageJson :=
  {| pkg_dependencies := Some [(js "react", js "17.0.2")];
     pkg_devDependencies :=
       Some [(js "react", js "18.2.0"); (js "zod", js "3.22.0")];
     pkg_peerDependencies := Some [(js "react", js "19.0.0")] |}.

Definition a_world (args : list jsstring) (root : option node)
  (existing : json_file Registry) : World :=
  {| argv := command_line args;
     cwd := js "/repo";
     registry_root := root;
     package_json := Parsed (Some a_package_json);
     registry_json := existing;
     output_writable := true |}.

Definition components : Category :=
  {| itemType := item_component; fileType := file_component;
     targetDir := js "components" |}.

(** [components/card], whose file imports its own entity through an
    alias, a UI component and two packages. *)
Definition card_dir : node :=
  Dir [ (js "card.tsx",
         File (source_text
                 [ "import { helper } from '@/components/card/helpers'";
                   "import { Button } from '@/components/ui/button'";
                   "import { z } from 'zod'";
                   "import * as React from 'react'" ]%string)) ].

Definition card_index : JsMap.t jsstring :=
  [(js "components/card", js "card")].

Definition card_run : result (option RegistryItem) * list event :=
  @processEntity Ascii_runtime.instance (js "components") (js "card")
    (js "/repo/registry/components/card") card_dir components
    (buildPackageMap pkg_three_sections) card_index [].

Definition button_file : node :=
  File (source_text
          [ "import * as React from 'react'";
            "export const Button = () => null" ]%string).

(** An item as a previous run, or a hand, left it in [registry.json]. *)
Definition stale_button : RegistryItem :=
  {| item_name := js "button";
     item_type := item_component;
     item_title := js "Button";
     item_description := Some (js "kept by hand");
     item_dependencies := Some [js "left-pad@1.3.0"];
     item_registryDependencies := None;
     item_files :=
       [ {| file_path := js "registry/components/button/old.tsx";
            file_type := file_component;
            file_target := js "components/button/old.tsx" |} ] |}.

Definition persisted_manifest : Registry :=
  {| reg_schema := js "./schema/registry.json";
     reg_name := Some (js "acme");
     reg_homepage := None;
     reg_items := listed [stale_button] |}.

(** The item the script computes for [button_file] in a component
    directory called [name]. *)
Definition fresh_button (name : jsstring) : RegistryItem :=
  {| item_name := js "button";
     item_type := item_component;
     item_title := js "Button";
     item_description := None;
     item_dependencies := Some [js "react@18.2.0"];
     item_registryDependencies := None;
     item_files :=
       [ {| file_path :=
              js "registry/components/" ++ name ++ js "/" ++ name ++ js ".tsx";
            file_type := file_component;
            file_target :=
              js "components/" ++ name ++ js "/" ++ name ++ js ".tsx" |} ] |}.

(** [hooks/use-debounce], which imports an entity of the catalog
    through an alias, a package and a built-in module. *)
Definition use_debounce_dir : node :=
  Dir [ (js "use-debounce.ts",
         File (source_text
                 [ "import { cn } from '@/lib/utils/utils'";
                   "import { useEffect } from 'react'";
                   "const fs = require('fs')" ]%string)) ].

Definition hooks : Category :=
  {| itemType := item_hook; fileType := file_hook; targetDir := js "hooks" |}.

(** [components/button], which imports a UI component. *)
Definition ui_import_dir : node :=
  Dir [ (js "button.tsx",
         File (source_text
                 [ "import { Input } from '@/components/ui/input'" ]%string)) ].

(** [registry/components/button/button.tsx] *)
Definition tree_button : node :=
  Dir [ (js "components",
         Dir [ (js "button", Dir [ (js "button.tsx", button_file) ]) ]) ].

(** [registry/components/Button/Button.tsx] *)
Definition tree_Button : node :=
  Dir [ (js "components",
         Dir [ (js "Button", Dir [ (js "Button.tsx", button_file) ]) ]) ].

(** [registry/components/button] holds a test file only. *)
Definition tests_only_dir : node :=
  Dir [ (js "button.test.tsx", button_file) ].

Definition tree_tests_only : node :=
  Dir [ (js "components",
         Dir [ (js "button", tests_only_dir); (js "card", card_dir) ]) ].

(** A root without any directory of a configured category. *)
Definition tree_no_category : node :=
  Dir [ (js "README.md", File (js "docs")) ].

Definition world_no_category : World :=
  a_world [] (Some tree_no_category) Missing.

Definition world_rerun : World :=
  a_world [] (Some tree_button) (Parsed (Some persisted_manifest)).

Definition world_skip : World :=
  a_world [js "--no-override"] (Some tree_button)
    (Parsed (Some persisted_manifest)).

Definition world_Button : World :=
  a_world [] (Some tree_Button) (Parsed (Some persisted_manifest)).

Definition world_tests_only : World :=
  a_world [] (Some tree_tests_only) (Parsed (Some persisted_manifest)).

(** [--no-override] over [registry/components/Button] and a manifest
    that holds an item named [button]. *)
Definition world_Button_skip : World :=
  a_world [js "--no-override"] (Some tree_Button)
    (Parsed (Some persisted_manifest)).

(** The manifest the run of [world_Button_skip] writes. *)
Definition manifest_after_Button_skip : Registry :=
  {| reg_schema := REGISTRY_SCHEMA;
     reg_name := Some (js "acme");
     reg_homepage := Some REGISTRY_HOMEPAGE;
     reg_items := listed [stale_button; fresh_button (js "Button")] |}.

(** The same command line and tree over that manifest. *)
Definition world_Button_skip_again : World :=
  a_world [js "--no-override"] (Some tree_Button)
    (Parsed (Some manifest_after_Button_skip)).

(** A [registry.json] whose [items] is no array, as in
    [{ "items": "none" }]. *)
Definition world_items_not_array : World :=
  a_world [] (Some tree_button)
    (Parsed (Some {| reg_schema := REGISTRY_SCHEMA;
                     reg_name := None;
                     reg_homepage := None;
                     reg_items := NotAnArray |})).

(** A [registry.json] whose [items] holds [null]. *)
Definition world_null_item : World :=
  a_world [] (Some tree_button)
    (Parsed (Some {| reg_schema := REGISTRY_SCHEMA;
                     reg_name := None;
                     reg_homepage := None;
                     reg_items := ItemArray [Some stale_button; None] |})).

(* ------------------------------------------------------------------ *)
(** ** Further notions used in the properties                         *)
(* ------------------------------------------------------------------ *)

(** A code unit other than the two quotes. *)
Definition not_a_quote (c : N) : bool := negb (existsb (N.eqb c) quotes).

(** A [package.json] that lists a package named like a Node built-in. *)
Definition pkg_with_builtin : PackageJson :=
  {| pkg_dependencies :=
       Some [(js "events", js "3.3.0"); (js "react", js "18.2.0")];
     pkg_devDependencies := None;
     pkg_peerDependencies := None |}.

(** [at_path n names n']: following the entry names [names] downwards
    from the node [n] leads to the node [n']. *)
Inductive at_path : node -> list jsstring -> node -> Prop :=
| at_here (n : node) : at_path n [] n
| at_entry (entries : list (jsstring * node)) (name : jsstring) (n : node)
    (names : list jsstring) (n' : node) :
    In (name, n) entries -> at_path n names n' ->
    at_path (Dir entries) (name :: names) n'.

(** [quoted_after_keyword s p]: the text [s] holds [p] between two
    quote characters, somewhere after one of the words [import],
    [export] and [require]. *)
Definition quoted_after_keyword (s p : jsstring) : Prop :=
  exists before kw mid q1 q2 after,
    In kw [js "import"; js "export"; js "require"]
    /\ In q1 quotes /\ In q2 quotes
    /\ s = before ++ kw ++ mid ++ q1 :: p ++ q2 :: after.

(** The elements of an optional array field of an item. *)
Definition field_elements (field : option (list jsstring)) : list jsstring :=
  match field with Some l => l | None => [] end.

(** [analysed_import sources p]: [p] is an import path of one of the
    files [sources] that is not a style sheet. *)
Definition analysed_import (sources : list (jsstring * node)) (p : jsstring)
  : Prop :=
  exists absPath content,
    In (absPath, File content) sources
    /\ Js.endsWith absPath (js ".css") = false
    /\ In p (extractImportPaths content).

(** The positional arguments of the command line. *)
Definition positional (w : World) : list jsstring :=
  filter (fun a => negb (Js.startsWith a (js "--"))) (skipn 2 (argv w)).

(** A positional argument without [/] that names a directory of no
    configured category. *)
Definition unmatched (w : World) (target : jsstring) : bool :=
  negb (Js.includes target Js.slash)
  && negb (existsb (fun category => target_exists w category target)
             (map fst ENTITY_CATEGORIES)).

(** The command line [node generate-registry.ts button]. *)
Definition world_button_target : World :=
  a_world [js "button"] (Some tree_button) Missing.

(** A manifest that lists two items under one name. *)
Definition manifest_with_duplicate : Registry :=
  {| reg_schema := REGISTRY_SCHEMA;
     reg_name := None;
     reg_homepage := None;
     reg_items := listed [stale_button; fresh_button (js "button")] |}.

(** The numbers of [added], [updated] and [skipped] lines of a log. *)
Definition logged_added (tr : list event) : nat :=
  length (filter (fun e => match e with LogAdded _ => true | _ => false end)
            tr).
Definition logged_updated (tr : list event) : nat :=
  length (filter (fun e => match e with LogUpdated _ => true | _ => false end)
            tr).
Definition logged_skipped (tr : list event) : nat :=
  length (filter (fun e => match e with LogSkipped _ => true | _ => false end)
            tr).

(** The diagnostic [loadExistingRegistry] gives. *)
Definition registry_warning (w : World) : list event :=
  match registry_json w with
  | Unreadable | Malformed => [WarnRegistryUnparseable]
  | Missing | Parsed _ => []
  end.

(** The diagnostic [loadPackageJson] gives. *)
Definition package_warning (w : World) : list event :=
  match package_json w with
  | Missing => [WarnNoPackageJson]
  | _ => []
  end.

(** The diagnostics of a run before it enters its loops. *)
Definition preamble (w : World) : list event :=
  map WarnTargetNotFound (filter (unmatched w) (positional w))
  ++ package_warning w ++ registry_warning w.

(** The package table of a run: without [package.json], that of
    [{ dependencies: {} }]. *)
Definition package_table (w : World) : JsMap.t jsstring :=
  match package_json w with
  | Parsed (Some pkg) => buildPackageMap pkg
  | _ =>
      buildPackageMap {| pkg_dependencies := None; pkg_devDependencies := None;
                         pkg_peerDependencies := None |}
  end.

(** [registry/components/button] and [registry/components/card]. *)
Definition tree_two_entities : node :=
  Dir [ (js "components",
         Dir [ (js "button", Dir [ (js "button.tsx", button_file) ]);
               (js "card", card_dir) ]) ].

(** The command line [node generate-registry.ts card] over a manifest
    that lists [button]. *)
Definition world_card_target : World :=
  a_world [js "card"] (Some tree_two_entities)
    (Parsed (Some persisted_manifest)).

(** The command line [node generate-registry.ts card] over a manifest
    that lists two items named [button]. *)
Definition world_duplicate_card_target : World :=
  a_world [js "card"] (Some tree_two_entities)
    (Parsed (Some manifest_with_duplicate)).

(** What the item map of a run holds, relative to the persisted index:
    the persisted entries in their order, each as it was or replaced by
    an item produced for the directory of that name, and after them
    entries of produced items. *)
Definition merged {runtime : Runtime} (existingItemMap m : ItemMap) : Prop :=
  exists head fresh,
    m = head ++ fresh
    /\ Forall2
         (fun old new =>
            fst new = fst old
            /\ (snd new = snd old
                \/ (produced (snd new)
                    /\ item_name (snd new) = toKebabCase (fst old))))
         existingItemMap head
    /\ Forall (fun new => produced (snd new)
                          /\ item_name (snd new) = toKebabCase (fst new))
         fresh.

(** A run without [package.json]. *)
Definition world_no_package_json : World :=
  {| argv := command_line [];
     cwd := js "/repo";
     registry_root := Some tree_button;
     package_json := Missing;
     registry_json := Missing;
     output_writable := true |}.

(** The world [w] without its [registry.json]. *)
Definition without_manifest (w : World) : World :=
  {| argv := argv w;
     cwd := cwd w;
     registry_root := registry_root w;
     package_json := package_json w;
     registry_json := Missing;
     output_writable := output_writable w |}.

(** A run over a [registry.json] that does not parse. *)
Definition world_malformed_manifest : World :=
  a_world [] (Some tree_button) Malformed.

(** Two computations that, from logs of the same writes, end the same
    way with logs of the same writes. *)
Definition similar {A : Type} (m1 m2 : M A) : Prop :=
  forall tr1 tr2,
    writes tr1 = writes tr2 ->
    fst (m1 tr1) = fst (m2 tr2)
    /\ writes (snd (m1 tr1)) = writes (snd (m2 tr2)).

(** The item map after a sequence of [updatedItemMap.set(name, item)]. *)
Definition assign (m : ItemMap) (assignments : list (jsstring * RegistryItem))
  : ItemMap :=
  fold_left (fun m kv => JsMap.set m (fst kv) (snd kv)) assignments m.

(** A computation whose result and output do not depend on the log it
    starts from. *)
Definition uniform {A : Type} (m : M A) : Prop :=
  exists r out, forall tr, m tr = (r, tr ++ out).

(** The world [w] with [registry] as its [registry.json]. *)
Definition with_manifest (w : World) (registry : Registry) : World :=
  {| argv := argv w;
     cwd := cwd w;
     registry_root := registry_root w;
     package_json := package_json w;
     registry_json := Parsed (Some registry);
     output_writable := output_writable w |}.

(** Every entity directory has a name that kebab-casing leaves as it
    is. *)
Definition kebab_stable_entities {runtime : Runtime} (w : World) : Prop :=
  forall root rootEntries categoryName categoryDir entries name dir,
    registry_root w = Some root ->
    readdirSync (REGISTRY_DIR w) root = Done rootEntries ->
    entry (subdirectories rootEntries) categoryName = Some categoryDir ->
    readdirSync (path_join (REGISTRY_DIR w) categoryName) categoryDir
    = Done entries ->
    In (name, dir) (subdirectories entries) ->
    toKebabCase name = name.

(** What a step of a loop does to the item map, whatever the map and
    the log it starts from: it fails, or it makes the assignments
    [assignments]. *)
Definition assigns {X : Type}
  (step : ItemMap -> Summary * ItemMap -> X -> M (Summary * ItemMap))
  (x : X) (outcome : option (list (jsstring * RegistryItem))) : Prop :=
  match outcome with
  | Some assignments =>
      forall existingItemMap st tr,
        exists summary tr',
          step existingItemMap st x tr
          = (Ok (summary, assign (snd st) assignments), tr')
  | None =>
      forall existingItemMap st tr st',
        fst (step existingItemMap st x tr) <> Ok st'
  end.

(** A step of a loop that ran once ([step ... = (Ok st', tr')]) only
    added names to the item map, and runs again without touching the
    item map when the persisted index holds every name the first run
    ended with. *)
Definition replays {X : Type}
  (step : ItemMap -> Summary * ItemMap -> X -> M (Summary * ItemMap))
  (x : X) : Prop :=
  forall existingItemMap st tr st' tr',
    step existingItemMap st x tr = (Ok st', tr') ->
    (forall k, JsMap.has (snd st) k = true -> JsMap.has (snd st') k = true)
    /\ forall existingItemMap2 st2 tr2,
         (forall k, JsMap.has existingItemMap k = true ->
                    JsMap.has existingItemMap2 k = true) ->
         (forall k, JsMap.has (snd st') k = true ->
                    JsMap.has existingItemMap2 k = true) ->
         exists summary tr2',
           step existingItemMap2 st2 x tr2 = (Ok (summary, snd st2), tr2').


(* ================================================================== *)
(** * Properties                                                       *)
(* ================================================================== *)

Unset Implicit Arguments.

(* ------------------------------------------------------------------ *)
(** ** Strings, sets and maps                                          *)
(* ------------------------------------------------------------------ *)

Lemma eqb_eq (a b : jsstring) : Js.eqb a b = true <-> a = b.
Proof.
  revert b; induction a as [|x a IH]; intros [|y b]; simpl;
    try (split; [discriminate | discriminate]); try tauto.
  rewrite andb_true_iff, N.eqb_eq, IH.
  split; [intros [-> ->]; reflexivity | intros H; inversion H; auto].
Qed.

Lemma eqb_refl (a : jsstring) : Js.eqb a a = true.
Proof. apply eqb_eq; reflexivity. Qed.

Lemma eqb_neq (a b : jsstring) : Js.eqb a b = false <-> a <> b.
Proof.
  rewrite <- eqb_eq. destruct (Js.eqb a b); split; congruence.
Qed.

Lemma startsWith_app (s p : jsstring) :
  Js.startsWith s p = true <-> exists r, s = p ++ r.
Proof.
  revert s; induction p as [|y p IH]; intros s; simpl.
  - split; [intros _; exists s; reflexivity | reflexivity].
  - destruct s as [|x s].
    + split; [discriminate | intros [r H]; discriminate].
    + rewrite andb_true_iff, N.eqb_eq, IH. split.
      * intros [-> [r ->]]; exists r; reflexivity.
      * intros [r H]; inversion H; subst; split; [reflexivity|exists r; reflexivity].
Qed.

Lemma slice_app (p r : jsstring) : Js.slice (p ++ r) (length p) = r.
Proof.
  unfold Js.slice. induction p; simpl; auto.
Qed.

(** *** Sets *)

Lemma set_has_In (s : JsSet.t) (x : jsstring) :
  JsSet.has s x = true <-> In x s.
Proof.
  unfold JsSet.has. rewrite existsb_exists. split.
  - intros [y [Hy E]]. apply eqb_eq in E; subst; assumption.
  - intros H; exists x; split; [assumption | apply eqb_refl].
Qed.

Lemma set_add_In (s : JsSet.t) (x y : jsstring) :
  In y (JsSet.add s x) <-> In y s \/ y = x.
Proof.
  unfold JsSet.add. destruct (JsSet.has s x) eqn:E.
  - apply set_has_In in E. split; [auto | intros [H | ->]; assumption].
  - rewrite in_app_iff; simpl. intuition congruence.
Qed.

Lemma set_add_NoDup (s : JsSet.t) (x : jsstring) :
  NoDup s -> NoDup (JsSet.add s x).
Proof.
  intros H. unfold JsSet.add. destruct (JsSet.has s x) eqn:E; [assumption|].
  assert (~ In x s) by (rewrite <- set_has_In; congruence).
  apply NoDup_app; auto.
  - constructor; [intros [] | constructor].
  - intros a Ha [<- | []]; contradiction.
Qed.

Lemma set_add_all_NoDup (other s : JsSet.t) :
  NoDup s -> NoDup (JsSet.add_all s other).
Proof.
  unfold JsSet.add_all. revert s; induction other as [|x other IH];
    intros s H; simpl; [assumption|].
  apply IH, set_add_NoDup, H.
Qed.

Lemma set_delete_In (s : JsSet.t) (x y : jsstring) :
  In y (JsSet.delete s x) <-> In y s /\ y <> x.
Proof.
  unfold JsSet.delete. rewrite filter_In, negb_true_iff, eqb_neq.
  intuition congruence.
Qed.

Lemma set_delete_NoDup (s : JsSet.t) (x : jsstring) :
  NoDup s -> NoDup (JsSet.delete s x).
Proof. intros H. apply NoDup_filter, H. Qed.

Lemma set_delete_idempotent (s : JsSet.t) (x : jsstring) :
  JsSet.delete (JsSet.delete s x) x = JsSet.delete s x.
Proof.
  unfold JsSet.delete. induction s as [|y s IH]; simpl; [reflexivity|].
  destruct (negb (Js.eqb x y)) eqn:E; simpl; rewrite ?E, IH; reflexivity.
Qed.

(** *** Maps *)

Section MapFacts.
Variable V : Type.
Implicit Types (m : JsMap.t V) (k : jsstring) (v : V).

Lemma map_get_set_same m k v : JsMap.get (JsMap.set m k v) k = Some v.
Proof.
  induction m as [|[k' v'] m IH]; simpl.
  - rewrite eqb_refl; reflexivity.
  - destruct (Js.eqb k k') eqn:E; simpl; rewrite E; auto.
Qed.

Lemma map_get_set_other m k k' v :
  k <> k' -> JsMap.get (JsMap.set m k v) k' = JsMap.get m k'.
Proof.
  intros Hne. induction m as [|[k0 v0] m IH]; simpl.
  - destruct (Js.eqb k' k) eqn:E; [apply eqb_eq in E; congruence | reflexivity].
  - destruct (Js.eqb k k0) eqn:E; simpl.
    + apply eqb_eq in E; subst k0.
      destruct (Js.eqb k' k) eqn:E'; [|reflexivity].
      apply eqb_eq in E'; congruence.
    + rewrite IH; reflexivity.
Qed.

Lemma map_has_In m k : JsMap.has m k = true <-> In k (JsMap.keys m).
Proof.
  unfold JsMap.has. induction m as [|[k' v'] m IH]; simpl.
  - split; [discriminate | intros []].
  - destruct (Js.eqb k k') eqn:E.
    + apply eqb_eq in E; subst; split; auto.
    + rewrite IH. apply eqb_neq in E. intuition congruence.
Qed.

Lemma map_get_In m k v : JsMap.get m k = Some v -> In v (JsMap.values m).
Proof.
  induction m as [|[k' v'] m IH]; simpl; [discriminate|].
  destruct (Js.eqb k k'); [intros [= ->]; auto | auto].
Qed.

(** On a key the first part does not hold, [set] works on the rest. *)
Lemma map_set_app m1 m2 k v :
  JsMap.has m1 k = false ->
  JsMap.set (m1 ++ m2) k v = m1 ++ JsMap.set m2 k v.
Proof.
  unfold JsMap.has. induction m1 as [|[k' v'] m1 IH]; simpl; [reflexivity|].
  destruct (Js.eqb k k'); [discriminate|].
  intros H; rewrite IH by assumption; reflexivity.
Qed.

End MapFacts.

(** *** The order on strings and the sort *)

Lemma ltb_irrefl (a : jsstring) : Js.ltb a a = false.
Proof.
  induction a as [|x a IH]; simpl; [reflexivity|].
  rewrite N.ltb_irrefl, N.eqb_refl; assumption.
Qed.

Lemma ltb_trans (a b c : jsstring) :
  Js.ltb a b = true -> Js.ltb b c = true -> Js.ltb a c = true.
Proof.
  revert b c; induction a as [|x a IH]; intros [|y b] [|z c]; simpl;
    try discriminate; try reflexivity.
  intros H1 H2. destruct (N.ltb x y) eqn:Exy.
  - destruct (N.ltb y z) eqn:Eyz.
    + apply N.ltb_lt in Exy, Eyz.
      assert (Hxz : (x <? z)%N = true) by (apply N.ltb_lt; lia).
      rewrite Hxz; reflexivity.
    + destruct (N.eqb y z) eqn:Q; [|discriminate].
      apply N.eqb_eq in Q; subst. rewrite Exy; reflexivity.
  - destruct (N.eqb x y) eqn:Q; [|discriminate].
    apply N.eqb_eq in Q; subst y.
    destruct (N.ltb x z); [reflexivity|].
    destruct (N.eqb x z); [|discriminate].
    eapply IH; eassumption.
Qed.

Lemma ltb_total (a b : jsstring) :
  Js.ltb a b = false -> Js.ltb b a = false -> a = b.
Proof.
  revert b; induction a as [|x a IH]; intros [|y b]; simpl;
    try discriminate; try reflexivity.
  destruct (N.ltb x y) eqn:Exy; [discriminate|].
  destruct (N.ltb y x) eqn:Eyx; [discriminate|].
  apply N.ltb_ge in Exy, Eyx.
  assert (x = y) by lia; subst.
  rewrite N.eqb_refl. intros H1 H2; f_equal; auto.
Qed.

Lemma sort_insert_perm (x : jsstring) (l : list jsstring) :
  Permutation (sort_insert x l) (x :: l).
Proof.
  induction l as [|y l IH]; simpl; [reflexivity|].
  destruct (Js.ltb y x); [|reflexivity].
  rewrite IH. apply perm_swap.
Qed.

Lemma js_sort_perm (l : list jsstring) : Permutation (js_sort l) l.
Proof.
  induction l as [|x l IH]; simpl; [reflexivity|].
  rewrite sort_insert_perm. constructor; assumption.
Qed.

Lemma sort_insert_strict (x : jsstring) (l : list jsstring) :
  ~ In x l -> StronglySorted str_lt l ->
  StronglySorted str_lt (sort_insert x l).
Proof.
  intros Hnin Hs. induction Hs as [|y l Hs IH Hall]; simpl.
  - constructor; constructor.
  - destruct (Js.ltb y x) eqn:E.
    + constructor.
      * apply IH. intros H; apply Hnin; right; assumption.
      * rewrite Forall_forall in *. intros z Hz.
        apply (Permutation_in _ (sort_insert_perm x l)) in Hz.
        destruct Hz as [<- | Hz]; [exact E | apply Hall, Hz].
    + assert (Hxy : str_lt x y).
      { unfold str_lt. destruct (Js.ltb x y) eqn:E'; [reflexivity|].
        exfalso; apply Hnin; left. apply ltb_total; assumption. }
      constructor; [constructor; assumption|].
      constructor; [assumption|].
      rewrite Forall_forall in *. intros z Hz.
      eapply ltb_trans; [exact Hxy | apply Hall, Hz].
Qed.

Lemma js_sort_strict (l : list jsstring) :
  NoDup l -> StronglySorted str_lt (js_sort l).
Proof.
  induction 1 as [|x l Hnin Hnd IH]; simpl; [constructor|].
  apply sort_insert_strict; [|assumption].
  intros H; apply Hnin. eapply Permutation_in; [apply js_sort_perm | exact H].
Qed.

Lemma strict_NoDup (l : list jsstring) :
  StronglySorted str_lt l -> NoDup l.
Proof.
  induction 1 as [|x l Hs IH Hall]; constructor; [|assumption].
  intros Hin. rewrite Forall_forall in Hall. specialize (Hall x Hin).
  unfold str_lt in Hall. rewrite ltb_irrefl in Hall; discriminate.
Qed.

(* ------------------------------------------------------------------ *)
(** ** The matcher                                                     *)
(* ------------------------------------------------------------------ *)

(** Whatever the matcher answers comes from a state the pattern
    reaches. *)
Lemma run_sound (A : Type) (r : Re.regex) :
  forall (st : Re.mstate) (k : Re.mstate -> option A) (a : A),
    Re.run r st k = Some a ->
    exists st', Re.matches r st st' /\ k st' = Some a.
Proof.
  induction r as [|p|r1 IH1 r2 IH2|r1 IH1 r2 IH2|g r IH|r IH| |];
    intros st k a H; simpl in H.
  - exists st; split; [constructor | assumption].
  - destruct (Re.rest st) as [|c s'] eqn:E; [discriminate|].
    destruct (p c) eqn:Ep; [|discriminate].
    exists (Re.advance st s'); split; [econstructor; eassumption | assumption].
  - apply IH1 in H as [st1 [M1 H]]. apply IH2 in H as [st2 [M2 H]].
    exists st2; split; [econstructor; eassumption | assumption].
  - destruct (Re.run r1 st k) as [a'|] eqn:E.
    + injection H as ->. apply IH1 in E as [st' [M E]].
      exists st'; split; [apply Re.M_alt_l; assumption | assumption].
    + apply IH2 in H as [st' [M H]].
      exists st'; split; [apply Re.M_alt_r; assumption | assumption].
  - remember (length (Re.rest st)) as n eqn:Hn. clear Hn.
    revert st H. induction n as [|n IHn]; intros st H.
    + exists st; split; [constructor | assumption].
    + simpl in H. destruct g.
      * destruct (Re.run r st _) as [a'|] eqn:E in H.
        -- injection H as ->. apply IH in E as [st1 [M1 E]].
           destruct (Re.progress st st1) eqn:P; [|discriminate].
           apply IHn in E as [st2 [M2 E]].
           exists st2; split; [eapply Re.M_star_step; eassumption | assumption].
        -- exists st; split; [constructor | assumption].
      * destruct (k st) as [a'|] eqn:Ek.
        -- injection H as ->. exists st; split; [constructor | assumption].
        -- apply IH in H as [st1 [M1 E]].
           destruct (Re.progress st st1) eqn:P; [|discriminate].
           apply IHn in E as [st2 [M2 E]].
           exists st2; split; [eapply Re.M_star_step; eassumption | assumption].
  - apply IH in H as [st' [M H]].
    exists (Re.capture st st'); split; [constructor; assumption | assumption].
  - destruct (Re.pos st =? 0) eqn:E; [|discriminate].
    apply Nat.eqb_eq in E.
    exists st; split; [constructor; assumption | assumption].
  - destruct (Re.rest st) eqn:E; [|discriminate].
    exists st; split; [constructor; assumption | assumption].
Qed.

Lemma matches_chr (p : N -> bool) (st st' : Re.mstate) :
  Re.matches (Re.Chr p) st st' ->
  exists c, Re.rest st = c :: Re.rest st' /\ p c = true
            /\ Re.cap st' = Re.cap st.
Proof.
  inversion 1; subst. exists c; simpl; auto.
Qed.

Lemma matches_str (s : jsstring) :
  forall st st', Re.matches (Re.str s) st st' ->
    Re.rest st = s ++ Re.rest st' /\ Re.cap st' = Re.cap st.
Proof.
  unfold Re.str.
  induction s as [|c s IH]; intros st st' H.
  - inversion H; subst; auto.
  - destruct s as [|c' s].
    + simpl in H. apply matches_chr in H as [c0 [E [Hc Hcap]]].
      apply N.eqb_eq in Hc; subst c0. auto.
    + change (Re.seq (map Re.chr (c :: c' :: s)))
        with (Re.Cat (Re.chr c) (Re.seq (map Re.chr (c' :: s)))) in H.
      inversion H as [| |? ? ? st1 ? H1 H2| | | | | | |]; subst.
      apply matches_chr in H1 as [c0 [E [Hc Hcap]]].
      apply N.eqb_eq in Hc; subst c0.
      apply IH in H2 as [E2 Hcap2].
      rewrite E, E2, Hcap2, Hcap. auto.
Qed.

Lemma matches_star_chr (g : bool) (p : N -> bool) (st st' : Re.mstate) :
  Re.matches (Re.Star g (Re.Chr p)) st st' ->
  exists u, Re.rest st = u ++ Re.rest st' /\ forallb p u = true
            /\ Re.cap st' = Re.cap st.
Proof.
  remember (Re.Star g (Re.Chr p)) as r eqn:Hr.
  induction 1 as [| | | | |g' r' st|g' r' st st1 st2 H1 _ _ _ IH2| | |];
    try discriminate; injection Hr as -> ->.
  - exists []; auto.
  - apply matches_chr in H1 as [c [E [Hc Hcap]]].
    destruct (IH2 eq_refl) as [u [E2 [Hu Hcap2]]].
    exists (c :: u); simpl. rewrite E, E2, Hc, Hu, Hcap2, Hcap. auto.
Qed.

(** What a match of [/^<prefix>(.+)$/] looks like. *)
Lemma matches_ui_pattern (prefix : jsstring) (st st' : Re.mstate) :
  Re.matches (ui_pattern prefix) st st' ->
  Re.pos st = 0 /\
  exists name,
    Re.rest st = prefix ++ name /\ name <> []
    /\ forallb (fun c => negb (Re.line_terminator c)) name = true
    /\ Re.cap st' = Some name.
Proof.
  unfold ui_pattern. cbn [Re.seq]. intros H.
  inversion H as [| |? ? ? st1 ? Hbol H1| | | | | | |]; subst; clear H.
  inversion Hbol; subst; clear Hbol.
  inversion H1 as [| |? ? ? st2 ? Hstr H2| | | | | | |]; subst; clear H1.
  inversion H2 as [| |? ? ? st3 ? Hgrp Heol| | | | | | |]; subst; clear H2.
  inversion Heol; subst; clear Heol.
  inversion Hgrp as [| | | | | | |? ? st4 Hplus| |]; subst; clear Hgrp.
  unfold Re.plus, Re.any in Hplus.
  inversion Hplus as [| |? ? ? st5 ? Hone Hmore| | | | | | |]; subst; clear Hplus.
  apply matches_str in Hstr as [Es _].
  apply matches_chr in Hone as [c [E1 [Hc _]]].
  apply matches_star_chr in Hmore as [u [E2 [Hu _]]].
  simpl in *. split; [assumption|].
  rewrite H0, app_nil_r in E2.
  exists (c :: u). rewrite Es, E1, E2, H0. simpl.
  repeat split.
  - discriminate.
  - rewrite Hc, Hu; reflexivity.
  - rewrite firstn_all. reflexivity.
Qed.

Lemma search_sound (r : Re.regex) :
  forall s i st, Re.search r i s = Some st ->
    exists j, Re.match_at r (i + j) (skipn j s) = Some st.
Proof.
  induction s as [|c s IH]; intros i st H; simpl in H.
  - destruct (Re.match_at r i []) eqn:E; [|discriminate].
    exists 0. rewrite Nat.add_0_r. simpl. congruence.
  - destruct (Re.match_at r i (c :: s)) eqn:E.
    + exists 0. rewrite Nat.add_0_r. simpl. congruence.
    + apply IH in H as [j H]. exists (S j).
      simpl. rewrite Nat.add_succ_r. assumption.
Qed.

(** A path matches [/^<prefix>(.+)$/] only as the prefix followed by a
    non-empty name without line terminator, which is then group 1. *)
Lemma exec_ui_pattern (prefix path : jsstring) (m1 : option jsstring) :
  Re.exec (ui_pattern prefix) path = Some m1 ->
  exists name,
    m1 = Some name /\ path = prefix ++ name /\ name <> []
    /\ forallb (fun c => negb (Re.line_terminator c)) name = true.
Proof.
  unfold Re.exec. intros H.
  destruct (Re.search (ui_pattern prefix) 0 path) as [st|] eqn:E;
    [|discriminate].
  injection H as <-.
  apply search_sound in E as [j E]. unfold Re.match_at in E.
  apply run_sound in E as [st' [M E]]. injection E as ->.
  apply matches_ui_pattern in M as [Hpos [name [Hrest [Hne [Hall Hcap]]]]].
  simpl in *. subst j. simpl in Hrest.
  exists name; auto.
Qed.

(* ------------------------------------------------------------------ *)
(** ** Classification of one import                                    *)
(* ------------------------------------------------------------------ *)

Lemma test_exec (r : Re.regex) (s : jsstring) :
  Re.test r s = true <-> exists m1, Re.exec r s = Some m1.
Proof.
  unfold Re.test. destruct (Re.exec r s) as [m1|].
  - split; [intros _; exists m1; reflexivity | reflexivity].
  - split; [discriminate | intros [m1 H]; discriminate].
Qed.

(** The loop over the patterns returns group 1 of the first pattern
    that matches. *)
Lemma first_component_find (patterns : list Re.regex) (importPath : jsstring)
  (pattern : Re.regex) :
  find (fun p => Re.test p importPath) patterns = Some pattern ->
  exists m1, Re.exec pattern importPath = Some m1
             /\ first_component patterns importPath = m1.
Proof.
  induction patterns as [|p ps IH]; simpl; [discriminate|].
  destruct (Re.test p importPath) eqn:E.
  - intros [= <-]. apply test_exec in E as [m1 E].
    exists m1; rewrite E; auto.
  - intros H. unfold Re.test in E.
    destruct (Re.exec p importPath); [discriminate | auto].
Qed.

Lemma ui_patterns_shape (pattern : Re.regex) :
  In pattern SHADCN_UI_PATTERNS -> exists prefix, pattern = ui_pattern prefix.
Proof.
  intros [<- | [<- | [<- | []]]]; eexists; reflexivity.
Qed.

Lemma truthy_nonempty (s : jsstring) : s <> [] -> Js.truthy s = true.
Proof. destruct s; [congruence | reflexivity]. Qed.

(** C3. A path that matches a UI-component pattern is a catalog
    dependency on group 1 of the first pattern that matches, whatever
    the package table and the entity index hold: no other rule of the
    classification is consulted. *)
Theorem ui_component_is_catalog_dependency
  (packageMap registryEntityMap : JsMap.t jsstring)
  (importPath : jsstring) (pattern : Re.regex) :
  find (fun p => Re.test p importPath) SHADCN_UI_PATTERNS = Some pattern ->
  exists name,
    Re.exec pattern importPath = Some (Some name)
    /\ classify packageMap registryEntityMap importPath = Catalog name
    /\ analyzeImports packageMap registryEntityMap [importPath]
       = only_catalog name.
Proof.
  intros Hfind.
  destruct (first_component_find _ _ _ Hfind) as [m1 [Hexec Hfirst]].
  apply find_some in Hfind as [Hin _].
  apply ui_patterns_shape in Hin as [prefix ->].
  destruct (exec_ui_pattern _ _ _ Hexec) as [name [-> [_ [Hne _]]]].
  exists name. split; [assumption|].
  assert (Hc : classify packageMap registryEntityMap importPath = Catalog name).
  { unfold classify, extractShadcnComponent. rewrite Hfirst. simpl.
    rewrite truthy_nonempty by assumption. reflexivity. }
  split; [assumption|].
  unfold analyzeImports. simpl. rewrite Hc. reflexivity.
Qed.

Lemma ui_component_is_catalog_dependency_witness :
  exists name,
    Re.exec (ui_pattern (js "@/components/ui/")) (js "@/components/ui/input")
    = Some (Some name)
    /\ classify [(js "@", js "@@1.0.0")] [(js "components/ui", js "ui")]
         (js "@/components/ui/input") = Catalog name
    /\ analyzeImports [(js "@", js "@@1.0.0")] [(js "components/ui", js "ui")]
         [js "@/components/ui/input"] = only_catalog name.
Proof.
  apply (ui_component_is_catalog_dependency
           [(js "@", js "@@1.0.0")] [(js "components/ui", js "ui")]
           (js "@/components/ui/input") (ui_pattern (js "@/components/ui/"))).
  reflexivity.
Defined.

(** The loop over the aliases stops at the first prefix that matches
    and never looks at the aliases after it. *)
Lemma resolve_in_first_match (aliases : list jsstring)
  (importPath alias : jsstring) (index : JsMap.t jsstring) :
  find (fun a => Js.startsWith importPath a) aliases = Some alias ->
  resolve_in aliases importPath index
  = lookup_entity index (Js.slice importPath (length alias)).
Proof.
  induction aliases as [|a aliases IH]; simpl; [discriminate|].
  destruct (Js.startsWith importPath a); simpl.
  - intros [= <-]; reflexivity.
  - exact IH.
Qed.

Lemma resolve_in_ignores_later (before after after' : list jsstring)
  (importPath alias : jsstring) (index : JsMap.t jsstring) :
  Js.startsWith importPath alias = true ->
  resolve_in (before ++ alias :: after) importPath index
  = resolve_in (before ++ alias :: after') importPath index.
Proof.
  intros H. induction before as [|a before IH]; simpl.
  - rewrite H; reflexivity.
  - destruct (Js.startsWith importPath a); simpl; [reflexivity | exact IH].
Qed.

Lemma resolve_in_no_match (aliases : list jsstring) (importPath : jsstring)
  (index : JsMap.t jsstring) :
  find (fun a => Js.startsWith importPath a) aliases = None ->
  resolve_in aliases importPath index = None.
Proof.
  induction aliases as [|a aliases IH]; simpl; [reflexivity|].
  destruct (Js.startsWith importPath a); simpl; [discriminate | exact IH].
Qed.

(** The lookup of the code is the lookup of the specification. *)
Lemma lookup_entity_spec (index : JsMap.t jsstring) (remainder : jsstring) :
  lookup_entity index remainder = alias_lookup_spec index remainder.
Proof.
  unfold lookup_entity, alias_lookup_spec, JsMap.has.
  destruct (JsMap.get index remainder) as [v|]; [reflexivity|].
  destruct (Js.split remainder Js.slash) as [|first [|second parts]];
    simpl; try reflexivity.
  match goal with
  | |- context [JsMap.get index ?key] => destruct (JsMap.get index key)
  end; reflexivity.
Qed.

Lemma alias_is_local (importPath alias : jsstring) :
  first_alias importPath = Some alias -> isLocalImport importPath = true.
Proof.
  unfold first_alias, isLocalImport. intros H.
  apply find_some in H as [Hin Hs].
  destruct (Js.startsWith importPath (js ".")); [reflexivity|].
  apply existsb_exists. exists alias; auto.
Qed.

(** No configured alias starts with a dot. *)
Lemma alias_not_relative (importPath alias : jsstring) :
  first_alias importPath = Some alias ->
  Js.startsWith importPath (js ".") = false.
Proof.
  unfold first_alias. intros H. apply find_some in H as [Hin Hs].
  apply startsWith_app in Hs as [r ->].
  destruct Hin as [<- | [<- | [<- | []]]]; reflexivity.
Qed.

(** C2. For a path that starts with an alias prefix and matches no
    UI-component pattern, the first configured prefix that matches is
    stripped and the remainder is looked up exactly, then by its first
    two segments.  The name a lookup finds is recorded as a catalog
    dependency, and as nothing else; when both lookups miss (or the
    name found is the empty string) nothing at all is recorded. *)
Theorem alias_import_resolution
  (packageMap index : JsMap.t jsstring) (importPath alias : jsstring) :
  extractShadcnComponent importPath = None ->
  first_alias importPath = Some alias ->
  let remainder := Js.slice importPath (length alias) in
  importPath = alias ++ remainder
  /\ resolveRegistryDep importPath index = alias_lookup_spec index remainder
  /\ classify packageMap index importPath
     = match alias_lookup_spec index remainder with
       | Some name => if Js.truthy name then Catalog name else Ignored
       | None => Ignored
       end
  /\ analyzeImports packageMap index [importPath]
     = match alias_lookup_spec index remainder with
       | Some name => if Js.truthy name then only_catalog name else no_deps
       | None => no_deps
       end
  /\ (alias_lookup_spec index remainder = None ->
      classify packageMap index importPath = Ignored
      /\ analyzeImports packageMap index [importPath] = no_deps).
Proof.
  intros Hui Halias remainder.
  assert (Hres : resolveRegistryDep importPath index
                 = alias_lookup_spec index remainder).
  { unfold resolveRegistryDep.
    rewrite (resolve_in_first_match _ _ _ index Halias).
    apply lookup_entity_spec. }
  assert (Hc : classify packageMap index importPath
               = match alias_lookup_spec index remainder with
                 | Some name => if Js.truthy name then Catalog name else Ignored
                 | None => Ignored
                 end).
  { unfold classify. rewrite Hui, Hres.
    rewrite (alias_not_relative _ _ Halias), (alias_is_local _ _ Halias).
    destruct (alias_lookup_spec index remainder) as [name|];
      cbn [truthy_or_null negb]; [|reflexivity].
    destruct (Js.truthy name); reflexivity. }
  assert (Ha : analyzeImports packageMap index [importPath]
               = match alias_lookup_spec index remainder with
                 | Some name =>
                     if Js.truthy name then only_catalog name else no_deps
                 | None => no_deps
                 end).
  { unfold analyzeImports. simpl. rewrite Hc.
    destruct (alias_lookup_spec index remainder) as [name|]; [|reflexivity].
    destruct (Js.truthy name); reflexivity. }
  split.
  { unfold first_alias in Halias. apply find_some in Halias as [_ Hs].
    apply startsWith_app in Hs as [r ->].
    unfold remainder. rewrite slice_app. reflexivity. }
  split; [exact Hres|]. split; [exact Hc|]. split; [exact Ha|].
  intros Hmiss. rewrite Hc, Ha, Hmiss. split; reflexivity.
Qed.

(** An import that the second lookup resolves, by its first two
    segments, and one that both lookups miss. *)
Lemma alias_import_resolution_witness :
  (js "@/lib/utils/utils" = js "@/" ++ js "lib/utils/utils"
   /\ resolveRegistryDep (js "@/lib/utils/utils")
        [(js "lib/utils", js "utils")]
      = Some (js "utils")
   /\ classify [(js "@", js "@@1.0.0")] [(js "lib/utils", js "utils")]
        (js "@/lib/utils/utils") = Catalog (js "utils")
   /\ analyzeImports [(js "@", js "@@1.0.0")] [(js "lib/utils", js "utils")]
        [js "@/lib/utils/utils"] = only_catalog (js "utils"))
  /\ (js "@/lib/missing/file" = js "@/" ++ js "lib/missing/file"
      /\ resolveRegistryDep (js "@/lib/missing/file")
           [(js "lib/utils", js "utils")]
         = None
      /\ classify [(js "@", js "@@1.0.0")] [(js "lib/utils", js "utils")]
           (js "@/lib/missing/file") = Ignored
      /\ analyzeImports [(js "@", js "@@1.0.0")]
           [(js "lib/utils", js "utils")] [js "@/lib/missing/file"]
         = no_deps).
Proof.
  split.
  - destruct (alias_import_resolution
                [(js "@", js "@@1.0.0")] [(js "lib/utils", js "utils")]
                (js "@/lib/utils/utils") (js "@/") eq_refl eq_refl)
      as (Hsplit & Hres & Hc & Ha & _).
    split; [exact Hsplit|]. split; [exact Hres|]. split; [exact Hc|].
    exact Ha.
  - destruct (alias_import_resolution
                [(js "@", js "@@1.0.0")] [(js "lib/utils", js "utils")]
                (js "@/lib/missing/file") (js "@/") eq_refl eq_refl)
      as (Hsplit & Hres & _ & _ & Hmiss).
    split; [exact Hsplit|]. split; [exact Hres|].
    exact (Hmiss eq_refl).
Defined.

(* ------------------------------------------------------------------ *)
(** ** The package table                                               *)
(* ------------------------------------------------------------------ *)

Lemma add_section_get (deps : option (list (jsstring * jsstring)))
  (m : JsMap.t jsstring) (name : jsstring) :
  JsMap.get (add_section m deps) name
  = match section_version (entries_of deps) name with
    | Some v => Some (spec_string name v)
    | None => JsMap.get m name
    end.
Proof.
  unfold add_section. generalize (entries_of deps) as entries.
  intros entries; revert m.
  induction entries as [|[n v] entries IH]; intros m; simpl; [reflexivity|].
  rewrite IH.
  destruct (section_version entries name) as [v'|]; [reflexivity|].
  destruct (Js.eqb name n) eqn:E.
  - apply eqb_eq in E; subst n. apply map_get_set_same.
  - apply map_get_set_other. apply eqb_neq in E; congruence.
Qed.

Lemma buildPackageMap_get (pkg : PackageJson) (name : jsstring) :
  JsMap.get (buildPackageMap pkg) name
  = option_map (spec_string name) (version_by_precedence pkg name).
Proof.
  unfold buildPackageMap, version_by_precedence. simpl.
  rewrite !add_section_get.
  destruct (section_version (entries_of (pkg_peerDependencies pkg)) name);
    [reflexivity|].
  destruct (section_version (entries_of (pkg_devDependencies pkg)) name);
    [reflexivity|].
  destruct (section_version (entries_of (pkg_dependencies pkg)) name);
    reflexivity.
Qed.

(** A package dependency is the entry of the table under the package
    name of the path. *)
Lemma classify_package (packageMap index : JsMap.t jsstring)
  (importPath spec : jsstring) :
  classify packageMap index importPath = Package spec ->
  JsMap.get packageMap (toPackageName importPath) = Some spec.
Proof.
  unfold classify.
  destruct (truthy_or_null (extractShadcnComponent importPath));
    [discriminate|].
  destruct (if negb (Js.startsWith importPath (js "."))
            then truthy_or_null (resolveRegistryDep importPath index)
            else None); [discriminate|].
  destruct (isLocalImport importPath); [discriminate|].
  cbv zeta.
  destruct (JsSet.has NODE_BUILTINS (toPackageName importPath));
    [discriminate|].
  destruct (JsMap.has packageMap (toPackageName importPath));
    [|discriminate].
  destruct (JsMap.get packageMap (toPackageName importPath));
    [intros [= ->]; reflexivity | discriminate].
Qed.

(** Every element of the package set of a file comes from the
    classification of one of its imports. *)
Lemma analyzeImports_npm (packageMap index : JsMap.t jsstring)
  (importPaths : list jsstring) (spec : jsstring) :
  In spec (npm (analyzeImports packageMap index importPaths)) ->
  exists importPath,
    In importPath importPaths
    /\ classify packageMap index importPath = Package spec.
Proof.
  unfold analyzeImports.
  assert (H : forall deps,
             In spec (npm (fold_left
                             (fun deps importPath =>
                                record deps
                                  (classify packageMap index importPath))
                             importPaths deps)) ->
             In spec (npm deps)
             \/ exists importPath,
                 In importPath importPaths
                 /\ classify packageMap index importPath = Package spec).
  { induction importPaths as [|p ps IH]; intros deps; simpl; [auto|].
    intros Hin. apply IH in Hin as [Hin | [q [Hq Hc]]].
    - destruct (classify packageMap index p) as [n|s|u|] eqn:E;
        simpl in Hin; auto.
      apply set_add_In in Hin as [Hin | ->]; [auto|].
      right; exists p; auto.
    - right; exists q; auto. }
  intros Hin. apply H in Hin as [[] | Hin]. exact Hin.
Qed.

(** C10. The package table gives a package the version of the section
    scanned last among those that list it ([peerDependencies] over
    [devDependencies] over [dependencies]), and every package
    dependency of a file is the entry of the table for its package. *)
Theorem package_table_precedence (pkg : PackageJson) :
  (forall name,
      JsMap.get (buildPackageMap pkg) name
      = option_map (spec_string name) (version_by_precedence pkg name))
  /\ (forall index importPaths spec,
        In spec (npm (analyzeImports (buildPackageMap pkg) index importPaths)) ->
        exists importPath,
          In importPath importPaths
          /\ classify (buildPackageMap pkg) index importPath = Package spec
          /\ option_map (spec_string (toPackageName importPath))
               (version_by_precedence pkg (toPackageName importPath))
             = Some spec).
Proof.
  split; [apply buildPackageMap_get|].
  intros index importPaths spec Hin.
  apply analyzeImports_npm in Hin as [importPath [Hin Hc]].
  exists importPath. repeat split; try assumption.
  rewrite <- buildPackageMap_get. eapply classify_package; eassumption.
Qed.

Lemma package_table_precedence_witness :
  JsMap.get (buildPackageMap pkg_three_sections) (js "react")
  = Some (js "react@19.0.0")
  /\ exists importPath,
      In importPath [js "react/jsx-runtime"]
      /\ classify (buildPackageMap pkg_three_sections) []
           importPath = Package (js "react@19.0.0")
      /\ option_map (spec_string (toPackageName importPath))
           (version_by_precedence pkg_three_sections
              (toPackageName importPath))
         = Some (js "react@19.0.0").
Proof.
  destruct (package_table_precedence pkg_three_sections) as [Htable Hdeps].
  split.
  - rewrite Htable. reflexivity.
  - apply (Hdeps [] [js "react/jsx-runtime"] (js "react@19.0.0")).
    vm_compute. left; reflexivity.
Defined.

(* ------------------------------------------------------------------ *)
(** ** Computations                                                    *)
(* ------------------------------------------------------------------ *)

(** Splits the first [bind] of a hypothesis on a computation. *)
Ltac split_bind H :=
  unfold bind in H;
  match type of H with
  | context [match ?m ?tr with _ => _ end] =>
      let E := fresh "E" in
      destruct (m tr) as [[?|?|?] ?] eqn:E; try discriminate
  end.

Lemma for_each_invariant {A S : Type} (P : S -> Prop)
  (body : S -> A -> M S) (xs : list A) :
  (forall acc x tr acc' tr',
      In x xs -> P acc -> body acc x tr = (Ok acc', tr') -> P acc') ->
  forall acc tr acc' tr',
    P acc -> for_each xs body acc tr = (Ok acc', tr') -> P acc'.
Proof.
  induction xs as [|x xs IH]; intros Hbody acc tr acc' tr' HP H; simpl in H.
  - injection H as <- _; assumption.
  - split_bind H.
    eapply IH; [| |exact H].
    + intros; eapply Hbody; eauto; right; assumption.
    + eapply Hbody; [left; reflexivity | exact HP | exact E].
Qed.

(* ------------------------------------------------------------------ *)
(** ** One entity                                                      *)
(* ------------------------------------------------------------------ *)

Section Entity.
Context {runtime : Runtime}.

Lemma merge_NoDup (all d : FileDeps) :
  NoDup (npm all) /\ NoDup (registry all) ->
  NoDup (npm (merge all d)) /\ NoDup (registry (merge all d)).
Proof.
  intros [H1 H2]; simpl; split; apply set_add_all_NoDup; assumption.
Qed.

Lemma visit_file_NoDup (categoryName entityName : jsstring)
  (category : Category) (packageMap index : JsMap.t jsstring)
  (acc acc' : FileDeps * list RegistryFile) (f : jsstring * node)
  (tr tr' : list event) :
  NoDup (npm (fst acc)) /\ NoDup (registry (fst acc)) ->
  visit_file categoryName entityName category packageMap index acc f tr
  = (Ok acc', tr') ->
  NoDup (npm (fst acc')) /\ NoDup (registry (fst acc')).
Proof.
  intros HP H. unfold visit_file in H. split_bind H.
  unfold ret in H. injection H as <- _. cbn [fst].
  destruct (negb (Js.endsWith (fst f) (js ".css")));
    [apply merge_NoDup|]; assumption.
Qed.

(** An item comes out of [processEntity] as [build_item] of the sets
    gathered over the files, which hold no element twice. *)
Lemma processEntity_item (categoryName entityName entityDir : jsstring)
  (dir : node) (category : Category) (packageMap index : JsMap.t jsstring)
  (tr tr' : list event) (item : RegistryItem) :
  processEntity categoryName entityName entityDir dir category packageMap
    index tr = (Ok (Some item), tr') ->
  exists all registryFiles,
    item = build_item entityName category all registryFiles
    /\ NoDup (npm all) /\ NoDup (registry all).
Proof.
  intros H. unfold processEntity in H. split_bind H.
  destruct (length (filter (fun f => isSourceFile (fst f)) a) =? 0).
  - split_bind H.
  - split_bind H. split_bind H. unfold ret in H. injection H as <- _.
    exists (fst a0), (snd a0). split; [reflexivity|].
    eapply (for_each_invariant
              (fun acc => NoDup (npm (fst acc)) /\ NoDup (registry (fst acc))));
      [| |exact E0].
    + intros acc x t acc' t' _ HP Hv. eapply visit_file_NoDup; eassumption.
    + simpl; split; constructor.
Qed.

Lemma sorted_field_well_formed (s : JsSet.t) :
  NoDup s -> well_formed_field (sorted_field s).
Proof.
  intros Hnd. unfold sorted_field, JsSet.size.
  destruct s as [|x s]; simpl; [exact I|].
  change (sort_insert x (js_sort s)) with (js_sort (x :: s)).
  assert (Hs : StronglySorted str_lt (js_sort (x :: s)))
    by (apply js_sort_strict; assumption).
  repeat split.
  - intros E. pose proof (js_sort_perm (x :: s)) as HP. rewrite E in HP.
    apply Permutation_nil in HP. discriminate.
  - assumption.
  - apply strict_NoDup; assumption.
Qed.

Lemma sorted_field_omitted (s : JsSet.t) : sorted_field s = None <-> s = [].
Proof.
  unfold sorted_field, JsSet.size. destruct s; simpl; split;
    congruence.
Qed.

Lemma sorted_field_elements (s : JsSet.t) (l : list jsstring) :
  sorted_field s = Some l -> Permutation l s.
Proof.
  unfold sorted_field. destruct (0 <? JsSet.size s); [|discriminate].
  intros [= <-]. apply js_sort_perm.
Qed.

End Entity.

(* ------------------------------------------------------------------ *)
(** ** What a computation can do                                       *)
(* ------------------------------------------------------------------ *)

Lemma writes_app (a b : list event) : writes (a ++ b) = writes a ++ writes b.
Proof. unfold writes. apply flat_map_app. Qed.

Lemma quiet_ret {A : Type} (a : A) : quiet (ret a).
Proof.
  intros tr; simpl. split; [reflexivity | split; discriminate].
Qed.

Lemma quiet_emit (e : event) :
  writes [e] = [] -> quiet (emit e).
Proof.
  intros He tr; simpl. rewrite writes_app, He, app_nil_r.
  split; [reflexivity | split; discriminate].
Qed.

Lemma quiet_lift {A : Type} (r : attempt A) : fails_on_io r -> quiet (lift r).
Proof.
  intros Hr tr. unfold lift. destruct r as [a|e]; simpl.
  - split; [reflexivity | split; discriminate].
  - split; [reflexivity | split; [discriminate|]].
    intros e' [= <-]. apply Hr; reflexivity.
Qed.

Lemma quiet_bind {A B : Type} (m : M A) (f : A -> M B) :
  quiet m -> (forall a, quiet (f a)) -> quiet (bind m f).
Proof.
  intros Hm Hf tr. unfold bind.
  destruct (Hm tr) as [Hw [Hx Ht]].
  destruct (m tr) as [[a|code|e] tr1]; simpl in *.
  - destruct (Hf a tr1) as [Hw' [Hx' Ht']].
    rewrite Hw', Hw. split; [reflexivity | split; assumption].
  - exfalso; eapply Hx; reflexivity.
  - split; [assumption | split; [discriminate|]].
    intros e0 [= <-]. apply (Ht e); reflexivity.
Qed.

Lemma quiet_for_each {A S : Type} (body : S -> A -> M S) (xs : list A) :
  (forall acc x, quiet (body acc x)) ->
  forall acc, quiet (for_each xs body acc).
Proof.
  intros Hbody. induction xs as [|x xs IH]; intros acc; simpl.
  - apply quiet_ret.
  - apply quiet_bind; [apply Hbody | exact IH].
Qed.

Lemma quiet_if {A : Type} (b : bool) (m1 m2 : M A) :
  quiet m1 -> quiet m2 -> quiet (if b then m1 else m2).
Proof. destruct b; auto. Qed.

(** A computation that always ends with a value. *)
Lemma for_each_total {A S : Type} (body : S -> A -> M S) (xs : list A) :
  (forall acc x tr, exists acc' tr', body acc x tr = (Ok acc', tr')) ->
  forall acc tr, exists acc' tr', for_each xs body acc tr = (Ok acc', tr').
Proof.
  intros Hbody. induction xs as [|x xs IH]; intros acc tr; simpl.
  - eexists _, _; reflexivity.
  - unfold bind. destruct (Hbody acc x tr) as [acc1 [tr1 E]]. rewrite E.
    apply IH.
Qed.

(** *** [fs] fails on exceptions of [fs] only *)

Lemma readdirSync_io (dir : jsstring) (n : node) :
  fails_on_io (readdirSync dir n).
Proof.
  intros e. destruct n; simpl; try discriminate;
    intros [= <-]; eexists; reflexivity.
Qed.

Lemma readFileSync_io (file : jsstring) (n : node) :
  fails_on_io (readFileSync file n).
Proof.
  intros e. destruct n; simpl; try discriminate;
    intros [= <-]; eexists; reflexivity.
Qed.

Lemma walkDir_io (n : node) : forall dir, fails_on_io (walkDir dir n).
Proof.
  induction n as [content|entries IH| |] using node_induction;
    intros dir e; simpl;
    try (intros [= <-]; eexists; reflexivity).
  induction IH as [|[name n'] es Hn' _ IHes]; [discriminate|].
  simpl in Hn'.
  destruct (isDirectory n').
  - destruct (walkDir (path_join dir name) n') as [here|e'] eqn:E.
    + match goal with
      | |- context [match ?w with Done _ => _ | Failed _ => _ end = _] =>
          destruct w as [more|e''] eqn:E'
      end; [discriminate|].
      intros [= <-]. apply IHes. reflexivity.
    + intros [= <-]. eapply Hn'; exact E.
  - match goal with
    | |- context [match ?w with Done _ => _ | Failed _ => _ end = _] =>
        destruct w as [more|e''] eqn:E'
    end; [discriminate|].
    intros [= <-]. apply IHes. reflexivity.
Qed.

(* ------------------------------------------------------------------ *)
(** ** The run                                                         *)
(* ------------------------------------------------------------------ *)

Section Run.
Context {runtime : Runtime}.

Ltac quiet_step :=
  first
    [ apply quiet_ret
    | apply quiet_emit; reflexivity
    | apply quiet_lift; first [apply walkDir_io | apply readFileSync_io
                              | apply readdirSync_io]
    | apply quiet_if
    | apply quiet_bind; [|intros ?]
    | apply quiet_for_each; intros ? ? ].

Lemma quiet_processEntity (categoryName entityName entityDir : jsstring)
  (dir : node) (category : Category) (packageMap index : JsMap.t jsstring) :
  quiet (processEntity categoryName entityName entityDir dir category
           packageMap index).
Proof. unfold processEntity, visit_file. repeat quiet_step. Qed.

Lemma quiet_entity_step (options : CliOptions) (existingItemMap : ItemMap)
  (packageMap index : JsMap.t jsstring) (categoryName : jsstring)
  (category : Category) (categoryDir : jsstring) (st : Summary * ItemMap)
  (e : jsstring * node) :
  quiet (entity_step options existingItemMap packageMap index categoryName
           category categoryDir st e).
Proof.
  unfold entity_step. apply quiet_if; [repeat quiet_step|].
  apply quiet_bind; [apply quiet_processEntity|].
  intros [item|]; repeat quiet_step.
Qed.

Lemma quiet_category_step (options : CliOptions) (existingItemMap : ItemMap)
  (packageMap index : JsMap.t jsstring) (registryDir : jsstring)
  (rootEntries : list (jsstring * node)) (st : Summary * ItemMap)
  (c : jsstring * Category) :
  quiet (category_step options existingItemMap packageMap index registryDir
           rootEntries st c).
Proof.
  unfold category_step.
  destruct (entry (subdirectories rootEntries) (fst c)); [|apply quiet_ret].
  apply quiet_bind; [repeat quiet_step|]. intros entries.
  apply quiet_for_each. intros; apply quiet_entity_step.
Qed.

Lemma quiet_process_categories (options : CliOptions)
  (existingItemMap : ItemMap) (packageMap index : JsMap.t jsstring)
  (registryDir : jsstring) (rootEntries : list (jsstring * node)) :
  quiet (process_categories options existingItemMap packageMap index
           registryDir rootEntries).
Proof.
  unfold process_categories. apply quiet_for_each.
  intros; apply quiet_category_step.
Qed.

Lemma quiet_buildRegistryEntityMap (registryDir : jsstring) (root : node) :
  quiet (buildRegistryEntityMap registryDir root).
Proof.
  unfold buildRegistryEntityMap. apply quiet_for_each. intros m categoryName.
  destruct (child root categoryName); repeat quiet_step.
Qed.

Lemma quiet_parse_target (w : World) (targets : JsSet.t) (target : jsstring) :
  quiet (parse_target w targets target).
Proof.
  unfold parse_target. apply quiet_if; [apply quiet_ret|].
  destruct (fold_left _ _ _) as [targets' found].
  repeat quiet_step.
Qed.

Lemma quiet_parseArgs (w : World) : quiet (parseArgs w).
Proof.
  unfold parseArgs. apply quiet_bind; [|intros; apply quiet_ret].
  apply quiet_for_each. intros; apply quiet_parse_target.
Qed.

Lemma parseArgs_total (w : World) (tr : list event) :
  exists targets tr',
    parseArgs w tr
    = (Ok {| noOverride := skip_existing_mode w; targets := targets |}, tr').
Proof.
  unfold parseArgs, bind.
  destruct (for_each_total (parse_target w)
              (filter (fun a => negb (Js.startsWith a (js "--")))
                 (skipn 2 (argv w))))
    with (acc := JsSet.empty) (tr := tr) as [targets [tr' E]].
  - intros acc target t. unfold parse_target.
    destruct (Js.includes target Js.slash); [eexists _, _; reflexivity|].
    destruct (fold_left _ _ _) as [targets' found].
    destruct (negb found); eexists _, _; reflexivity.
  - rewrite E. eexists _, _; reflexivity.
Qed.

Lemma loadExistingRegistry_total (w : World) (tr : list event) :
  exists tr',
    loadExistingRegistry w tr = (Ok (persisted w), tr')
    /\ writes tr' = writes tr.
Proof.
  unfold loadExistingRegistry, persisted.
  destruct (registry_json w); simpl;
    eexists; (split; [reflexivity|]);
    rewrite ?writes_app, ?app_nil_r; reflexivity.
Qed.

(** *** The index of the persisted items *)

Lemma item_entries_done (elements : list (option RegistryItem)) :
  forall entries,
    item_entries elements = Done entries ->
    entries
    = map (fun item => (item_name item, item))
        (flat_map
           (fun element =>
              match element with Some item => [item] | None => [] end)
           elements).
Proof.
  induction elements as [|[item|] elements IH]; intros entries H;
    simpl in H.
  - injection H as <-. reflexivity.
  - destruct (item_entries elements) as [entries'|e]; [|discriminate].
    injection H as <-. simpl. rewrite (IH entries' eq_refl). reflexivity.
  - discriminate.
Qed.

Lemma item_entries_failed (elements : list (option RegistryItem))
  (e : error) :
  item_entries elements = Failed e -> e = TypeError /\ In None elements.
Proof.
  induction elements as [|[item|] elements IH]; simpl; intros H.
  - discriminate.
  - destruct (item_entries elements) as [entries'|e']; [discriminate|].
    injection H as <-. destruct (IH eq_refl) as [-> Hin]. auto.
  - injection H as <-. auto.
Qed.

Lemma item_entries_listed (items : list RegistryItem) :
  item_entries (map Some items)
  = Done (map (fun item => (item_name item, item)) items).
Proof.
  induction items as [|item items IH]; [reflexivity|].
  simpl. rewrite IH. reflexivity.
Qed.

(** When the index can be built it is [persisted_index]. *)
Lemma existing_items_done (existingRegistry : option Registry)
  (index : JsMap.t RegistryItem) :
  existing_items existingRegistry = Done index ->
  index = persisted_index existingRegistry.
Proof.
  unfold existing_items, persisted_index, persisted_list.
  destruct existingRegistry as [r|]; [|intros [= <-]; reflexivity].
  cbv zeta. destruct (reg_items r) as [|elements|].
  - intros [= <-]. reflexivity.
  - destruct (item_entries elements) as [entries|e] eqn:E; [|discriminate].
    intros [= <-]. rewrite (item_entries_done _ _ E). reflexivity.
  - discriminate.
Qed.

(** The only exception of the indexing is a [TypeError], thrown when
    [items] is no array or holds [null]. *)
Lemma existing_items_failed (existingRegistry : option Registry)
  (e : error) :
  existing_items existingRegistry = Failed e ->
  e = TypeError
  /\ exists r,
       existingRegistry = Some r
       /\ (reg_items r = NotAnArray
           \/ exists elements,
                reg_items r = ItemArray elements /\ In None elements).
Proof.
  unfold existing_items.
  destruct existingRegistry as [r|]; [|discriminate].
  cbv zeta. destruct (reg_items r) as [|elements|] eqn:Ei.
  - discriminate.
  - destruct (item_entries elements) as [entries|e'] eqn:E; [discriminate|].
    intros [= <-]. apply item_entries_failed in E as [-> Hin].
    split; [reflexivity|]. exists r. split; [reflexivity|].
    right. exists elements. auto.
  - intros [= <-]. split; [reflexivity|]. exists r. auto.
Qed.

Lemma persisted_list_listed (r : Registry) (items : list RegistryItem) :
  reg_items r = listed items -> persisted_list (Some r) = items.
Proof.
  unfold persisted_list, listed. intros ->.
  induction items as [|item items IH]; [reflexivity|].
  simpl. rewrite IH. reflexivity.
Qed.

Lemma existing_items_listed (r : Registry) (items : list RegistryItem) :
  reg_items r = listed items ->
  existing_items (Some r) = Done (persisted_index (Some r)).
Proof.
  intros H. unfold existing_items, persisted_index. cbv zeta.
  rewrite (persisted_list_listed r items H), H. unfold listed.
  rewrite item_entries_listed. reflexivity.
Qed.

Lemma listed_inj (items items' : list RegistryItem) :
  listed items = listed items' -> items = items'.
Proof.
  unfold listed. intros [= H]. revert items' H.
  induction items as [|item items IH]; intros [|item' items'] H;
    try discriminate; [reflexivity|].
  simpl in H. injection H as -> H. f_equal. apply IH, H.
Qed.

Lemma writes_In (tr : list event) (file : jsstring) (registry : Registry) :
  In (WriteFile file registry) tr -> In registry (writes tr).
Proof.
  intros H. unfold writes. apply in_flat_map.
  exists (WriteFile file registry); simpl; auto.
Qed.

Lemma main_from_packages_outcomes (w : World) (options : CliOptions)
  (root : node) (pkg : PackageJson) (tr : list event) :
  registry_root w = Some root ->
  noOverride options = skip_existing_mode w ->
  writes tr = [] ->
  main_outcome w (fst (main_from_packages w options root pkg tr))
    (snd (main_from_packages w options root pkg tr)).
Proof.
  intros Hroot Hopt Hw.
  assert (Hsome : registry_root w <> None) by (rewrite Hroot; discriminate).
  unfold main_from_packages, bind.
  pose proof (quiet_buildRegistryEntityMap (REGISTRY_DIR w) root tr)
    as [Hw1 [Hx1 Ht1]].
  destruct (buildRegistryEntityMap (REGISTRY_DIR w) root tr)
    as [[index|code|e] tr1]; simpl in Hw1, Hx1, Ht1.
  2: { exfalso; eapply Hx1; reflexivity. }
  2: { simpl. apply uncaught_exception; [assumption | congruence|].
       destruct (Ht1 e eq_refl) as [path ->]; exact I. }
  destruct (loadExistingRegistry_total w tr1) as [tr2 [E2 Hw2]]. rewrite E2.
  assert (Hw2' : writes tr2 = []) by congruence.
  unfold lift.
  destruct (existing_items (persisted w)) as [existingItemMap|e] eqn:Eidx.
  2: { simpl. apply uncaught_exception; [assumption | assumption|].
       destruct (existing_items_failed _ _ Eidx) as [-> _].
       right. exact Eidx. }
  pose proof (existing_items_done _ _ Eidx) as Hidx. subst existingItemMap.
  destruct (readdirSync (REGISTRY_DIR w) root) as [rootEntries|e] eqn:Erd.
  2: { simpl. apply uncaught_exception; [assumption | assumption|].
       destruct (readdirSync_io _ _ _ Erd) as [path ->]; exact I. }
  destruct (length (active_categories rootEntries) =? 0) eqn:Eact.
  { simpl. apply Nat.eqb_eq, length_zero_iff_nil in Eact.
    eapply no_category; eassumption. }
  pose proof (quiet_process_categories options (persisted_index (persisted w))
                (buildPackageMap pkg) index (REGISTRY_DIR w) rootEntries tr2)
    as [Hw3 [Hx3 Ht3]].
  destruct (process_categories options (persisted_index (persisted w))
              (buildPackageMap pkg) index (REGISTRY_DIR w) rootEntries tr2)
    as [[st|code|e] tr3] eqn:Eloop; simpl in Hw3, Hx3, Ht3.
  2: { exfalso; eapply Hx3; reflexivity. }
  2: { simpl. apply uncaught_exception; [assumption | congruence|].
       destruct (Ht3 e eq_refl) as [path ->]; exact I. }
  unfold writeFileSync. destruct (output_writable w); simpl.
  - rewrite <- app_assoc. simpl.
    eapply completed;
      [exact Hroot | exact Erd | exact Hopt | exact Eidx | exact Eloop
      | congruence].
  - apply uncaught_exception; [assumption | congruence | exact I].
Qed.

(** Every run ends in one of the four ways. *)
Lemma main_outcomes (w : World) :
  main_outcome w (fst (main w [])) (snd (main w [])).
Proof.
  unfold main, bind.
  destruct (parseArgs_total w []) as [targets [tr0 Eargs]].
  pose proof (quiet_parseArgs w []) as [Hw0 _].
  rewrite Eargs in *. simpl in Hw0.
  destruct (registry_root w) as [root|] eqn:Eroot.
  2: { simpl. apply missing_root; assumption. }
  assert (Hsome : registry_root w <> None) by (rewrite Eroot; discriminate).
  unfold loadPackageJson.
  destruct (package_json w) as [| | |[pkg|]] eqn:Epkg; simpl.
  - apply main_from_packages_outcomes; [assumption | reflexivity|].
    rewrite writes_app, Hw0; reflexivity.
  - apply uncaught_exception; [assumption | assumption | exact I].
  - apply uncaught_exception; [assumption | assumption|].
    simpl; auto.
  - apply main_from_packages_outcomes; [assumption | reflexivity | assumption].
  - apply uncaught_exception; [assumption | assumption|].
    simpl; left; assumption.
Qed.

(** What a run wrote, it wrote at the end of a completed [main]: the
    document is [build_registry] of the persisted manifest and of the
    item map the two loops end with. *)
Lemma written_registry (w : World) (file : jsstring) (registry : Registry) :
  In (WriteFile file registry) (snd (main w [])) ->
  exists options packageMap index root rootEntries st tr1 tr2,
    registry_root w = Some root
    /\ readdirSync (REGISTRY_DIR w) root = Done rootEntries
    /\ noOverride options = skip_existing_mode w
    /\ process_categories options (persisted_index (persisted w)) packageMap
         index (REGISTRY_DIR w) rootEntries tr1 = (Ok st, tr2)
    /\ registry = build_registry (persisted w) (snd st)
    /\ file = OUTPUT_FILE w
    /\ fst (main w []) = Ok tt.
Proof.
  intros Hin.
  assert (Hnone : forall tr, writes tr = [] ->
                             ~ In (WriteFile file registry) tr).
  { intros tr Hw Htr. apply writes_In in Htr. rewrite Hw in Htr.
    contradiction. }
  pose proof (main_outcomes w) as H.
  inversion H as [tr Hroot Hw Er Et|e tr Hroot Hw Hc Er Et
                 |root rootEntries tr Hroot Hrd Hact Hw Er Et
                 |options packageMap index root rootEntries st tr1 tr2
                    Hroot Hrd Hopt Hidx Hloop Hw Er Et];
    rewrite <- Et in Hin.
  - apply in_app_or in Hin as [Hin | [Hin | []]];
      [exact (False_ind _ (Hnone tr Hw Hin)) | discriminate].
  - rewrite Et in Hin. exact (False_ind _ (Hnone _ Hw Hin)).
  - apply in_app_or in Hin as [Hin | [Hin | []]];
      [exact (False_ind _ (Hnone tr Hw Hin)) | discriminate].
  - apply in_app_or in Hin as [Hin | [Hin | [Hin | []]]];
      [exact (False_ind _ (Hnone tr2 Hw Hin)) | | discriminate].
    injection Hin as <- <-.
    exists options, packageMap, index, root, rootEntries, st, tr1, tr2.
    repeat split; assumption.
Qed.

(** A run that completes has indexed the persisted items. *)
Lemma completed_run_indexed (w : World) (tr : list event) :
  main w [] = (Ok tt, tr) ->
  existing_items (persisted w) = Done (persisted_index (persisted w)).
Proof.
  intros E. pose proof (main_outcomes w) as H. rewrite E in H. simpl in H.
  inversion H. assumption.
Qed.

(** *** How a run ends *)

(** C7, as the code has it.  A run either completes, having written
    exactly one document, or ends with nothing written; the latter
    happens when the root directory is missing (completion signal 1),
    on an uncaught exception of a call into [fs], of the reading of
    [package.json] or of the indexing of the persisted [items]
    (completion signal 1), and when the root holds no
    directory of a configured category (completion signal 0, after a
    diagnostic). *)
Theorem run_outcomes (w : World) :
  let r := fst (main w []) in
  let tr := snd (main w []) in
  (r = Ok tt /\ exit_code r = 0%Z /\ exists registry, writes tr = [registry])
  \/ (writes tr = []
      /\ ((registry_root w = None /\ r = Exit 1 /\ exit_code r = 1%Z)
          \/ (registry_root w <> None
              /\ (exists e, r = Throw e /\ exception_cause w e)
              /\ exit_code r = 1%Z)
          \/ (registry_root w <> None
              /\ (exists root rootEntries,
                     registry_root w = Some root
                     /\ readdirSync (REGISTRY_DIR w) root = Done rootEntries
                     /\ active_categories rootEntries = [])
              /\ In WarnNoCategories tr
              /\ r = Exit 0 /\ exit_code r = 0%Z))).
Proof.
  cbv zeta. pose proof (main_outcomes w) as H.
  inversion H as [tr Hroot Hw Er Et|e tr Hroot Hw Hc Er Et
                 |root rootEntries tr Hroot Hrd Hact Hw Er Et
                 |options packageMap index root rootEntries st tr1 tr2
                    Hroot Hrd Hopt Hidx Hloop Hw Er Et].
  - right. rewrite writes_app, Hw. split; [reflexivity|].
    left; auto.
  - right. split; [assumption|]. right; left.
    split; [assumption|]. split; [exists e; auto | reflexivity].
  - right. rewrite writes_app, Hw. split; [reflexivity|].
    right; right. split; [congruence|].
    split; [exists root, rootEntries; auto|].
    split; [apply in_or_app; right; left; reflexivity | auto].
  - left. split; [reflexivity|]. split; [reflexivity|].
    rewrite writes_app, Hw. simpl. eexists; reflexivity.
Qed.

(** *** The metadata of the manifest *)

(** C6, as the code has it.  The schema identifier of the written
    manifest is always the fixed one; the catalog name and the homepage
    are those of the persisted manifest where it is present and has the
    field, and the fixed defaults otherwise. *)
Theorem manifest_metadata (w : World) (file : jsstring) (registry : Registry) :
  In (WriteFile file registry) (snd (main w [])) ->
  reg_schema registry = REGISTRY_SCHEMA
  /\ reg_name registry
     = Some (match persisted w with
             | Some r => or_default (reg_name r) REGISTRY_NAME
             | None => REGISTRY_NAME
             end)
  /\ reg_homepage registry
     = Some (match persisted w with
             | Some r => or_default (reg_homepage r) REGISTRY_HOMEPAGE
             | None => REGISTRY_HOMEPAGE
             end).
Proof.
  intros H. apply written_registry in H
    as (options & packageMap & index & root & rootEntries & st & tr1 & tr2
        & _ & _ & _ & _ & -> & _ & _).
  unfold build_registry; simpl.
  destruct (persisted w); auto.
Qed.

(** *** An entity without source files *)

Lemma processEntity_no_source_files
  (categoryName entityName entityDir : jsstring) (dir : node)
  (category : Category) (packageMap index : JsMap.t jsstring)
  (walked : list (jsstring * node)) (tr : list event) :
  walkDir entityDir dir = Done walked ->
  filter (fun f => isSourceFile (fst f)) walked = [] ->
  processEntity categoryName entityName entityDir dir category packageMap
    index tr = (Ok None, tr ++ [WarnNoSourceFiles categoryName entityName]).
Proof.
  intros Hw Hf. unfold processEntity, bind, lift. rewrite Hw, Hf. reflexivity.
Qed.

(** *** The skip-existing mode *)

Lemma map_set_fresh (V : Type) (m : JsMap.t V) (k : jsstring) (v : V) :
  JsMap.has m k = false -> JsMap.set m k v = m ++ [(k, v)].
Proof.
  intros H. rewrite <- (app_nil_r m) at 1.
  rewrite map_set_app by assumption. reflexivity.
Qed.

Lemma of_entries_distinct (V : Type) (entries : list (jsstring * V)) :
  NoDup (map fst entries) -> JsMap.of_entries entries = entries.
Proof.
  unfold JsMap.of_entries, JsMap.empty.
  assert (H : forall acc,
             NoDup (map fst (acc ++ entries)) ->
             fold_left (fun m kv => JsMap.set m (fst kv) (snd kv)) entries acc
             = acc ++ entries).
  { induction entries as [|[k v] es IH]; intros acc Hnd; simpl.
    - rewrite app_nil_r; reflexivity.
    - rewrite map_set_fresh.
      + rewrite IH; rewrite <- app_assoc; [reflexivity | exact Hnd].
      + destruct (JsMap.has acc k) eqn:E; [|reflexivity].
        apply map_has_In in E. exfalso.
        rewrite map_app in Hnd. simpl in Hnd.
        apply NoDup_remove_2 in Hnd. apply Hnd.
        apply in_or_app; left; exact E. }
  intros Hnd. apply (H []); exact Hnd.
Qed.

(** With the flag set, a key of the persisted item map is never
    written: the map stays the persisted one followed by fresh items. *)
Lemma entity_step_keeps_persisted (options : CliOptions)
  (existingItemMap : ItemMap) (packageMap index : JsMap.t jsstring)
  (categoryName : jsstring) (category : Category) (categoryDir : jsstring)
  (st st' : Summary * ItemMap) (e : jsstring * node) (tr tr' : list event) :
  noOverride options = true ->
  (exists fresh, snd st = existingItemMap ++ fresh) ->
  entity_step options existingItemMap packageMap index categoryName category
    categoryDir st e tr = (Ok st', tr') ->
  exists fresh, snd st' = existingItemMap ++ fresh.
Proof.
  intros Hno [fresh Hst] H. unfold entity_step in H. rewrite Hno in H.
  cbn [andb] in H.
  destruct (JsMap.has existingItemMap (fst e)) eqn:Ehas.
  - cbv in H. injection H as <- _. exists fresh; exact Hst.
  - split_bind H. destruct a as [item|].
    + cbv [bind emit ret] in H. injection H as <- _. cbn [snd].
      rewrite Hst, map_set_app by assumption. eexists; reflexivity.
    + injection H as <- _. exists fresh; exact Hst.
Qed.

Lemma process_categories_keeps_persisted (options : CliOptions)
  (existingItemMap : ItemMap) (packageMap index : JsMap.t jsstring)
  (registryDir : jsstring) (rootEntries : list (jsstring * node))
  (st : Summary * ItemMap) (tr tr' : list event) :
  noOverride options = true ->
  process_categories options existingItemMap packageMap index registryDir
    rootEntries tr = (Ok st, tr') ->
  exists fresh, snd st = existingItemMap ++ fresh.
Proof.
  intros Hno H. unfold process_categories in H.
  eapply (for_each_invariant
            (fun st => exists fresh, snd st = existingItemMap ++ fresh));
    [| |exact H].
  - intros acc c t acc' t' _ HP Hc. unfold category_step in Hc.
    destruct (entry (subdirectories rootEntries) (fst c)) as [d|].
    + split_bind Hc.
      eapply (for_each_invariant
                (fun st => exists fresh, snd st = existingItemMap ++ fresh));
        [| exact HP | exact Hc].
      intros acc1 e t1 acc1' t1' _ HP1 He.
      eapply entity_step_keeps_persisted; eassumption.
    + injection Hc as <- _; exact HP.
  - exists []; simpl; rewrite app_nil_r; reflexivity.
Qed.

(** With [--no-override], an entity whose directory name is a key of
    the persisted item map is not processed, whatever its directory
    holds: it is logged and counted as skipped and the map is left as it
    is.  The written manifest starts with the items of the persisted
    map, unchanged and in their order.  The test is on the directory
    name, not on the name the item gets. *)
Lemma skip_mode_keeps_index_entries
  (w : World) (file : jsstring) (registry : Registry) :
  skip_existing_mode w = true ->
  In (WriteFile file registry) (snd (main w [])) ->
  let existingItemMap := persisted_index (persisted w) in
  (forall options packageMap index categoryName category categoryDir st
          entityName dir tr,
      noOverride options = true ->
      JsMap.has existingItemMap entityName = true ->
      entity_step options existingItemMap packageMap index categoryName
        category categoryDir st (entityName, dir) tr
      = (Ok (count_skipped (fst st), snd st), tr ++ [LogSkipped entityName]))
  /\ (exists fresh,
         reg_items registry = listed (JsMap.values existingItemMap ++ fresh))
  /\ (forall name item,
         JsMap.get existingItemMap name = Some item ->
         exists items, reg_items registry = listed items /\ In item items)
  /\ (forall r items,
         persisted w = Some r -> reg_items r = listed items ->
         NoDup (map item_name items) ->
         exists fresh, reg_items registry = listed (items ++ fresh)).
Proof.
  intros Hflag H existingItemMap.
  apply written_registry in H
    as (options & packageMap & index & root & rootEntries & st & tr1 & tr2
        & _ & _ & Hopt & Hloop & -> & _ & _).
  rewrite Hflag in Hopt.
  apply process_categories_keeps_persisted in Hloop as [fresh Hst];
    [|exact Hopt].
  fold existingItemMap in Hst.
  assert (Hitems : reg_items (build_registry (persisted w) (snd st))
                   = listed (JsMap.values existingItemMap
                             ++ JsMap.values fresh)).
  { simpl. rewrite Hst. unfold JsMap.values. rewrite map_app. reflexivity. }
  split; [|split; [|split]].
  - intros opts pm idx cat category catDir st0 entityName dir tr Hno Hhas.
    unfold entity_step. cbn [fst snd]. rewrite Hno, Hhas. reflexivity.
  - eexists; exact Hitems.
  - intros name item Hget. eexists; split; [exact Hitems|].
    apply in_or_app; left. eapply map_get_In; exact Hget.
  - intros r items Hr Hi Hnd. exists (JsMap.values fresh).
    rewrite Hitems. do 2 f_equal.
    unfold existingItemMap, persisted_index.
    rewrite Hr, (persisted_list_listed r items Hi).
    rewrite of_entries_distinct.
    + unfold JsMap.values. rewrite map_map. simpl. apply map_id.
    + rewrite map_map. simpl. exact Hnd.
Qed.

(** *** The items of the written manifest *)

Lemma map_set_values (V : Type) (m : JsMap.t V) (k : jsstring) (v x : V) :
  In x (JsMap.values (JsMap.set m k v)) -> x = v \/ In x (JsMap.values m).
Proof.
  unfold JsMap.values. induction m as [|[k' v'] m IH]; simpl.
  - intros [<- | []]; auto.
  - destruct (Js.eqb k k'); simpl.
    + intros [<- | H]; auto.
    + intros [<- | H]; [auto|]. apply IH in H as [-> | H]; auto.
Qed.

Lemma lift_done {A : Type} (r : attempt A) (a : A) (tr tr' : list event) :
  lift r tr = (Ok a, tr') -> r = Done a.
Proof.
  unfold lift. destruct r; [intros [= -> _]; reflexivity | discriminate].
Qed.

(** Every item of the map is a persisted one or comes out of
    [processEntity]. *)
Lemma entity_step_produced (options : CliOptions)
  (existingItemMap : ItemMap) (packageMap index : JsMap.t jsstring)
  (categoryName : jsstring) (category : Category) (categoryDir : jsstring)
  (st st' : Summary * ItemMap) (e : jsstring * node) (tr tr' : list event) :
  (forall item, In item (JsMap.values (snd st)) ->
                In item (JsMap.values existingItemMap) \/ produced item) ->
  entity_step options existingItemMap packageMap index categoryName category
    categoryDir st e tr = (Ok st', tr') ->
  forall item, In item (JsMap.values (snd st')) ->
               In item (JsMap.values existingItemMap) \/ produced item.
Proof.
  intros HP H. unfold entity_step in H.
  destruct (noOverride options && JsMap.has existingItemMap (fst e)).
  - cbv [bind emit ret] in H. injection H as <- _. exact HP.
  - split_bind H. destruct a as [fresh|].
    + assert (Hmap : snd st' = JsMap.set (snd st) (fst e) fresh).
      { destruct (JsMap.has existingItemMap (fst e));
          cbv [bind emit ret] in H; injection H as <- _; reflexivity. }
      rewrite Hmap. intros item Hin.
      apply map_set_values in Hin as [-> | Hin]; [|apply HP, Hin].
      right. do 9 eexists. exact E.
    + injection H as <- _. exact HP.
Qed.

Lemma process_categories_produced (options : CliOptions)
  (existingItemMap : ItemMap) (packageMap index : JsMap.t jsstring)
  (registryDir : jsstring) (rootEntries : list (jsstring * node))
  (st : Summary * ItemMap) (tr tr' : list event) :
  process_categories options existingItemMap packageMap index registryDir
    rootEntries tr = (Ok st, tr') ->
  forall item, In item (JsMap.values (snd st)) ->
               In item (JsMap.values existingItemMap) \/ produced item.
Proof.
  intros H. unfold process_categories in H.
  eapply (for_each_invariant
            (fun st => forall item, In item (JsMap.values (snd st)) ->
                         In item (JsMap.values existingItemMap)
                         \/ produced item));
    [| |exact H].
  - intros acc c t acc' t' _ HP Hc. unfold category_step in Hc.
    destruct (entry (subdirectories rootEntries) (fst c)) as [d|].
    + split_bind Hc.
      eapply (for_each_invariant
                (fun st => forall item, In item (JsMap.values (snd st)) ->
                             In item (JsMap.values existingItemMap)
                             \/ produced item));
        [| exact HP | exact Hc].
      intros acc1 e t1 acc1' t1' _ HP1 He.
      eapply entity_step_produced; eassumption.
    + injection Hc as <- _; exact HP.
  - intros item Hin; left; exact Hin.
Qed.

Lemma written_items (w : World) (file : jsstring) (registry : Registry)
  (items : list RegistryItem) (item : RegistryItem) :
  In (WriteFile file registry) (snd (main w [])) ->
  reg_items registry = listed items -> In item items ->
  In item (JsMap.values (persisted_index (persisted w))) \/ produced item.
Proof.
  intros H Hitems Hin. apply written_registry in H
    as (options & packageMap & index & root & rootEntries & st & tr1 & tr2
        & _ & _ & _ & Hloop & -> & _ & _).
  simpl in Hitems. apply listed_inj in Hitems. subst items.
  eapply process_categories_produced; eassumption.
Qed.

(** C8. In every item [processEntity] produces, [dependencies] and
    [registryDependencies] are omitted exactly when the corresponding
    set is empty and otherwise hold the elements of the set in strictly
    increasing order, without repetition.  In a written manifest this
    holds of every item that is not a persisted one passed through. *)
Theorem dependency_lists_strictly_sorted :
  (forall categoryName entityName entityDir dir category packageMap index
          tr tr' item,
      processEntity categoryName entityName entityDir dir category
        packageMap index tr = (Ok (Some item), tr') ->
      exists allNpm allRegistry,
        item_dependencies item = sorted_field allNpm
        /\ item_registryDependencies item = sorted_field allRegistry
        /\ well_formed_field (item_dependencies item)
        /\ well_formed_field (item_registryDependencies item)
        /\ (item_dependencies item = None <-> allNpm = [])
        /\ (item_registryDependencies item = None <-> allRegistry = [])
        /\ (forall l, item_dependencies item = Some l ->
                      Permutation l allNpm)
        /\ (forall l, item_registryDependencies item = Some l ->
                      Permutation l allRegistry))
  /\ (forall w file registry items item,
        In (WriteFile file registry) (snd (main w [])) ->
        reg_items registry = listed items -> In item items ->
        In item (JsMap.values (persisted_index (persisted w)))
        \/ (well_formed_field (item_dependencies item)
            /\ well_formed_field (item_registryDependencies item))).
Proof.
  assert (Hitem :
    forall categoryName entityName entityDir dir category packageMap index
           tr tr' item,
      processEntity categoryName entityName entityDir dir category
        packageMap index tr = (Ok (Some item), tr') ->
      exists allNpm allRegistry,
        item_dependencies item = sorted_field allNpm
        /\ item_registryDependencies item = sorted_field allRegistry
        /\ well_formed_field (item_dependencies item)
        /\ well_formed_field (item_registryDependencies item)
        /\ (item_dependencies item = None <-> allNpm = [])
        /\ (item_registryDependencies item = None <-> allRegistry = [])
        /\ (forall l, item_dependencies item = Some l ->
                      Permutation l allNpm)
        /\ (forall l, item_registryDependencies item = Some l ->
                      Permutation l allRegistry)).
  { intros categoryName entityName entityDir dir category packageMap index
           tr tr' item H.
    apply processEntity_item in H as [all [files [-> [Hn Hr]]]].
    exists (npm all), (JsSet.delete (registry all) (toKebabCase entityName)).
    simpl.
    split; [reflexivity|]. split; [reflexivity|].
    split; [apply sorted_field_well_formed; assumption|].
    split; [apply sorted_field_well_formed, set_delete_NoDup; assumption|].
    split; [apply sorted_field_omitted|].
    split; [apply sorted_field_omitted|].
    split; apply sorted_field_elements. }
  split; [exact Hitem|].
  intros w file registry items item Hw Hitems Hin.
  destruct (written_items w file registry items item Hw Hitems Hin)
    as [Hold | Hnew]; [left; exact Hold | right].
  destruct Hnew as (c & e & d & n & cat & pm & idx & tr & tr' & Hp).
  destruct (Hitem _ _ _ _ _ _ _ _ _ _ Hp)
    as (allNpm & allRegistry & _ & _ & H1 & H2 & _).
  split; assumption.
Qed.

(** C4. The catalog dependencies of an item never hold the kebab-cased
    name of its own entity, and removing that name a second time
    changes nothing.  In a written manifest no item that is not a
    persisted one passed through names itself. *)
Theorem no_self_reference :
  (forall categoryName entityName entityDir dir category packageMap index
          tr tr' item,
      processEntity categoryName entityName entityDir dir category
        packageMap index tr = (Ok (Some item), tr') ->
      exists allRegistry,
        let catalog := JsSet.delete allRegistry (toKebabCase entityName) in
        item_name item = toKebabCase entityName
        /\ item_registryDependencies item = sorted_field catalog
        /\ ~ In (toKebabCase entityName) catalog
        /\ no_self_dependency item
        /\ JsSet.delete catalog (toKebabCase entityName) = catalog)
  /\ (forall w file registry items item,
        In (WriteFile file registry) (snd (main w [])) ->
        reg_items registry = listed items -> In item items ->
        In item (JsMap.values (persisted_index (persisted w)))
        \/ no_self_dependency item).
Proof.
  assert (Hitem :
    forall categoryName entityName entityDir dir category packageMap index
           tr tr' item,
      processEntity categoryName entityName entityDir dir category
        packageMap index tr = (Ok (Some item), tr') ->
      exists allRegistry,
        let catalog := JsSet.delete allRegistry (toKebabCase entityName) in
        item_name item = toKebabCase entityName
        /\ item_registryDependencies item = sorted_field catalog
        /\ ~ In (toKebabCase entityName) catalog
        /\ no_self_dependency item
        /\ JsSet.delete catalog (toKebabCase entityName) = catalog).
  { intros categoryName entityName entityDir dir category packageMap index
           tr tr' item H.
    apply processEntity_item in H as [all [files [-> _]]].
    exists (registry all). cbv zeta.
    assert (Hnot : ~ In (toKebabCase entityName)
                     (JsSet.delete (registry all) (toKebabCase entityName))).
    { rewrite set_delete_In. intros [_ Hne]; congruence. }
    split; [reflexivity|]. split; [reflexivity|]. split; [exact Hnot|].
    split; [|apply set_delete_idempotent].
    intros deps Hdeps Hin. apply Hnot. simpl in Hdeps, Hin.
    eapply Permutation_in; [apply sorted_field_elements, Hdeps | exact Hin]. }
  split; [exact Hitem|].
  intros w file registry items item Hw Hitems Hin.
  destruct (written_items w file registry items item Hw Hitems Hin)
    as [Hold | Hnew]; [left; exact Hold | right].
  destruct Hnew as (c & e & d & n & cat & pm & idx & tr & tr' & Hp).
  destruct (Hitem _ _ _ _ _ _ _ _ _ _ Hp) as (allRegistry & _ & _ & _ & H & _).
  exact H.
Qed.

(** *** The merge, by directory name *)

(** A processed entity that yields an item puts it under its directory
    name, whatever the map held there, and touches no other key. *)
Lemma entity_step_sets_directory_name (options : CliOptions)
  (existingItemMap : ItemMap) (packageMap index : JsMap.t jsstring)
  (categoryName : jsstring) (category : Category)
  (categoryDir entityName : jsstring) (dir : node) (st : Summary * ItemMap)
  (tr tr1 : list event) (item : RegistryItem) :
  noOverride options && JsMap.has existingItemMap entityName = false ->
  processEntity categoryName entityName (path_join categoryDir entityName)
    dir category packageMap index tr = (Ok (Some item), tr1) ->
  exists st' tr',
    entity_step options existingItemMap packageMap index categoryName
      category categoryDir st (entityName, dir) tr = (Ok st', tr')
    /\ snd st' = JsMap.set (snd st) entityName item
    /\ JsMap.get (snd st') entityName = Some item
    /\ (forall name, entityName <> name ->
                     JsMap.get (snd st') name = JsMap.get (snd st) name).
Proof.
  intros Hno Hp. unfold entity_step. cbn [fst snd]. rewrite Hno.
  unfold bind at 1. rewrite Hp.
  destruct (JsMap.has existingItemMap entityName);
    cbv [bind emit ret]; eexists _, _; (split; [reflexivity|]);
    cbn [snd]; (split; [reflexivity|]);
    (split; [apply map_get_set_same | intros; apply map_get_set_other;
                                      assumption]).
Qed.

(** *** An entity without source files, in the run *)

(** A step leaves the map alone under a name whose entities hold no
    eligible source file. *)
Lemma entity_step_frame (options : CliOptions)
  (existingItemMap : ItemMap) (packageMap index : JsMap.t jsstring)
  (categoryName : jsstring) (category : Category) (categoryDir : jsstring)
  (st st' : Summary * ItemMap) (e : jsstring * node) (tr tr' : list event)
  (name : jsstring) :
  (fst e = name -> no_source_files (path_join categoryDir (fst e)) (snd e)) ->
  entity_step options existingItemMap packageMap index categoryName category
    categoryDir st e tr = (Ok st', tr') ->
  JsMap.get (snd st') name = JsMap.get (snd st) name.
Proof.
  intros Hempty H. unfold entity_step in H.
  destruct (noOverride options && JsMap.has existingItemMap (fst e)).
  - cbv [bind emit ret] in H. injection H as <- _. reflexivity.
  - split_bind H. destruct a as [fresh|].
    + assert (Hmap : snd st' = JsMap.set (snd st) (fst e) fresh).
      { destruct (JsMap.has existingItemMap (fst e));
          cbv [bind emit ret] in H; injection H as <- _; reflexivity. }
      rewrite Hmap.
      destruct (Js.eqb (fst e) name) eqn:En.
      * apply eqb_eq in En. destruct (Hempty En) as [walked [Hw Hf]].
        rewrite (processEntity_no_source_files _ _ _ _ _ _ _ _ _ Hw Hf) in E.
        discriminate.
      * apply map_get_set_other. apply eqb_neq; exact En.
    + injection H as <- _. reflexivity.
Qed.

Lemma process_categories_frame (options : CliOptions)
  (existingItemMap : ItemMap) (packageMap index : JsMap.t jsstring)
  (registryDir : jsstring) (rootEntries : list (jsstring * node))
  (st : Summary * ItemMap) (tr tr' : list event) (name : jsstring) :
  (forall categoryName categoryDir entries dir,
      entry (subdirectories rootEntries) categoryName = Some categoryDir ->
      readdirSync (path_join registryDir categoryName) categoryDir
      = Done entries ->
      In (name, dir) (subdirectories entries) ->
      no_source_files (path_join (path_join registryDir categoryName) name)
        dir) ->
  process_categories options existingItemMap packageMap index registryDir
    rootEntries tr = (Ok st, tr') ->
  JsMap.get (snd st) name = JsMap.get existingItemMap name.
Proof.
  intros Hempty H. unfold process_categories in H.
  eapply (for_each_invariant
            (fun st => JsMap.get (snd st) name
                       = JsMap.get existingItemMap name));
    [| |exact H]; [|reflexivity].
  intros acc c t acc' t' _ HP Hc. unfold category_step in Hc.
  destruct (entry (subdirectories rootEntries) (fst c)) as [d|] eqn:Ed.
  - split_bind Hc. apply lift_done in E.
    eapply (for_each_invariant
              (fun st => JsMap.get (snd st) name
                         = JsMap.get existingItemMap name));
      [| exact HP | exact Hc].
    intros acc1 e t1 acc1' t1' He HP1 Hstep.
    rewrite <- HP1. eapply entity_step_frame; [|exact Hstep].
    intros Hname. apply filter_In in He as [He _].
    destruct e as [n dir]; simpl in *; subst n.
    eapply Hempty; eassumption.
  - injection Hc as <- _; exact HP.
Qed.

(** A persisted item whose name is the name of no entity directory is
    in the written manifest as it was. *)
Lemma unnamed_item_passes_through (w : World) (file : jsstring)
  (registry : Registry) (name : jsstring) (item : RegistryItem) :
  In (WriteFile file registry) (snd (main w [])) ->
  (forall root rootEntries categoryName categoryDir entries dir,
      registry_root w = Some root ->
      readdirSync (REGISTRY_DIR w) root = Done rootEntries ->
      entry (subdirectories rootEntries) categoryName = Some categoryDir ->
      readdirSync (path_join (REGISTRY_DIR w) categoryName) categoryDir
      = Done entries ->
      ~ In (name, dir) (subdirectories entries)) ->
  JsMap.get (persisted_index (persisted w)) name = Some item ->
  exists items, reg_items registry = listed items /\ In item items.
Proof.
  intros Hw Hnone Hget.
  apply written_registry in Hw
    as (options & packageMap & index & root & rootEntries & st & tr1 & tr2
        & Hroot & Hrd & _ & Hloop & -> & _ & _).
  eexists; split; [reflexivity|].
  eapply map_get_In. rewrite <- Hget.
  eapply process_categories_frame; [|exact Hloop].
  intros categoryName categoryDir entries dir Hc He Hin.
  exfalso. eapply Hnone; eassumption.
Qed.

(** C9. An entity whose directory holds no eligible source file yields
    no item but a diagnostic, and the loop goes on with the remaining
    entities from the same counts and the same item map: what the map
    holds under the name of the entity stays as it is.  In a run whose
    entity directories of that name all hold no eligible source file,
    the persisted item of that name is in the written manifest as it
    was. *)
Theorem entity_without_source_files :
  (forall options existingItemMap packageMap index categoryName category
          categoryDir entityName dir walked st others tr,
      walkDir (path_join categoryDir entityName) dir = Done walked ->
      filter (fun f => isSourceFile (fst f)) walked = [] ->
      let step :=
        entity_step options existingItemMap packageMap index categoryName
          category categoryDir in
      let diagnostic := WarnNoSourceFiles categoryName entityName in
      processEntity categoryName entityName
        (path_join categoryDir entityName) dir category packageMap index tr
      = (Ok None, tr ++ [diagnostic])
      /\ (noOverride options && JsMap.has existingItemMap entityName = false ->
          step st (entityName, dir) tr = (Ok st, tr ++ [diagnostic])
          /\ for_each ((entityName, dir) :: others) step st tr
             = for_each others step st (tr ++ [diagnostic]))
      /\ (exists st' tr',
             step st (entityName, dir) tr = (Ok st', tr')
             /\ snd st' = snd st))
  /\ (forall w file registry name item,
        In (WriteFile file registry) (snd (main w [])) ->
        only_empty_entities_named w name ->
        JsMap.get (persisted_index (persisted w)) name = Some item ->
        exists items, reg_items registry = listed items /\ In item items).
Proof.
  split.
  - intros options existingItemMap packageMap index categoryName category
           categoryDir entityName dir walked st others tr Hw Hf step
           diagnostic.
    pose proof (fun t => processEntity_no_source_files categoryName
                           entityName (path_join categoryDir entityName) dir
                           category packageMap index walked t Hw Hf) as Hp.
    assert (Hstep : noOverride options
                    && JsMap.has existingItemMap entityName = false ->
                    step st (entityName, dir) tr
                    = (Ok st, tr ++ [diagnostic])).
    { intros Hno. unfold step, entity_step. cbn [fst snd]. rewrite Hno.
      unfold bind. rewrite Hp. reflexivity. }
    split; [apply Hp|]. split.
    + intros Hno. split; [apply Hstep, Hno|].
      simpl. unfold bind at 1. fold step. rewrite (Hstep Hno). reflexivity.
    + destruct (noOverride options && JsMap.has existingItemMap entityName)
        eqn:Hno.
      * exists (count_skipped (fst st), snd st),
          (tr ++ [LogSkipped entityName]).
        unfold step, entity_step. cbn [fst snd]. rewrite Hno. auto.
      * exists st, (tr ++ [diagnostic]). rewrite (Hstep eq_refl). auto.
  - intros w file registry name item Hw Hempty Hget.
    apply written_registry in Hw
      as (options & packageMap & index & root & rootEntries & st & tr1 & tr2
          & Hroot & Hrd & _ & Hloop & -> & _ & _).
    eexists; split; [reflexivity|].
    eapply map_get_In. rewrite <- Hget.
    eapply process_categories_frame; [|exact Hloop].
    intros categoryName categoryDir entries dir Hc He Hin.
    eapply Hempty; eassumption.
Qed.

End Run.

(* ------------------------------------------------------------------ *)
(** ** Runs on concrete trees                                          *)
(* ------------------------------------------------------------------ *)

(** A root directory that exists but holds no category directory: the
    run ends with completion signal 0 and nothing written, although no
    call into [fs] failed. *)
Lemma run_without_category_exits_zero :
  registry_root world_no_category <> None
  /\ run world_no_category = (Exit 0, [WarnNoCategories])
  /\ writes (snd (run world_no_category)) = []
  /\ exit_code (fst (run world_no_category)) = 0%Z.
Proof.
  split; [discriminate|]. repeat split; vm_compute; reflexivity.
Qed.

(** A [registry.json] that parses but whose [items] cannot be indexed:
    the run ends in a [TypeError] with nothing written. *)
Example run_over_items_that_are_no_array :
  run world_items_not_array = (Throw TypeError, [])
  /\ exit_code (fst (run world_items_not_array)) = 1%Z
  /\ exception_cause world_items_not_array TypeError.
Proof.
  split; [vm_compute; reflexivity|]. split; [vm_compute; reflexivity|].
  right. reflexivity.
Qed.

Example run_over_null_item :
  run world_null_item = (Throw TypeError, [])
  /\ exit_code (fst (run world_null_item)) = 1%Z
  /\ exception_cause world_null_item TypeError.
Proof.
  split; [vm_compute; reflexivity|]. split; [vm_compute; reflexivity|].
  right. reflexivity.
Qed.

(** The persisted manifest has its own schema identifier; the written
    one has the fixed identifier instead. *)
Lemma persisted_schema_is_replaced :
  exists registry,
    persisted world_rerun = Some persisted_manifest
    /\ writes (snd (run world_rerun)) = [registry]
    /\ reg_schema persisted_manifest = js "./schema/registry.json"
    /\ reg_schema registry = js "https://ui.shadcn.com/schema/registry.json"
    /\ reg_schema registry <> reg_schema persisted_manifest.
Proof.
  eexists. split; [reflexivity|]. split; [vm_compute; reflexivity|].
  split; [reflexivity|]. split; [reflexivity|]. discriminate.
Qed.

Lemma manifest_metadata_witness :
  exists registry,
    In (WriteFile (OUTPUT_FILE world_rerun) registry) (snd (run world_rerun))
    /\ reg_schema registry = REGISTRY_SCHEMA
    /\ reg_name registry = Some (js "acme")
    /\ reg_homepage registry = Some REGISTRY_HOMEPAGE.
Proof.
  eexists. split; [vm_compute; right; left; reflexivity|].
  apply (@manifest_metadata Ascii_runtime.instance world_rerun
           (OUTPUT_FILE world_rerun)).
  vm_compute; right; left; reflexivity.
Defined.

(** Kebab-casing on names of entity directories. *)
Example kebab_cased_names :
  Ascii_runtime.kebab (js "button") = js "button"
  /\ Ascii_runtime.kebab (js "Button") = js "button"
  /\ Ascii_runtime.kebab (js "use-debounce") = js "use-debounce"
  /\ Ascii_runtime.kebab (js "useDebounce") = js "use-debounce"
  /\ Ascii_runtime.kebab (js "use_debounce hook") = js "use-debounce-hook"
  /\ Ascii_runtime.kebab (js "button2") = js "button-2"
  /\ Ascii_runtime.kebab (js "XMLParser") = js "xml-parser"
  /\ Ascii_runtime.kebab (js "--") = [].
Proof. repeat split; vm_compute; reflexivity. Qed.

(** With a directory name that is its own kebab-cased form, the fresh
    item takes the place of the persisted one. *)
Example lower_case_entity_replaces_item :
  run world_rerun
  = (Ok tt,
     [ LogUpdated (js "button");
       WriteFile (js "/repo/registry.json")
         {| reg_schema := REGISTRY_SCHEMA;
            reg_name := Some (js "acme");
            reg_homepage := Some REGISTRY_HOMEPAGE;
            reg_items := listed [fresh_button (js "button")] |};
       LogSummary {| added := 0; updated := 1; skipped := 0 |} 1 ]).
Proof. vm_compute; reflexivity. Qed.

(** With [--no-override] and a directory name that is its own
    kebab-cased form, the entity is skipped and the persisted item
    kept. *)
Example lower_case_entity_is_skipped :
  run world_skip
  = (Ok tt,
     [ LogSkipped (js "button");
       WriteFile (js "/repo/registry.json")
         {| reg_schema := REGISTRY_SCHEMA;
            reg_name := Some (js "acme");
            reg_homepage := Some REGISTRY_HOMEPAGE;
            reg_items := listed [stale_button] |};
       LogSummary {| added := 0; updated := 0; skipped := 1 |} 1 ]).
Proof. vm_compute; reflexivity. Qed.

(** C5 on [registry/components/Button] with [--no-override].  The
    persisted manifest holds an item named [button], the name a run
    gives the item of [Button]; yet the test for an existing item is on
    the directory name, so the entity is processed again: it is logged
    and counted as added, not as skipped, and the written manifest gets
    a second item named [button].  A further run over that manifest and
    the unchanged tree indexes the two items under the one name and
    writes the persisted item no more. *)
Theorem skip_mode_reprocesses_capitalised_entity :
  skip_existing_mode world_Button_skip = true
  /\ persisted_list (persisted world_Button_skip) = [stale_button]
  /\ toKebabCase (Runtime := Ascii_runtime.instance) (js "Button")
     = item_name stale_button
  /\ run world_Button_skip
     = (Ok tt,
        [ LogAdded (js "Button");
          WriteFile (js "/repo/registry.json") manifest_after_Button_skip;
          LogSummary {| added := 1; updated := 0; skipped := 0 |} 2 ])
  /\ reg_items manifest_after_Button_skip
     = listed [stale_button; fresh_button (js "Button")]
  /\ skip_existing_mode world_Button_skip_again = true
  /\ registry_root world_Button_skip_again = registry_root world_Button_skip
  /\ persisted world_Button_skip_again = Some manifest_after_Button_skip
  /\ run world_Button_skip_again
     = (Ok tt,
        [ LogAdded (js "Button");
          WriteFile (js "/repo/registry.json")
            {| reg_schema := REGISTRY_SCHEMA;
               reg_name := Some (js "acme");
               reg_homepage := Some REGISTRY_HOMEPAGE;
               reg_items :=
                 listed [fresh_button (js "Button");
                         fresh_button (js "Button")] |};
          LogSummary {| added := 1; updated := 0; skipped := 0 |} 2 ])
  /\ ~ In stale_button
        [fresh_button (js "Button"); fresh_button (js "Button")].
Proof.
  repeat (split; [vm_compute; reflexivity|]).
  intros [H | [H | []]]; vm_compute in H; discriminate H.
Qed.

(** C1 on [registry/components/Button]: the item map is keyed by the
    directory name [Button] while the persisted item is keyed by its
    name [button], so the entity is reported as added and the written
    manifest holds the persisted item and the fresh one, both named
    [button]. *)
Theorem capitalised_entity_keeps_stale_item :
  toKebabCase (Runtime := Ascii_runtime.instance) (js "Button") = js "button"
  /\ item_name stale_button = js "button"
  /\ item_name (fresh_button (js "Button")) = js "button"
  /\ run world_Button
     = (Ok tt,
        [ LogAdded (js "Button");
          WriteFile (js "/repo/registry.json")
            {| reg_schema := REGISTRY_SCHEMA;
               reg_name := Some (js "acme");
               reg_homepage := Some REGISTRY_HOMEPAGE;
               reg_items :=
                 listed [stale_button; fresh_button (js "Button")] |};
          LogSummary {| added := 1; updated := 0; skipped := 0 |} 2 ]).
Proof. repeat split; vm_compute; reflexivity. Qed.



Lemma dependency_lists_strictly_sorted_witness :
  (exists item,
      card_run = (Ok (Some item), [])
      /\ item_dependencies item = Some [js "react@19.0.0"; js "zod@3.22.0"]
      /\ exists allNpm allRegistry,
          item_dependencies item = sorted_field allNpm
          /\ item_registryDependencies item = sorted_field allRegistry
          /\ well_formed_field (item_dependencies item)
          /\ well_formed_field (item_registryDependencies item)
          /\ (item_dependencies item = None <-> allNpm = [])
          /\ (item_registryDependencies item = None <-> allRegistry = [])
          /\ (forall l, item_dependencies item = Some l ->
                        Permutation l allNpm)
          /\ (forall l, item_registryDependencies item = Some l ->
                        Permutation l allRegistry))
  /\ (In (fresh_button (js "button"))
        (JsMap.values (persisted_index (persisted world_rerun)))
      \/ (well_formed_field (item_dependencies (fresh_button (js "button")))
          /\ well_formed_field
               (item_registryDependencies (fresh_button (js "button"))))).
Proof.
  destruct (@dependency_lists_strictly_sorted Ascii_runtime.instance)
    as [Hitem Hrun].
  split.
  - eexists. split; [vm_compute; reflexivity|]. split; [reflexivity|].
    apply (Hitem (js "components") (js "card")
             (js "/repo/registry/components/card") card_dir components
             (buildPackageMap pkg_three_sections) card_index [] []).
    vm_compute; reflexivity.
  - apply (Hrun world_rerun (OUTPUT_FILE world_rerun)
             {| reg_schema := REGISTRY_SCHEMA;
                reg_name := Some (js "acme");
                reg_homepage := Some REGISTRY_HOMEPAGE;
                reg_items := listed [fresh_button (js "button")] |}
             [fresh_button (js "button")]).
    + vm_compute; right; left; reflexivity.
    + reflexivity.
    + left; reflexivity.
Defined.

Lemma no_self_reference_witness :
  (exists item,
      card_run = (Ok (Some item), [])
      /\ item_registryDependencies item = Some [js "button"]
      /\ exists allRegistry,
          let catalog := JsSet.delete allRegistry (js "card") in
          item_name item = js "card"
          /\ item_registryDependencies item = sorted_field catalog
          /\ ~ In (js "card") catalog
          /\ no_self_dependency item
          /\ JsSet.delete catalog (js "card") = catalog)
  /\ (In (fresh_button (js "button"))
        (JsMap.values (persisted_index (persisted world_rerun)))
      \/ no_self_dependency (fresh_button (js "button"))).
Proof.
  destruct (@no_self_reference Ascii_runtime.instance) as [Hitem Hrun].
  split.
  - eexists. split; [vm_compute; reflexivity|]. split; [reflexivity|].
    apply (Hitem (js "components") (js "card")
             (js "/repo/registry/components/card") card_dir components
             (buildPackageMap pkg_three_sections) card_index [] []).
    vm_compute; reflexivity.
  - apply (Hrun world_rerun (OUTPUT_FILE world_rerun)
             {| reg_schema := REGISTRY_SCHEMA;
                reg_name := Some (js "acme");
                reg_homepage := Some REGISTRY_HOMEPAGE;
                reg_items := listed [fresh_button (js "button")] |}
             [fresh_button (js "button")]).
    + vm_compute; right; left; reflexivity.
    + reflexivity.
    + left; reflexivity.
Defined.

(** In [tree_tests_only] the only directory called [button] holds a
    test file only. *)
Lemma tests_only_button :
  only_empty_entities_named world_tests_only (js "button").
Proof.
  intros root rootEntries categoryName categoryDir entries dir
         Hroot Hrd Hc He Hin.
  injection Hroot as <-. injection Hrd as <-.
  cbn [subdirectories filter isDirectory snd entry] in Hc.
  destruct (Js.eqb categoryName (js "components")) eqn:E; [|discriminate].
  apply eqb_eq in E; subst categoryName.
  injection Hc as <-. injection He as <-.
  cbn [subdirectories filter isDirectory snd card_dir tests_only_dir] in Hin.
  destruct Hin as [H | [H | []]]; [|discriminate].
  injection H as <-.
  eexists; split; vm_compute; reflexivity.
Defined.

Lemma entity_without_source_files_witness :
  @processEntity Ascii_runtime.instance (js "components") (js "button")
    (js "/repo/registry/components/button") tests_only_dir components
    (buildPackageMap a_package_json) card_index []
  = (Ok None, [WarnNoSourceFiles (js "components") (js "button")])
  /\ exists registry,
      writes (snd (run world_tests_only)) = [registry]
      /\ exists items, reg_items registry = listed items /\ In stale_button items.
Proof.
  destruct (@entity_without_source_files Ascii_runtime.instance)
    as [Hstep Hrun].
  split.
  - apply (Hstep {| noOverride := false; targets := [] |}
             [(js "button", stale_button)]
             (buildPackageMap a_package_json) card_index
             (js "components") components (js "/repo/registry/components")
             (js "button") tests_only_dir
             [(js "/repo/registry/components/button/button.test.tsx",
               button_file)]
             (no_counts, [(js "button", stale_button)])
             [(js "card", card_dir)] []);
      reflexivity.
  - eexists. split; [vm_compute; reflexivity|].
    apply (Hrun world_tests_only (OUTPUT_FILE world_tests_only) _
             (js "button") stale_button).
    + vm_compute; do 3 right; left; reflexivity.
    + exact tests_only_button.
    + reflexivity.
Defined.

(** *** The scenarios of the specification *)

Example extract_import_paths :
  extractImportPaths
    (source_text
       [ "import { cn } from '@/lib/utils/utils'";
         "import './side-effect.css'";
         "export * from './local'";
         "const fs = require('fs'); const zod = await import( 'zod' )";
         "const text = 'nothing to see'" ]%string)
  = [ js "@/lib/utils/utils"; js "./side-effect.css"; js "./local";
      js "fs"; js "zod" ].
Proof. vm_compute; reflexivity. Qed.

Example use_debounce_dependencies :
  exists item,
    @processEntity Ascii_runtime.instance (js "hooks") (js "use-debounce")
      (js "/repo/registry/hooks/use-debounce") use_debounce_dir hooks
      (buildPackageMap a_package_json) [(js "lib/utils", js "utils")] []
    = (Ok (Some item), [])
    /\ item_name item = js "use-debounce"
    /\ item_title item = js "Use Debounce"
    /\ item_dependencies item = Some [js "react@18.2.0"]
    /\ item_registryDependencies item = Some [js "utils"].
Proof. eexists; repeat split; vm_compute; reflexivity. Qed.

Example ui_import_dependencies :
  exists item,
    @processEntity Ascii_runtime.instance (js "components") (js "button")
      (js "/repo/registry/components/button") ui_import_dir components
      (buildPackageMap a_package_json) [] []
    = (Ok (Some item), [])
    /\ item_dependencies item = None
    /\ item_registryDependencies item = Some [js "input"].
Proof. eexists; repeat split; vm_compute; reflexivity. Qed.

(* ================================================================== *)
(** * Further properties of the script                                 *)
(* ================================================================== *)

Unset Implicit Arguments.

(* ------------------------------------------------------------------ *)
(** ** Splitting and joining                                           *)
(* ------------------------------------------------------------------ *)

Lemma split_on_nonempty (sep : N -> bool) (s : jsstring) :
  Js.split_on sep s <> [].
Proof.
  destruct s as [|c s]; simpl; [discriminate|].
  destruct (sep c); [discriminate|].
  destruct (Js.split_on sep s); discriminate.
Qed.

(** Joining the segments with the separator gives the string back. *)
Lemma join_split (s : jsstring) (c : N) :
  Js.join (Js.split s c) [c] = s.
Proof.
  unfold Js.split. induction s as [|x s IH]; simpl; [reflexivity|].
  destruct (N.eqb c x) eqn:E.
  - apply N.eqb_eq in E; subst x.
    destruct (Js.split_on (N.eqb c) s) as [|w ws] eqn:Es.
    + exfalso; eapply split_on_nonempty; exact Es.
    + simpl in *. rewrite IH. reflexivity.
  - destruct (Js.split_on (N.eqb c) s) as [|w ws] eqn:Es.
    + exfalso; eapply split_on_nonempty; exact Es.
    + simpl in *. destruct ws; simpl in *; rewrite <- IH; reflexivity.
Qed.

(** No segment holds a separator. *)
Lemma split_on_segments (sep : N -> bool) (s : jsstring) :
  Forall (fun w => forallb (fun c => negb (sep c)) w = true)
    (Js.split_on sep s).
Proof.
  induction s as [|x s IH]; simpl.
  - constructor; [reflexivity | constructor].
  - destruct (sep x) eqn:E.
    + constructor; [reflexivity | exact IH].
    + destruct (Js.split_on sep s) as [|w ws].
      * constructor; [simpl; rewrite E; reflexivity | constructor].
      * inversion IH; subst. constructor; [|assumption].
        simpl. rewrite E. simpl. assumption.
Qed.

(** A string without separator is its own only segment. *)
Lemma split_on_whole (sep : N -> bool) (s : jsstring) :
  forallb (fun c => negb (sep c)) s = true -> Js.split_on sep s = [s].
Proof.
  induction s as [|x s IH]; simpl; [reflexivity|].
  rewrite andb_true_iff, negb_true_iff. intros [E H].
  rewrite E, (IH H). reflexivity.
Qed.

(** Splitting at a separator splits on both sides of it. *)
Lemma split_on_app (sep : N -> bool) (a b : jsstring) (c : N) :
  sep c = true ->
  Js.split_on sep (a ++ c :: b) = Js.split_on sep a ++ Js.split_on sep b.
Proof.
  intros Hc. induction a as [|x a IH]; simpl.
  - rewrite Hc. reflexivity.
  - rewrite IH. destruct (sep x); [reflexivity|].
    destruct (Js.split_on sep a) as [|w ws] eqn:Ea.
    + exfalso; eapply split_on_nonempty; exact Ea.
    + reflexivity.
Qed.

(** Splitting what was joined gives the segments back. *)
Lemma split_join (sep : N) (ws : list jsstring) :
  ws <> [] ->
  Forall (fun w => forallb (fun c => negb (N.eqb sep c)) w = true) ws ->
  Js.split (Js.join ws [sep]) sep = ws.
Proof.
  unfold Js.split. intros Hne H. revert Hne.
  induction H as [|w ws Hw H IH]; intros Hne;
    [exfalso; apply Hne; reflexivity|].
  destruct ws as [|w' ws].
  - simpl. apply split_on_whole; assumption.
  - change (Js.join (w :: w' :: ws) [sep])
      with (w ++ sep :: Js.join (w' :: ws) [sep]).
    rewrite split_on_app by apply N.eqb_refl.
    rewrite split_on_whole by assumption.
    rewrite IH by discriminate. reflexivity.
Qed.

(** The join of the first segments starts the join of all of them, and
    what follows is empty or starts with the separator. *)
Lemma join_firstn (ws : list jsstring) (sep : jsstring) (k : nat) :
  Js.join ws sep
  = Js.join (firstn (S k) ws) sep
    ++ match skipn (S k) ws with
       | [] => []
       | more => sep ++ Js.join more sep
       end.
Proof.
  revert k. induction ws as [|w ws IH]; intros k; [reflexivity|].
  destruct ws as [|w' ws].
  - simpl. destruct k; simpl; rewrite app_nil_r; reflexivity.
  - destruct k as [|k].
    + simpl. reflexivity.
    + change (firstn (S (S k)) (w :: w' :: ws))
        with (w :: firstn (S k) (w' :: ws)).
      change (skipn (S (S k)) (w :: w' :: ws)) with (skipn (S k) (w' :: ws)).
      change (Js.join (w :: w' :: ws) sep)
        with (w ++ sep ++ Js.join (w' :: ws) sep).
      rewrite (IH k) at 1.
      destruct (firstn (S k) (w' :: ws)) as [|f fs] eqn:Ef;
        [simpl in Ef; discriminate|].
      change (Js.join (w :: f :: fs) sep)
        with (w ++ sep ++ Js.join (f :: fs) sep).
      rewrite <- !app_assoc. reflexivity.
Qed.

(* ------------------------------------------------------------------ *)
(** ** The package name of an import path                              *)
(* ------------------------------------------------------------------ *)

Lemma Forall_firstn_segments {A : Type} (P : A -> Prop) (k : nat)
  (l : list A) : Forall P l -> Forall P (firstn k l).
Proof.
  intros H. revert k. induction H as [|x l Hx H IH]; intros [|k]; simpl;
    constructor; auto.
Qed.

Lemma scoped_first_segment (p : jsstring) :
  Js.startsWith p (js "@") = true ->
  exists w ws, Js.split p Js.slash = (64%N :: w) :: ws.
Proof.
  destruct p as [|x p]; [discriminate|]. simpl.
  rewrite andb_true_r. intros E. apply N.eqb_eq in E; subst x.
  unfold Js.split. cbn [Js.split_on].
  change (N.eqb Js.slash 64) with false. cbv iota.
  destruct (Js.split_on (N.eqb Js.slash) p) as [|w ws] eqn:Es.
  - exfalso; eapply split_on_nonempty; exact Es.
  - exists w, ws; reflexivity.
Qed.

Lemma unscoped_first_segment (p : jsstring) :
  Js.startsWith p (js "@") = false ->
  Js.startsWith (hd [] (Js.split p Js.slash)) (js "@") = false.
Proof.
  destruct p as [|x p]; [reflexivity|]. simpl.
  rewrite andb_true_r. intros E. unfold Js.split. cbn [Js.split_on].
  destruct (N.eqb Js.slash x); [reflexivity|].
  destruct (Js.split_on (N.eqb Js.slash) p); simpl; rewrite E; reflexivity.
Qed.

(** X1. The package name is the import path cut at a slash: the path is
    the name, or the name followed by [/] and a sub-path; the name of a
    scoped path has at most two segments and any other name has one;
    taking the package name of a package name changes nothing. *)
Theorem package_name_of_path (importPath : jsstring) :
  (exists rest,
      importPath = toPackageName importPath ++ rest
      /\ (rest = [] \/ exists sub, rest = Js.slash :: sub))
  /\ length (Js.split (toPackageName importPath) Js.slash)
     = (if Js.startsWith importPath (js "@")
        then Nat.min 2 (length (Js.split importPath Js.slash))
        else 1)
  /\ toPackageName (toPackageName importPath) = toPackageName importPath.
Proof.
  pose proof (join_split importPath Js.slash) as Hjoin.
  pose proof (split_on_segments (N.eqb Js.slash) importPath) as Hseg.
  fold (Js.split importPath Js.slash) in Hseg.
  pose proof (split_on_nonempty (N.eqb Js.slash) importPath) as Hne.
  fold (Js.split importPath Js.slash) in Hne.
  destruct (Js.startsWith importPath (js "@")) eqn:Hat.
  - set (name := Js.join (firstn 2 (Js.split importPath Js.slash)) (js "/")).
    assert (Hdef : toPackageName importPath = name)
      by (unfold toPackageName; rewrite Hat; reflexivity).
    rewrite Hdef.
    assert (Hsplit : Js.split name Js.slash
                     = firstn 2 (Js.split importPath Js.slash)).
    { apply split_join.
      - destruct (Js.split importPath Js.slash); [congruence | discriminate].
      - apply Forall_firstn_segments; exact Hseg. }
    assert (Hname : Js.startsWith name (js "@") = true).
    { unfold name. destruct (scoped_first_segment _ Hat) as [w [ws ->]].
      destruct ws; reflexivity. }
    split; [|split].
    + eexists; split.
      * exact (eq_trans (eq_sym Hjoin)
                 (join_firstn (Js.split importPath Js.slash) [Js.slash] 1)).
      * destruct (skipn 2 (Js.split importPath Js.slash));
          [left; reflexivity | right; eexists; reflexivity].
    + rewrite Hsplit. apply length_firstn.
    + unfold toPackageName. rewrite Hname, Hsplit, firstn_firstn.
      reflexivity.
  - set (name := hd [] (Js.split importPath Js.slash)).
    assert (Hdef : toPackageName importPath = name)
      by (unfold toPackageName; rewrite Hat; reflexivity).
    rewrite Hdef.
    assert (Hfree : forallb (fun c => negb (N.eqb Js.slash c)) name = true).
    { unfold name. destruct (Js.split importPath Js.slash);
        [reflexivity|]. inversion Hseg; assumption. }
    assert (Hsplit : Js.split name Js.slash = [name])
      by (apply split_on_whole; exact Hfree).
    split; [|split].
    + assert (Hfirst : Js.join (firstn 1 (Js.split importPath Js.slash))
                         [Js.slash] = name).
      { unfold name. destruct (Js.split importPath Js.slash);
          [congruence | reflexivity]. }
      eexists; split.
      * rewrite <- Hfirst.
        exact (eq_trans (eq_sym Hjoin)
                 (join_firstn (Js.split importPath Js.slash) [Js.slash] 0)).
      * destruct (skipn 1 (Js.split importPath Js.slash));
          [left; reflexivity | right; eexists; reflexivity].
    + rewrite Hsplit. reflexivity.
    + unfold toPackageName.
      pose proof (unscoped_first_segment _ Hat) as Hname. fold name in Hname.
      rewrite Hname, Hsplit. reflexivity.
Qed.

(* ------------------------------------------------------------------ *)
(** ** More on the classification of imports                           *)
(* ------------------------------------------------------------------ *)

Lemma relative_matches_no_ui_pattern (importPath : jsstring) :
  Js.startsWith importPath (js ".") = true ->
  extractShadcnComponent importPath = None.
Proof.
  intros Hdot. unfold extractShadcnComponent, SHADCN_UI_PATTERNS.
  cbn [first_component].
  repeat match goal with
  | |- context [Re.exec (ui_pattern ?prefix) importPath] =>
      let E := fresh "E" in
      destruct (Re.exec (ui_pattern prefix) importPath) eqn:E;
      [ apply exec_ui_pattern in E as [name [_ [Hp _]]];
        rewrite Hp in Hdot; discriminate Hdot | ]
  end.
  reflexivity.
Qed.

(** X2. An import path that starts with a dot is never recorded, as a
    package, as a catalog dependency or as unresolved, whatever the
    package table and the entity index hold. *)
Theorem relative_import_is_ignored
  (packageMap index : JsMap.t jsstring) (importPath : jsstring) :
  Js.startsWith importPath (js ".") = true ->
  classify packageMap index importPath = Ignored
  /\ analyzeImports packageMap index [importPath] = no_deps.
Proof.
  intros Hdot.
  assert (Hc : classify packageMap index importPath = Ignored).
  { unfold classify, isLocalImport.
    rewrite (relative_matches_no_ui_pattern _ Hdot), Hdot. reflexivity. }
  split; [exact Hc|]. unfold analyzeImports. simpl. rewrite Hc. reflexivity.
Qed.

Lemma lookup_entity_value (index : JsMap.t jsstring)
  (rest name : jsstring) :
  lookup_entity index rest = Some name -> In name (JsMap.values index).
Proof.
  unfold lookup_entity.
  destruct (JsMap.has index rest); [apply map_get_In|].
  destruct (2 <=? length (Js.split rest Js.slash)); [|discriminate].
  cbv zeta.
  match goal with
  | |- context [JsMap.has index ?key] =>
      destruct (JsMap.has index key); [apply map_get_In | discriminate]
  end.
Qed.

(** X3. [resolveRegistryDep] answers [null] for every path that starts
    with no alias prefix, and an answer it gives is a name stored in
    the entity index, for a path [isLocalImport] accepts. *)
Theorem resolution_answers_indexed_names
  (index : JsMap.t jsstring) (importPath : jsstring) :
  (first_alias importPath = None ->
   resolveRegistryDep importPath index = None)
  /\ (forall name,
        resolveRegistryDep importPath index = Some name ->
        In name (JsMap.values index) /\ isLocalImport importPath = true).
Proof.
  split.
  - apply resolve_in_no_match.
  - intros name H. unfold resolveRegistryDep in H.
    destruct (first_alias importPath) as [alias|] eqn:Ha.
    + rewrite (resolve_in_first_match _ _ _ index Ha) in H.
      split; [eapply lookup_entity_value; exact H|].
      eapply alias_is_local; exact Ha.
    + rewrite (resolve_in_no_match _ _ index Ha) in H. discriminate.
Qed.

(** What each outcome of the classification tells about the path. *)
Lemma classify_cases (packageMap index : JsMap.t jsstring)
  (importPath : jsstring) :
  match classify packageMap index importPath with
  | Catalog name =>
      name <> []
      /\ (extractShadcnComponent importPath = Some name
          \/ resolveRegistryDep importPath index = Some name)
  | Package spec =>
      JsMap.get packageMap (toPackageName importPath) = Some spec
      /\ JsSet.has NODE_BUILTINS (toPackageName importPath) = false
      /\ isLocalImport importPath = false
  | Unresolved pkgName =>
      pkgName = toPackageName importPath
      /\ JsMap.get packageMap pkgName = None
      /\ JsSet.has NODE_BUILTINS pkgName = false
      /\ isLocalImport importPath = false
  | Ignored => True
  end.
Proof.
  assert (Htruthy : forall x name,
             truthy_or_null x = Some name -> x = Some name /\ name <> []).
  { intros [s|] name; simpl; [|discriminate].
    destruct s; simpl; [discriminate|].
    intros [= <-]; split; [reflexivity | discriminate]. }
  unfold classify.
  destruct (truthy_or_null (extractShadcnComponent importPath))
    as [shadcnName|] eqn:Eui.
  { apply Htruthy in Eui as [-> Hne]. auto. }
  destruct (negb (Js.startsWith importPath (js "."))).
  - destruct (truthy_or_null (resolveRegistryDep importPath index))
      as [registryDep|] eqn:Er.
    { apply Htruthy in Er as [-> Hne]. auto. }
    destruct (isLocalImport importPath) eqn:El; [exact I|]. cbv zeta.
    destruct (JsSet.has NODE_BUILTINS (toPackageName importPath)) eqn:Eb;
      [exact I|].
    unfold JsMap.has.
    destruct (JsMap.get packageMap (toPackageName importPath)) eqn:Eg;
      auto.
  - destruct (isLocalImport importPath) eqn:El; [exact I|]. cbv zeta.
    destruct (JsSet.has NODE_BUILTINS (toPackageName importPath)) eqn:Eb;
      [exact I|].
    unfold JsMap.has.
    destruct (JsMap.get packageMap (toPackageName importPath)) eqn:Eg;
      auto.
Qed.

(** One of the three sets along the loop of [analyzeFile]: [proj]
    selects the set and [hit] the outcomes that add to it. *)
Section OneSet.
Variables (packageMap index : JsMap.t jsstring).
Variable proj : FileDeps -> JsSet.t.
Variable hit : classification -> option jsstring.
Hypothesis proj_record :
  forall deps c,
    proj (record deps c)
    = match hit c with
      | Some x => JsSet.add (proj deps) x
      | None => proj deps
      end.

Lemma one_set_fold (importPaths : list jsstring) :
  forall acc,
    let deps :=
      fold_left
        (fun deps importPath =>
           record deps (classify packageMap index importPath))
        importPaths acc in
    (forall x, In x (proj deps) <->
               In x (proj acc)
               \/ exists p, In p importPaths
                            /\ hit (classify packageMap index p) = Some x)
    /\ (NoDup (proj acc) -> NoDup (proj deps)).
Proof.
  induction importPaths as [|p ps IH]; intros acc; simpl.
  - split; [|auto]. intros x; split; [auto | intros [H | [q [[] _]]]; exact H].
  - destruct (IH (record acc (classify packageMap index p))) as [Hin Hnd].
    rewrite proj_record in Hin, Hnd. split.
    + intros x. rewrite Hin.
      destruct (hit (classify packageMap index p)) as [y|] eqn:E.
      * rewrite set_add_In. split.
        -- intros [[H | ->] | [q [Hq Hc]]].
           ++ left; exact H.
           ++ right; exists p; split; [left; reflexivity | exact E].
           ++ right; exists q; split; [right; exact Hq | exact Hc].
        -- intros [H | [q [[<- | Hq] Hc]]].
           ++ left; left; exact H.
           ++ rewrite E in Hc; injection Hc as <-. left; right; reflexivity.
           ++ right; exists q; split; assumption.
      * split.
        -- intros [H | [q [Hq Hc]]].
           ++ left; exact H.
           ++ right; exists q; split; [right; exact Hq | exact Hc].
        -- intros [H | [q [[<- | Hq] Hc]]].
           ++ left; exact H.
           ++ rewrite E in Hc; discriminate Hc.
           ++ right; exists q; split; assumption.
    + intros H. apply Hnd.
      destruct (hit (classify packageMap index p));
        [apply set_add_NoDup; exact H | exact H].
Qed.

End OneSet.

(** The three sets of a file are the images of the classification. *)
Lemma analyzeImports_sets (packageMap index : JsMap.t jsstring)
  (importPaths : list jsstring) :
  let deps := analyzeImports packageMap index importPaths in
  (forall x, In x (npm deps) <->
             exists p, In p importPaths
                       /\ classify packageMap index p = Package x)
  /\ (forall x, In x (registry deps) <->
                exists p, In p importPaths
                          /\ classify packageMap index p = Catalog x)
  /\ (forall x, In x (unresolved deps) <->
                exists p, In p importPaths
                          /\ classify packageMap index p = Unresolved x)
  /\ NoDup (npm deps) /\ NoDup (registry deps) /\ NoDup (unresolved deps).
Proof.
  cbv zeta. unfold analyzeImports.
  destruct (one_set_fold packageMap index npm
              (fun c => match c with Package s => Some s | _ => None end)
              (fun deps c => match c with
                             | Catalog _ | Package _ | Unresolved _
                             | Ignored => eq_refl end)
              importPaths no_deps) as [H1 N1].
  destruct (one_set_fold packageMap index registry
              (fun c => match c with Catalog s => Some s | _ => None end)
              (fun deps c => match c with
                             | Catalog _ | Package _ | Unresolved _
                             | Ignored => eq_refl end)
              importPaths no_deps) as [H2 N2].
  destruct (one_set_fold packageMap index unresolved
              (fun c => match c with Unresolved s => Some s | _ => None end)
              (fun deps c => match c with
                             | Catalog _ | Package _ | Unresolved _
                             | Ignored => eq_refl end)
              importPaths no_deps) as [H3 N3].
  cbv zeta in *.
  split; [|split; [|split; [|split; [|split]]]];
    try (first [apply N1 | apply N2 | apply N3]; constructor).
  - intros x. rewrite H1. split.
    + intros [[] | [p [Hp Hc]]]. exists p; split; [exact Hp|].
      destruct (classify packageMap index p); try discriminate.
      injection Hc as ->; reflexivity.
    + intros [p [Hp Hc]]. right; exists p; split; [exact Hp|].
      rewrite Hc; reflexivity.
  - intros x. rewrite H2. split.
    + intros [[] | [p [Hp Hc]]]. exists p; split; [exact Hp|].
      destruct (classify packageMap index p); try discriminate.
      injection Hc as ->; reflexivity.
    + intros [p [Hp Hc]]. right; exists p; split; [exact Hp|].
      rewrite Hc; reflexivity.
  - intros x. rewrite H3. split.
    + intros [[] | [p [Hp Hc]]]. exists p; split; [exact Hp|].
      destruct (classify packageMap index p); try discriminate.
      injection Hc as ->; reflexivity.
    + intros [p [Hp Hc]]. right; exists p; split; [exact Hp|].
      rewrite Hc; reflexivity.
Qed.

Lemma relative_import_is_ignored_witness :
  classify (buildPackageMap pkg_with_builtin) [(js "lib/utils", js "utils")]
    (js "./events") = Ignored
  /\ analyzeImports (buildPackageMap pkg_with_builtin)
       [(js "lib/utils", js "utils")] [js "./events"] = no_deps.
Proof.
  apply (relative_import_is_ignored (buildPackageMap pkg_with_builtin)
           [(js "lib/utils", js "utils")] (js "./events")).
  reflexivity.
Defined.

Lemma resolution_answers_indexed_names_witness :
  resolveRegistryDep (js "react/jsx-runtime") [(js "react", js "react")]
  = None
  /\ In (js "utils") (JsMap.values [(js "lib/utils", js "utils")])
  /\ isLocalImport (js "@/lib/utils/utils") = true.
Proof.
  split.
  - apply (proj1 (resolution_answers_indexed_names
                    [(js "react", js "react")] (js "react/jsx-runtime"))).
    reflexivity.
  - apply (proj2 (resolution_answers_indexed_names
                    [(js "lib/utils", js "utils")] (js "@/lib/utils/utils"))
             (js "utils")).
    reflexivity.
Defined.

(** X4. The three dependency sets of a file hold no element twice and,
    as sets, depend only on which import paths occur: two lists of
    import paths with the same elements give sets with the same
    elements, whatever the order and the repetitions. *)
Theorem dependency_sets_ignore_order
  (packageMap index : JsMap.t jsstring) (paths paths' : list jsstring) :
  (forall p, In p paths <-> In p paths') ->
  let deps := analyzeImports packageMap index paths in
  let deps' := analyzeImports packageMap index paths' in
  (forall x, In x (npm deps) <-> In x (npm deps'))
  /\ (forall x, In x (registry deps) <-> In x (registry deps'))
  /\ (forall x, In x (unresolved deps) <-> In x (unresolved deps'))
  /\ NoDup (npm deps) /\ NoDup (registry deps) /\ NoDup (unresolved deps).
Proof.
  intros Hsame deps deps'.
  destruct (analyzeImports_sets packageMap index paths)
    as (H1 & H2 & H3 & N1 & N2 & N3).
  destruct (analyzeImports_sets packageMap index paths')
    as (H1' & H2' & H3' & _).
  fold deps in H1, H2, H3, N1, N2, N3. fold deps' in H1', H2', H3'.
  assert (Hex : forall (Q : jsstring -> Prop),
             (exists p, In p paths /\ Q p) <-> (exists p, In p paths' /\ Q p)).
  { intros Q; split; intros [p [Hp HQ]]; exists p; split; try exact HQ;
      apply Hsame; exact Hp. }
  split; [|split; [|split; [|split; [|split]]]]; try assumption.
  - intros x. rewrite H1, H1'. apply Hex.
  - intros x. rewrite H2, H2'. apply Hex.
  - intros x. rewrite H3, H3'. apply Hex.
Qed.

Lemma dependency_sets_ignore_order_witness :
  let deps :=
    analyzeImports (buildPackageMap pkg_with_builtin) []
      [js "react"; js "zod"] in
  let deps' :=
    analyzeImports (buildPackageMap pkg_with_builtin) []
      [js "zod"; js "react"; js "zod"] in
  (forall x, In x (npm deps) <-> In x (npm deps'))
  /\ (forall x, In x (registry deps) <-> In x (registry deps'))
  /\ (forall x, In x (unresolved deps) <-> In x (unresolved deps'))
  /\ NoDup (npm deps) /\ NoDup (registry deps) /\ NoDup (unresolved deps).
Proof.
  apply (dependency_sets_ignore_order (buildPackageMap pkg_with_builtin) []
           [js "react"; js "zod"] [js "zod"; js "react"; js "zod"]).
  intros p; simpl; tauto.
Defined.

(** X5. What the sets of a file can hold.  A package dependency is the
    entry of the package table for the package name of an import that
    is neither local nor a Node built-in, so a package named like a
    built-in is never recorded even when [package.json] lists it; an
    unresolved name is the package name of such an import, absent from
    the table; a catalog dependency is a non-empty name, captured by a
    UI-component pattern or answered by the entity index. *)
Theorem recorded_dependencies
  (packageMap index : JsMap.t jsstring) (importPaths : list jsstring) :
  let deps := analyzeImports packageMap index importPaths in
  (forall spec, In spec (npm deps) ->
     exists p, In p importPaths
       /\ JsMap.get packageMap (toPackageName p) = Some spec
       /\ JsSet.has NODE_BUILTINS (toPackageName p) = false
       /\ isLocalImport p = false)
  /\ (forall pkgName, In pkgName (unresolved deps) ->
        exists p, In p importPaths
          /\ pkgName = toPackageName p
          /\ JsMap.get packageMap pkgName = None
          /\ JsSet.has NODE_BUILTINS pkgName = false
          /\ isLocalImport p = false)
  /\ (forall name, In name (registry deps) ->
        name <> []
        /\ exists p, In p importPaths
             /\ (extractShadcnComponent p = Some name
                 \/ resolveRegistryDep p index = Some name)).
Proof.
  intros deps.
  destruct (analyzeImports_sets packageMap index importPaths)
    as (H1 & H2 & H3 & _).
  fold deps in H1, H2, H3.
  split; [|split].
  - intros spec Hin. apply H1 in Hin as [p [Hp Hc]].
    pose proof (classify_cases packageMap index p) as Hcase.
    rewrite Hc in Hcase. exists p; split; [exact Hp | exact Hcase].
  - intros pkgName Hin. apply H3 in Hin as [p [Hp Hc]].
    pose proof (classify_cases packageMap index p) as Hcase.
    rewrite Hc in Hcase. exists p; split; [exact Hp | exact Hcase].
  - intros name Hin. apply H2 in Hin as [p [Hp Hc]].
    pose proof (classify_cases packageMap index p) as Hcase.
    rewrite Hc in Hcase. destruct Hcase as [Hne Hfrom].
    split; [exact Hne|]. exists p; split; [exact Hp | exact Hfrom].
Qed.

Lemma recorded_dependencies_witness :
  npm (analyzeImports (buildPackageMap pkg_with_builtin) []
         [js "events"; js "react/jsx-runtime"])
  = [js "react@18.2.0"]
  /\ exists p,
      In p [js "events"; js "react/jsx-runtime"]
      /\ JsMap.get (buildPackageMap pkg_with_builtin) (toPackageName p)
         = Some (js "react@18.2.0")
      /\ JsSet.has NODE_BUILTINS (toPackageName p) = false
      /\ isLocalImport p = false.
Proof.
  split; [reflexivity|].
  apply (proj1 (recorded_dependencies (buildPackageMap pkg_with_builtin) []
                  [js "events"; js "react/jsx-runtime"])
           (js "react@18.2.0")).
  left; reflexivity.
Defined.

(* ------------------------------------------------------------------ *)
(** ** The registry entity index                                       *)
(* ------------------------------------------------------------------ *)

Lemma map_has_some (V : Type) (m : JsMap.t V) (k : jsstring) :
  JsMap.has m k = true <-> exists v, JsMap.get m k = Some v.
Proof.
  unfold JsMap.has. destruct (JsMap.get m k) as [v|].
  - split; [intros _; exists v; reflexivity | reflexivity].
  - split; [discriminate | intros [v H]; discriminate].
Qed.

Lemma map_get_set_cases (V : Type) (m : JsMap.t V) (k k' : jsstring)
  (v v' : V) :
  JsMap.get (JsMap.set m k v) k' = Some v' ->
  (k = k' /\ v = v') \/ JsMap.get m k' = Some v'.
Proof.
  destruct (Js.eqb k k') eqn:E.
  - apply eqb_eq in E; subst k'. rewrite map_get_set_same.
    intros [= ->]; left; auto.
  - apply eqb_neq in E. rewrite map_get_set_other by assumption. auto.
Qed.

Lemma map_has_set (V : Type) (m : JsMap.t V) (k k' : jsstring) (v : V) :
  JsMap.has m k' = true -> JsMap.has (JsMap.set m k v) k' = true.
Proof.
  rewrite !map_has_some. intros [v' H].
  destruct (Js.eqb k k') eqn:E.
  - apply eqb_eq in E; subst k'. exists v. apply map_get_set_same.
  - apply eqb_neq in E. exists v'.
    rewrite map_get_set_other by assumption. exact H.
Qed.

Section Index.
Context {runtime : Runtime}.

Lemma index_category_get (categoryName : jsstring)
  (entries : list (jsstring * node)) :
  forall (m : JsMap.t jsstring) (key name : jsstring),
    JsMap.get (index_category categoryName entries m) key = Some name ->
    JsMap.get m key = Some name
    \/ exists dirName dir,
        In (dirName, dir) entries /\ isDirectory dir = true
        /\ key = categoryName ++ js "/" ++ dirName
        /\ name = toKebabCase dirName.
Proof.
  unfold index_category.
  induction entries as [|[d n] es IH]; intros m key name H; simpl in H.
  - left; exact H.
  - apply IH in H as [H | (d' & n' & Hin & Hd & Hk & Hn)].
    + destruct (isDirectory n) eqn:Ed; simpl in H; [|left; exact H].
      apply map_get_set_cases in H as [[<- <-] | H]; [|left; exact H].
      right. exists d, n. repeat split; auto. left; reflexivity.
    + right. exists d', n'. repeat split; auto. right; exact Hin.
Qed.

Lemma index_category_has (categoryName : jsstring)
  (entries : list (jsstring * node)) :
  forall (m : JsMap.t jsstring) (key : jsstring),
    (JsMap.has m key = true
     \/ exists dirName dir,
         In (dirName, dir) entries /\ isDirectory dir = true
         /\ key = categoryName ++ js "/" ++ dirName) ->
    JsMap.has (index_category categoryName entries m) key = true.
Proof.
  unfold index_category.
  induction entries as [|[d n] es IH]; intros m key H; simpl.
  - destruct H as [H | (d' & n' & [] & _)]; exact H.
  - apply IH. destruct H as [H | (d' & n' & [Heq | Hin] & Hd & Hk)].
    + left. destruct (negb (isDirectory n)); [exact H|].
      apply map_has_set; exact H.
    + injection Heq as <- <-. left. rewrite Hd. simpl. subst key.
      apply map_has_some. eexists. apply map_get_set_same.
    + right. exists d', n'. auto.
Qed.

(** X6. The entity index, when it can be built, is built without a
    diagnostic.  Each of its entries has a key [category/dirName] for a
    sub-directory [dirName] of the directory of a configured category
    and holds the kebab-cased form of [dirName]; every such
    sub-directory has its key in the index; plain files of a category
    directory and directories of other categories are not indexed. *)
Theorem entity_index_entries (registryDir : jsstring) (root : node)
  (index : JsMap.t jsstring) (tr tr' : list event) :
  buildRegistryEntityMap registryDir root tr = (Ok index, tr') ->
  tr' = tr
  /\ (forall key name,
        JsMap.get index key = Some name ->
        exists categoryName entries dirName dir,
          In categoryName (map fst ENTITY_CATEGORIES)
          /\ child root categoryName = Some (Dir entries)
          /\ In (dirName, dir) entries /\ isDirectory dir = true
          /\ key = categoryName ++ js "/" ++ dirName
          /\ name = toKebabCase dirName)
  /\ (forall categoryName entries dirName dir,
        In categoryName (map fst ENTITY_CATEGORIES) ->
        child root categoryName = Some (Dir entries) ->
        In (dirName, dir) entries -> isDirectory dir = true ->
        JsMap.has index (categoryName ++ js "/" ++ dirName) = true).
Proof.
  unfold buildRegistryEntityMap.
  generalize (map fst ENTITY_CATEGORIES) as categories.
  intros categories.
  assert (H : forall (m : JsMap.t jsstring),
    for_each categories
      (fun map categoryName =>
         match child root categoryName with
         | Some c =>
             entries <- lift (readdirSync (path_join registryDir categoryName)
                                c) ;;
             ret (index_category categoryName entries map)
         | None => ret map
         end) m tr = (Ok index, tr') ->
    tr' = tr
    /\ (forall key name,
          JsMap.get index key = Some name ->
          JsMap.get m key = Some name
          \/ exists categoryName entries dirName dir,
              In categoryName categories
              /\ child root categoryName = Some (Dir entries)
              /\ In (dirName, dir) entries /\ isDirectory dir = true
              /\ key = categoryName ++ js "/" ++ dirName
              /\ name = toKebabCase dirName)
    /\ (forall key,
          (JsMap.has m key = true
           \/ exists categoryName entries dirName dir,
               In categoryName categories
               /\ child root categoryName = Some (Dir entries)
               /\ In (dirName, dir) entries /\ isDirectory dir = true
               /\ key = categoryName ++ js "/" ++ dirName) ->
          JsMap.has index key = true)).
  { induction categories as [|c cs IH]; intros m H; simpl in H.
    - injection H as <- <-. split; [reflexivity|]. split.
      + intros key name Hg; left; exact Hg.
      + intros key [Hh | (c & es & d & n & [] & _)]; exact Hh.
    - unfold bind at 1 in H.
      destruct (child root c) as [cn|] eqn:Ec.
      + unfold bind, lift, ret in H.
        destruct (readdirSync (path_join registryDir c) cn)
          as [entries|e] eqn:Er; [|discriminate].
        assert (Hcn : cn = Dir entries).
        { destruct cn; simpl in Er; try discriminate.
          injection Er as <-; reflexivity. }
        subst cn.
        apply IH in H as (Htr & Hsound & Hcomplete).
        split; [exact Htr|]. split.
        * intros key name Hg.
          apply Hsound in Hg as [Hg | (c' & es & d & n & Hc & Hrest)].
          -- apply index_category_get in Hg
               as [Hg | (d & n & Hin & Hd & Hk & Hn)]; [left; exact Hg|].
             right. exists c, entries, d, n.
             repeat split; auto. left; reflexivity.
          -- right. exists c', es, d, n. split; [right; exact Hc|].
             exact Hrest.
        * intros key Hk. apply Hcomplete.
          destruct Hk as [Hk | (c' & es & d & n & [<- | Hc] & Hch & Hrest)].
          -- left. apply index_category_has. left; exact Hk.
          -- left. apply index_category_has. right.
             rewrite Ec in Hch. injection Hch as <-.
             exists d, n. destruct Hrest as (Hin & Hd & Hkey). auto.
          -- right. exists c', es, d, n. auto.
      + unfold ret in H.
        apply IH in H as (Htr & Hsound & Hcomplete).
        split; [exact Htr|]. split.
        * intros key name Hg.
          apply Hsound in Hg as [Hg | (c' & es & d & n & Hc & Hrest)];
            [left; exact Hg|].
          right. exists c', es, d, n. split; [right; exact Hc | exact Hrest].
        * intros key Hk. apply Hcomplete.
          destruct Hk as [Hk | (c' & es & d & n & [<- | Hc] & Hch & Hrest)].
          -- left; exact Hk.
          -- rewrite Ec in Hch; discriminate.
          -- right. exists c', es, d, n. auto. }
  intros Hbuild. apply H in Hbuild as (Htr & Hsound & Hcomplete).
  split; [exact Htr|]. split.
  - intros key name Hg. apply Hsound in Hg as [Hg | Hg];
      [discriminate | exact Hg].
  - intros c es d n Hc Hch Hin Hd. apply Hcomplete. right.
    exists c, es, d, n. auto.
Qed.

End Index.

(* ------------------------------------------------------------------ *)
(** ** Walking a directory                                             *)
(* ------------------------------------------------------------------ *)

Lemma at_path_directory (entries : list (jsstring * node))
  (names : list jsstring) (f : node) :
  at_path (Dir entries) names f -> isDirectory f = false ->
  exists name n names',
    names = name :: names' /\ In (name, n) entries /\ at_path n names' f.
Proof.
  intros H Hf. inversion H; subst.
  - discriminate.
  - exists name, n, names0. auto.
Qed.

Lemma at_path_leaf (n : node) (names : list jsstring) (f : node) :
  isDirectory n = false -> at_path n names f -> names = [] /\ f = n.
Proof.
  intros Hn H. inversion H; subst; [auto | discriminate].
Qed.

(** X7. The files found by walking a directory are exactly the nodes
    below it that are not directories, each under the path made of the
    directory's path and the entry names that lead to it. *)
Theorem walked_files (n : node) :
  forall (dir : jsstring) (files : list (jsstring * node)),
    walkDir dir n = Done files ->
    forall (p : jsstring) (f : node),
      In (p, f) files <->
      exists names,
        at_path n names f /\ isDirectory f = false
        /\ p = fold_left path_join names dir.
Proof.
  induction n as [content|entries IH| |] using node_induction;
    intros dir files; simpl; try discriminate.
  intros Hwalk p f.
  assert (Hes : In (p, f) files <->
    exists name n' names,
      In (name, n') entries /\ at_path n' names f /\ isDirectory f = false
      /\ p = fold_left path_join names (path_join dir name)).
  { clear - IH Hwalk. revert files Hwalk.
    induction IH as [|[name n'] es Hn' _ IHes]; intros files Hwalk.
    - injection Hwalk as <-. split; [intros [] |].
      intros (name & n' & names & [] & _).
    - simpl in Hn'.
      destruct (if isDirectory n' then walkDir (path_join dir name) n'
                else Done [(path_join dir name, n')])
        as [here|e] eqn:Ehere; [|discriminate].
      match type of Hwalk with
      | context [match ?w with Done _ => _ | Failed _ => _ end = _] =>
          destruct w as [more|e'] eqn:Emore
      end; [|discriminate].
      injection Hwalk as <-.
      specialize (IHes more eq_refl).
      rewrite in_app_iff, IHes. split.
      + intros [Hin | (name' & n'' & names & Hin & Hrest)].
        * destruct (isDirectory n') eqn:Ed.
          -- apply (Hn' _ _ Ehere) in Hin as (names & Hat & Hf & Hp).
             exists name, n', names. repeat split; auto.
             left; reflexivity.
          -- injection Ehere as <-. destruct Hin as [[= <- <-] | []].
             exists name, n', []. repeat split; auto.
             ++ left; reflexivity.
             ++ constructor.
        * exists name', n'', names. split; [right; exact Hin | exact Hrest].
      + intros (name' & n'' & names & [[= <- <-] | Hin] & Hat & Hf & Hp).
        * left. destruct (isDirectory n') eqn:Ed.
          -- apply (Hn' _ _ Ehere). exists names. auto.
          -- injection Ehere as <-.
             apply (at_path_leaf _ _ _ Ed) in Hat as [-> ->].
             left. subst p. reflexivity.
        * right. exists name', n'', names. auto. }
  rewrite Hes. split.
  - intros (name & n' & names & Hin & Hat & Hf & Hp).
    exists (name :: names). repeat split; auto.
    econstructor; eassumption.
  - intros (names & Hat & Hf & Hp).
    apply at_path_directory in Hat as (name & n' & names' & -> & Hin & Hat);
      [|exact Hf].
    exists name, n', names'. auto.
Qed.

(** X8. Walking fails exactly when the node walked is not a readable
    directory or an unreadable directory lies somewhere below it. *)
Theorem walk_failure (n : node) :
  forall (dir : jsstring),
    (exists e, walkDir dir n = Failed e) <->
    (exists content, n = File content) \/ n = BadFile
    \/ exists names, at_path n names BadDir.
Proof.
  induction n as [content|entries IH| |] using node_induction;
    intros dir; simpl.
  - split; [intros _; left; eauto | intros _; eauto].
  - assert (Hes :
      (exists e,
         (fix walk (es : list (jsstring * node))
            : attempt (list (jsstring * node)) :=
            match es with
            | [] => Done []
            | (name, n') :: es' =>
                let fullPath := path_join dir name in
                match
                  (if isDirectory n' then walkDir fullPath n'
                   else Done [(fullPath, n')])
                with
                | Done here =>
                    match walk es' with
                    | Done more => Done (here ++ more)
                    | Failed e => Failed e
                    end
                | Failed e => Failed e
                end
            end) entries = Failed e) <->
      exists name n' names, In (name, n') entries /\ at_path n' names BadDir).
    { induction IH as [|[name n'] es Hn' _ IHes].
      - split; [intros [e [=]] | intros (name & n' & names & [] & _)].
      - simpl in Hn'. cbv zeta.
        destruct (isDirectory n') eqn:Ed.
        + destruct (walkDir (path_join dir name) n') as [here|e] eqn:Ehere.
          * match goal with
            | |- context [match ?w with Done _ => _ | Failed _ => _ end = _] =>
                destruct w as [more|e'] eqn:Emore
            end.
            -- split; [intros [e [=]]|].
               intros (name' & n'' & names & [[= <- <-] | Hin] & Hat).
               ++ assert (Hf : exists e, walkDir (path_join dir name) n'
                                         = Failed e).
                  { apply Hn'. right; right. exists names; exact Hat. }
                  destruct Hf as [e Hf]. congruence.
               ++ assert (Hf : exists e,
                             @Done (list (jsstring * node)) more = Failed e).
                  { apply IHes. exists name', n'', names. auto. }
                  destruct Hf as [e [=]].
            -- split; [|intros _; eauto].
               intros _.
               assert (Hf : exists e,
                          @Failed (list (jsstring * node)) e' = Failed e)
                 by eauto.
               apply IHes in Hf as (name' & n'' & names & Hin & Hat).
               exists name', n'', names. split; [right; exact Hin | exact Hat].
          * split; [|intros _; eauto]. intros _.
            assert (Hf : exists e', walkDir (path_join dir name) n'
                                    = Failed e') by eauto.
            apply Hn' in Hf as [[content ->] | [-> | [names Hat]]];
              try discriminate.
            exists name, n', names. split; [left; reflexivity | exact Hat].
        + match goal with
          | |- context [match ?w with Done _ => _ | Failed _ => _ end = _] =>
              destruct w as [more|e'] eqn:Emore
          end.
          * split; [intros [e [=]]|].
            intros (name' & n'' & names & [[= <- <-] | Hin] & Hat).
            -- apply (at_path_leaf _ _ _ Ed) in Hat as [_ <-]. discriminate.
            -- assert (Hf : exists e,
                          @Done (list (jsstring * node)) more = Failed e).
               { apply IHes. exists name', n'', names. auto. }
               destruct Hf as [e [=]].
          * split; [|intros _; eauto]. intros _.
            assert (Hf : exists e,
                       @Failed (list (jsstring * node)) e' = Failed e)
              by eauto.
            apply IHes in Hf as (name' & n'' & names & Hin & Hat).
            exists name', n'', names. split; [right; exact Hin | exact Hat]. }
    rewrite Hes. split.
    + intros (name & n' & names & Hin & Hat). right; right.
      exists (name :: names). econstructor; eassumption.
    + intros [[content [=]] | [[=] | [names Hat]]].
      inversion Hat; subst. eauto.
  - split; [intros _; right; left; reflexivity | intros _; eauto].
  - split; [intros _ | intros _; eauto]. right; right.
    exists []. constructor.
Qed.

(* ------------------------------------------------------------------ *)
(** ** Eligible source files                                           *)
(* ------------------------------------------------------------------ *)

Lemma search_complete (r : Re.regex) (suffix : jsstring) :
  forall (stem : jsstring) (i : nat),
    (exists st, Re.match_at r (i + length stem) suffix = Some st) ->
    exists st, Re.search r i (stem ++ suffix) = Some st.
Proof.
  induction stem as [|c stem IH]; intros i [st H].
  - rewrite Nat.add_0_r in H. simpl.
    destruct suffix; simpl; rewrite H; eauto.
  - simpl.
    destruct (Re.match_at r i (c :: stem ++ suffix)) as [st'|]; [eauto|].
    apply IH. exists st.
    replace (S i + length stem) with (i + length (c :: stem))
      by (simpl; lia).
    exact H.
Qed.

Lemma excluded_pattern_complete (word stem ext : jsstring) :
  In word [js "stories"; js "test"; js "spec"] ->
  In ext [js "ts"; js "tsx"; js "js"; js "jsx"] ->
  Re.test (excluded_pattern word) (stem ++ js "." ++ word ++ js "." ++ ext)
  = true.
Proof.
  intros Hword Hext. unfold Re.test, Re.exec.
  destruct (search_complete (excluded_pattern word)
              (js "." ++ word ++ js "." ++ ext) stem 0) as [st ->];
    [|reflexivity].
  simpl in Hword, Hext.
  destruct Hword as [<- | [<- | [<- | []]]];
    destruct Hext as [<- | [<- | [<- | [<- | []]]]];
    eexists; reflexivity.
Qed.

Lemma excluded_pattern_sound (word p : jsstring) :
  Re.test (excluded_pattern word) p = true ->
  exists stem ext,
    In ext [js "ts"; js "tsx"; js "js"; js "jsx"]
    /\ p = stem ++ js "." ++ word ++ js "." ++ ext.
Proof.
  intros H. apply test_exec in H as [m1 H]. unfold Re.exec in H.
  destruct (Re.search (excluded_pattern word) 0 p) as [st|] eqn:Es;
    [clear H | discriminate].
  apply search_sound in Es as [j Hm]. unfold Re.match_at in Hm.
  apply run_sound in Hm as (st' & Hm & _).
  unfold excluded_pattern in Hm. simpl Re.seq in Hm.
  inversion Hm as [| |? ? ? st1 ? H1 Hm1| | | | | | |]; subst; clear Hm.
  inversion Hm1 as [| |? ? ? st2 ? H2 Hm2| | | | | | |]; subst; clear Hm1.
  inversion Hm2 as [| |? ? ? st3 ? H3 Hm3| | | | | | |]; subst; clear Hm2.
  inversion Hm3 as [| |? ? ? st4 ? H4 Hm4| | | | | | |]; subst; clear Hm3.
  inversion Hm4 as [| |? ? ? st5 ? H5 Hm5| | | | | | |]; subst; clear Hm4.
  inversion Hm5 as [| |? ? ? st6 ? H6 Hm6| | | | | | |]; subst; clear Hm5.
  apply matches_chr in H1 as (c1 & E1 & P1 & _).
  apply matches_str in H2 as (E2 & _).
  apply matches_chr in H3 as (c3 & E3 & P3 & _).
  apply matches_chr in H4 as (c4 & E4 & P4 & _).
  apply matches_chr in H5 as (c5 & E5 & P5 & _).
  inversion Hm6 as [| | | | | | | | |? E7]; subst; clear Hm6.
  apply N.eqb_eq in P1, P3, P5. subst c1 c3 c5.
  simpl in E1. rewrite E2, E3, E4, E5 in E1.
  assert (Hc4 : c4 = 116%N \/ c4 = 106%N).
  { simpl in P4. destruct (N.eqb c4 116) eqn:Et.
    - left. apply N.eqb_eq; exact Et.
    - destruct (N.eqb c4 106) eqn:Ej; [|discriminate].
      right. apply N.eqb_eq; exact Ej. }
  assert (Hp : p = firstn j p ++ skipn j p)
    by (symmetry; apply firstn_skipn).
  rewrite E1 in Hp.
  inversion H6 as [| | |? ? ? ? Hx|? ? ? ? He| | | | |]; subst; clear H6.
  - apply matches_chr in Hx as (c6 & E6 & P6 & _).
    apply N.eqb_eq in P6. subst c6. rewrite E6, E7 in Hp.
    destruct Hc4 as [-> | ->].
    + exists (firstn j p), (js "tsx"). split; [simpl; tauto|].
      simpl in Hp |- *. exact Hp.
    + exists (firstn j p), (js "jsx"). split; [simpl; tauto|].
      simpl in Hp |- *. exact Hp.
  - inversion He; subst. rewrite E7 in Hp.
    destruct Hc4 as [-> | ->].
    + exists (firstn j p), (js "ts"). split; [simpl; tauto|].
      simpl in Hp |- *. exact Hp.
    + exists (firstn j p), (js "js"). split; [simpl; tauto|].
      simpl in Hp |- *. exact Hp.
Qed.

(** X9. A path is an eligible source file exactly when its extension
    is one of [.tsx], [.ts], [.js], [.jsx] or it ends in [.css], and
    it does not end in [.stories], [.test] or [.spec] followed by
    [.ts], [.tsx], [.js] or [.jsx]. *)
Theorem source_file_eligibility (filePath : jsstring) :
  isSourceFile filePath = true <->
  (JsSet.has SOURCE_EXTENSIONS (extname filePath) = true
   \/ Js.endsWith filePath (js ".css") = true)
  /\ ~ (exists stem word ext,
          In word [js "stories"; js "test"; js "spec"]
          /\ In ext [js "ts"; js "tsx"; js "js"; js "jsx"]
          /\ filePath = stem ++ js "." ++ word ++ js "." ++ ext).
Proof.
  assert (Hex :
    existsb (fun pattern => Re.test pattern filePath) EXCLUDED_PATTERNS = true
    <-> exists stem word ext,
          In word [js "stories"; js "test"; js "spec"]
          /\ In ext [js "ts"; js "tsx"; js "js"; js "jsx"]
          /\ filePath = stem ++ js "." ++ word ++ js "." ++ ext).
  { rewrite existsb_exists. split.
    - intros (pattern & Hin & Ht).
      assert (Hw : exists word,
                 In word [js "stories"; js "test"; js "spec"]
                 /\ pattern = excluded_pattern word).
      { unfold EXCLUDED_PATTERNS in Hin.
        destruct Hin as [<- | [<- | [<- | []]]];
          eexists; (split; [|reflexivity]); simpl; tauto. }
      destruct Hw as (word & Hword & ->).
      apply excluded_pattern_sound in Ht as (stem & ext & Hext & Hp).
      exists stem, word, ext. auto.
    - intros (stem & word & ext & Hword & Hext & ->).
      exists (excluded_pattern word). split.
      + unfold EXCLUDED_PATTERNS.
        destruct Hword as [<- | [<- | [<- | []]]]; simpl; tauto.
      + apply excluded_pattern_complete; assumption. }
  unfold isSourceFile.
  destruct (existsb (fun pattern => Re.test pattern filePath)
              EXCLUDED_PATTERNS) eqn:Ee.
  - assert (Hx : exists stem word ext,
               In word [js "stories"; js "test"; js "spec"]
               /\ In ext [js "ts"; js "tsx"; js "js"; js "jsx"]
               /\ filePath = stem ++ js "." ++ word ++ js "." ++ ext)
      by (apply Hex; reflexivity).
    split.
    + destruct (negb (JsSet.has SOURCE_EXTENSIONS (extname filePath))
                && negb (Js.endsWith filePath (js ".css")));
        simpl; intros H; discriminate H.
    + intros [_ H]. exfalso. apply H. exact Hx.
  - assert (Hn : ~ (exists stem word ext,
               In word [js "stories"; js "test"; js "spec"]
               /\ In ext [js "ts"; js "tsx"; js "js"; js "jsx"]
               /\ filePath = stem ++ js "." ++ word ++ js "." ++ ext))
      by (intros H; apply Hex in H; discriminate H).
    destruct (JsSet.has SOURCE_EXTENSIONS (extname filePath));
      destruct (Js.endsWith filePath (js ".css")); simpl; split;
      try (intros H; discriminate H);
      try (intros _; reflexivity);
      try (intros _; split; [solve [auto] | exact Hn]).
    intros [[H | H] _]; discriminate H.
Qed.

(** [path.extname] and [path.basename] look at the last part of the
    path that is not empty, so a trailing slash changes neither; [..]
    and a name that only starts with a dot have no extension. *)
Example paths_with_trailing_slashes :
  basename (js "a.ts/") = js "a.ts"
  /\ extname (js "a.ts/") = js ".ts"
  /\ isSourceFile (js "a.ts/") = true
  /\ isSourceFile (js "a.test.ts/") = true
  /\ isSourceFile (js "a.test.ts") = false
  /\ extname (js "..") = []
  /\ extname (js "dir/..") = []
  /\ extname (js "...") = js "."
  /\ extname (js ".bashrc") = []
  /\ extname (js "dir/b.test.tsx") = js ".tsx"
  /\ basename_ext (js "dir/use-x.ts") (js ".ts") = js "use-x"
  /\ basename_ext (js "dir/use-x.ts//") (js ".ts") = js "use-x"
  /\ basename_ext (js "dir/.ts") (js ".ts") = js ".ts"
  /\ basename_ext (js "aaa/s//") (js ".ts") = js "s//".
Proof. repeat split; vm_compute; reflexivity. Qed.

(* ------------------------------------------------------------------ *)
(** ** Import parsing                                                  *)
(* ------------------------------------------------------------------ *)

Lemma matches_consumes (r : Re.regex) (st st' : Re.mstate) :
  Re.matches r st st' -> exists u, Re.rest st = u ++ Re.rest st'.
Proof.
  induction 1 as [st|p st c s' E _|r1 r2 st st1 st2 _ [u1 E1] _ [u2 E2]
                 |r1 r2 st st' _ IH|r1 r2 st st' _ IH
                 |g r st|g r st st1 st2 _ [u1 E1] _ _ [u2 E2]
                 |r st st' _ [u E]|st _|st _].
  - exists []; reflexivity.
  - exists [c]. rewrite E. reflexivity.
  - exists (u1 ++ u2). rewrite E1, E2, app_assoc. reflexivity.
  - exact IH.
  - exact IH.
  - exists []; reflexivity.
  - exists (u1 ++ u2). rewrite E1, E2, app_assoc. reflexivity.
  - exists u. exact E.
  - exists []; reflexivity.
  - exists []; reflexivity.
Qed.

Lemma firstn_app_diff (A : Type) (a b : list A) :
  firstn (length (a ++ b) - length b) (a ++ b) = a.
Proof.
  rewrite length_app, Nat.add_sub, firstn_app, Nat.sub_diag, firstn_all.
  simpl. apply app_nil_r.
Qed.

Lemma one_of_quotes (q : N) :
  existsb (N.eqb q) quotes = true -> In q quotes.
Proof.
  intros H. apply existsb_exists in H as (x & Hin & Hx).
  apply N.eqb_eq in Hx. subst x. exact Hin.
Qed.

(** What a match of [Q([^Q]+)Q] looks like. *)
Lemma matches_quoted (st1 st2 st3 st4 : Re.mstate) :
  Re.matches quote st1 st2 ->
  Re.matches (Re.Grp (Re.plus not_quote)) st2 st3 ->
  Re.matches quote st3 st4 ->
  exists q1 p q2,
    Re.rest st1 = q1 :: p ++ q2 :: Re.rest st4
    /\ Re.cap st4 = Some p /\ p <> []
    /\ forallb not_a_quote p = true
    /\ In q1 quotes /\ In q2 quotes.
Proof.
  intros H1 H2 H3.
  apply matches_chr in H1 as (q1 & E1 & Hq1 & _).
  apply matches_chr in H3 as (q2 & E3 & Hq2 & Hcap).
  inversion H2 as [| | | | | | |? ? st5 Hplus| |]; subst; clear H2.
  unfold Re.plus in Hplus.
  inversion Hplus as [| |? ? ? st6 ? Hone Hmore| | | | | | |]; subst;
    clear Hplus.
  apply matches_chr in Hone as (c & Ec & Hc & _).
  apply matches_star_chr in Hmore as (u & Eu & Hu & _).
  simpl in E3, Hcap.
  exists q1, (c :: u), q2.
  assert (E2 : Re.rest st2 = (c :: u) ++ Re.rest st5)
    by (rewrite Ec, Eu; reflexivity).
  split; [|split; [|split; [|split; [|split]]]].
  - rewrite E1, E2, E3. reflexivity.
  - rewrite Hcap, E2. f_equal. apply firstn_app_diff.
  - discriminate.
  - change (not_a_quote c && forallb not_a_quote u = true).
    apply andb_true_intro. split; [exact Hc | exact Hu].
  - apply one_of_quotes; exact Hq1.
  - apply one_of_quotes; exact Hq2.
Qed.

Ltac cat_inv H st H1 H2 :=
  inversion H as [| |? ? ? st ? H1 H2| | | | | | |]; subst; clear H.

Lemma matches_staticRe (st st' : Re.mstate) :
  Re.matches staticRe st st' ->
  exists p,
    Re.cap st' = Some p /\ p <> [] /\ forallb not_a_quote p = true
    /\ quoted_after_keyword (Re.rest st) p.
Proof.
  unfold staticRe. cbn [Re.seq]. intros H.
  cat_inv H st1 H1 R1. cat_inv R1 st2 H2 R2. cat_inv R2 st3 H3 R3.
  cat_inv R3 st4 H4 R4. cat_inv R4 st5 H5 R5. cat_inv R5 st6 H6 R6.
  cat_inv R6 st7 H7 H8.
  destruct (matches_quoted _ _ _ _ H6 H7 H8)
    as (q1 & p & q2 & E & Hcap & Hne & Hall & Hq1 & Hq2).
  apply matches_consumes in H1 as [u1 E1].
  apply matches_consumes in H2 as [u2 E2].
  apply matches_consumes in H4 as [u4 E4].
  apply matches_consumes in H5 as [u5 E5].
  assert (Hkw : exists kw, In kw [js "import"; js "export"; js "require"]
                           /\ Re.rest st2 = kw ++ Re.rest st3).
  { inversion H3 as [| | |? ? ? ? Hi|? ? ? ? He| | | | |]; subst.
    - apply matches_str in Hi as [Ei _].
      exists (js "import"). split; [simpl; tauto | exact Ei].
    - apply matches_str in He as [Ee _].
      exists (js "export"). split; [simpl; tauto | exact Ee]. }
  destruct Hkw as (kw & Hkw & E3).
  exists p. repeat (split; [assumption|]).
  exists (u1 ++ u2), kw, (u4 ++ u5), q1, q2, (Re.rest st').
  repeat (split; [assumption|]).
  rewrite E1, E2, E3, E4, E5, E, <- !app_assoc. reflexivity.
Qed.

Lemma matches_dynRe (st st' : Re.mstate) :
  Re.matches dynRe st st' ->
  exists p,
    Re.cap st' = Some p /\ p <> [] /\ forallb not_a_quote p = true
    /\ quoted_after_keyword (Re.rest st) p.
Proof.
  unfold dynRe. cbn [Re.seq]. intros H.
  cat_inv H st1 H1 R1. cat_inv R1 st2 H2 R2. cat_inv R2 st3 H3 R3.
  cat_inv R3 st4 H4 R4. cat_inv R4 st5 H5 R5. cat_inv R5 st6 H6 R6.
  cat_inv R6 st7 H7 R7. cat_inv R7 st8 H8 H9.
  destruct (matches_quoted _ _ _ _ H5 H6 H7)
    as (q1 & p & q2 & E & Hcap & Hne & Hall & Hq1 & Hq2).
  apply matches_consumes in H2 as [u2 E2].
  apply matches_consumes in H3 as [u3 E3].
  apply matches_consumes in H4 as [u4 E4].
  apply matches_star_chr in H8 as (u8 & E8 & _ & Hcap8).
  apply matches_chr in H9 as (c9 & E9 & _ & Hcap9).
  assert (Hkw : exists kw, In kw [js "import"; js "export"; js "require"]
                           /\ Re.rest st = kw ++ Re.rest st1).
  { inversion H1 as [| | |? ? ? ? Hr|? ? ? ? Hi| | | | |]; subst.
    - apply matches_str in Hr as [Er _].
      exists (js "require"). split; [simpl; tauto | exact Er].
    - apply matches_str in Hi as [Ei _].
      exists (js "import"). split; [simpl; tauto | exact Ei]. }
  destruct Hkw as (kw & Hkw & E1).
  exists p. split; [rewrite Hcap9, Hcap8; exact Hcap|].
  repeat (split; [assumption|]).
  exists [], kw, (u2 ++ u3 ++ u4), q1, q2, (u8 ++ c9 :: Re.rest st').
  repeat (split; [assumption|]).
  rewrite E1, E2, E3, E4, E, E8, E9, <- !app_assoc. reflexivity.
Qed.

(** Every value of group 1 collected by the loop over the matches
    comes from a match on a suffix of the input. *)
Lemma exec_loop_captures (r : Re.regex)
  (Q : jsstring -> option jsstring -> Prop) :
  (forall st st', Re.matches r st st' -> Q (Re.rest st) (Re.cap st')) ->
  (forall pre s m, Q s m -> Q (pre ++ s) m) ->
  forall n i s m, In m (Re.exec_loop n r i s) -> Q s m.
Proof.
  intros Hmatch Hmono.
  induction n as [|n IH]; intros i s m Hin; simpl in Hin; [contradiction|].
  destruct (Re.search r i s) as [st|] eqn:Es; [|contradiction].
  apply search_sound in Es as [j Hm]. unfold Re.match_at in Hm.
  apply run_sound in Hm as (st' & Hm & [= ->]).
  rewrite <- (firstn_skipn j s). apply Hmono.
  destruct Hin as [<- | Hin].
  - apply Hmatch in Hm. exact Hm.
  - destruct (length (Re.rest st) <? length s); [|contradiction].
    apply IH in Hin.
    apply matches_consumes in Hm as [u E]. simpl in E.
    rewrite E. apply Hmono. exact Hin.
Qed.

Lemma add_captures_In (ms : list (option jsstring)) :
  forall (results : JsSet.t) (p : jsstring),
    In p (add_captures results ms) <-> In p results \/ In (Some p) ms.
Proof.
  unfold add_captures.
  induction ms as [|[q|] ms IH]; intros results p; simpl.
  - tauto.
  - rewrite IH, set_add_In. split.
    + intros [[H | ->] | H]; auto.
    + intros [H | [[= ->] | H]]; auto.
  - rewrite IH. split.
    + intros [H | H]; auto.
    + intros [H | [[=] | H]]; auto.
Qed.

Lemma add_captures_NoDup (ms : list (option jsstring)) :
  forall (results : JsSet.t),
    NoDup results -> NoDup (add_captures results ms).
Proof.
  unfold add_captures.
  induction ms as [|[q|] ms IH]; intros results H; simpl.
  - exact H.
  - apply IH, set_add_NoDup, H.
  - apply IH, H.
Qed.

(** X10. The import paths extracted from a source text are pairwise
    distinct; each is non-empty, holds no quote character, and stands
    in the text between two quote characters (not necessarily the same
    one) after one of the words [import], [export] and [require]. *)
Theorem extracted_import_paths (source : jsstring) :
  NoDup (extractImportPaths source)
  /\ forall p,
       In p (extractImportPaths source) ->
       p <> [] /\ forallb not_a_quote p = true
       /\ quoted_after_keyword source p.
Proof.
  unfold extractImportPaths. split.
  - apply add_captures_NoDup, add_captures_NoDup. constructor.
  - intros p Hin.
    set (Q := fun (s : jsstring) (m : option jsstring) =>
                exists p, m = Some p /\ p <> []
                          /\ forallb not_a_quote p = true
                          /\ quoted_after_keyword s p).
    assert (Hmono : forall pre s m, Q s m -> Q (pre ++ s) m).
    { intros pre s m (p' & -> & Hne & Hall & Hq).
      exists p'. repeat (split; [assumption || reflexivity|]).
      destruct Hq as (before & kw & mid & q1 & q2 & after
                      & Hkw & Hq1 & Hq2 & ->).
      exists (pre ++ before), kw, mid, q1, q2, after.
      repeat (split; [assumption|]).
      rewrite <- app_assoc. reflexivity. }
    assert (HQ : Q source (Some p)).
    { apply add_captures_In in Hin as [Hin | Hin].
      - apply add_captures_In in Hin as [[] | Hin].
        apply (exec_loop_captures staticRe Q) in Hin; [exact Hin| |exact Hmono].
        intros st st' Hm. apply matches_staticRe in Hm as (p' & Hcap & Hrest).
        exists p'. split; [exact Hcap | exact Hrest].
      - apply (exec_loop_captures dynRe Q) in Hin; [exact Hin| |exact Hmono].
        intros st st' Hm. apply matches_dynRe in Hm as (p' & Hcap & Hrest).
        exists p'. split; [exact Hcap | exact Hrest]. }
    destruct HQ as (p' & [= <-] & Hrest). exact Hrest.
Qed.

(* ------------------------------------------------------------------ *)
(** ** The item of one entity                                          *)
(* ------------------------------------------------------------------ *)

Lemma set_add_all_In (other : JsSet.t) :
  forall (s : JsSet.t) (x : jsstring),
    In x (JsSet.add_all s other) <-> In x s \/ In x other.
Proof.
  unfold JsSet.add_all.
  induction other as [|y other IH]; intros s x; simpl.
  - tauto.
  - rewrite IH, set_add_In. split.
    + intros [[H | ->] | H]; auto.
    + intros [H | [-> | H]]; auto.
Qed.

Lemma field_elements_sorted (s : JsSet.t) (x : jsstring) :
  In x (field_elements (sorted_field s)) <-> In x s.
Proof.
  destruct (sorted_field s) as [l|] eqn:E; simpl.
  - apply sorted_field_elements in E. split; intros H.
    + eapply Permutation_in; [exact E | exact H].
    + eapply Permutation_in; [apply Permutation_sym; exact E | exact H].
  - apply sorted_field_omitted in E. subst s. tauto.
Qed.

Section Item.
Context {runtime : Runtime}.

Lemma visit_file_step (categoryName entityName : jsstring)
  (category : Category) (packageMap index : JsMap.t jsstring)
  (acc acc' : FileDeps * list RegistryFile) (f : jsstring * node)
  (tr tr' : list event) :
  visit_file categoryName entityName category packageMap index acc f tr
  = (Ok acc', tr') ->
  exists content,
    snd f = File content /\ tr' = tr
    /\ acc' = ((if negb (Js.endsWith (fst f) (js ".css"))
                then merge (fst acc) (analyzeFile content packageMap index)
                else fst acc),
               snd acc
               ++ [registry_file categoryName entityName category (fst f)]).
Proof.
  unfold visit_file, bind, lift, ret, readFileSync.
  destruct (snd f) as [content| | |]; try discriminate.
  intros [= <- <-]. exists content. auto.
Qed.

Section OneField.
Variable proj : FileDeps -> JsSet.t.
Variable kind : jsstring -> classification.
Variables packageMap index : JsMap.t jsstring.
Hypothesis proj_merge :
  forall all d x, In x (proj (merge all d)) <-> In x (proj all) \/ In x (proj d).
Hypothesis proj_analyze :
  forall importPaths x,
    In x (proj (analyzeImports packageMap index importPaths)) <->
    exists p, In p importPaths /\ classify packageMap index p = kind x.

Lemma visit_files_field (categoryName entityName : jsstring)
  (category : Category) (sources : list (jsstring * node)) :
  forall (acc acc' : FileDeps * list RegistryFile) (tr tr' : list event),
    for_each sources
      (visit_file categoryName entityName category packageMap index)
      acc tr = (Ok acc', tr') ->
    forall x,
      In x (proj (fst acc')) <->
      In x (proj (fst acc))
      \/ exists p, analysed_import sources p
                   /\ classify packageMap index p = kind x.
Proof.
  induction sources as [|[absPath n] sources IH];
    intros acc acc' tr tr' H x; simpl in H.
  - injection H as <- _. split; [auto|].
    intros [H | (p & (a & c & [] & _) & _)]; exact H.
  - split_bind H.
    apply visit_file_step in E as (content & Hn & -> & ->).
    simpl in Hn. subst n. cbn [fst] in H.
    rewrite (IH _ _ _ _ H x). cbn [fst].
    destruct (Js.endsWith absPath (js ".css")) eqn:Ecss; cbn [negb].
    + split.
      * intros [Hacc | (p & (a & c & Hin & Hrest) & Hk)]; [auto|].
        right. exists p. split; [|exact Hk].
        exists a, c. split; [right; exact Hin | exact Hrest].
      * intros [Hacc | (p & (a & c & [[= <- <-] | Hin] & Hc & Hp) & Hk)];
          [auto | congruence |].
        right. exists p. split; [|exact Hk]. exists a, c. auto.
    + rewrite proj_merge. unfold analyzeFile. rewrite proj_analyze. split.
      * intros [[Hacc | (p & Hp & Hk)] | (p & (a & c & Hin & Hrest) & Hk)].
        -- auto.
        -- right. exists p. split; [|exact Hk].
           exists absPath, content. split; [left; reflexivity | auto].
        -- right. exists p. split; [|exact Hk].
           exists a, c. split; [right; exact Hin | exact Hrest].
      * intros [Hacc | (p & (a & c & [[= <- <-] | Hin] & Hc & Hp) & Hk)].
        -- auto.
        -- left; right. exists p. auto.
        -- right. exists p. split; [|exact Hk]. exists a, c. auto.
Qed.

End OneField.

Lemma visit_files_files (categoryName entityName : jsstring)
  (category : Category) (packageMap index : JsMap.t jsstring)
  (sources : list (jsstring * node)) :
  forall (acc acc' : FileDeps * list RegistryFile) (tr tr' : list event),
    for_each sources
      (visit_file categoryName entityName category packageMap index)
      acc tr = (Ok acc', tr') ->
    tr' = tr
    /\ Forall (fun f => exists content, snd f = File content) sources
    /\ snd acc'
       = snd acc
         ++ map (fun f => registry_file categoryName entityName category
                            (fst f)) sources.
Proof.
  induction sources as [|f sources IH]; intros acc acc' tr tr' H;
    simpl in H.
  - injection H as <- <-. rewrite app_nil_r. auto.
  - split_bind H.
    apply visit_file_step in E as (content & Hn & -> & ->).
    apply IH in H as (-> & Hall & ->). cbn [snd].
    split; [reflexivity|]. split.
    + constructor; [exists content; exact Hn | exact Hall].
    + simpl. rewrite <- app_assoc. reflexivity.
Qed.

(** X11. An item produced for an entity is assembled from the walk of
    its directory: its files are the eligible source files in walk
    order, all of them readable and at least one; its [dependencies]
    are the package specifications, and its [registryDependencies] the
    catalog names other than its own, that the import paths of the
    files that are not style sheets classify to; the only diagnostic
    is the warning that lists the unresolved package names, given
    when there is one. *)
Theorem entity_item_contents
  (categoryName entityName entityDir : jsstring) (dir : node)
  (category : Category) (packageMap index : JsMap.t jsstring)
  (tr tr' : list event) (item : RegistryItem) :
  processEntity categoryName entityName entityDir dir category packageMap
    index tr = (Ok (Some item), tr') ->
  exists walked unknown,
    let sources := filter (fun f => isSourceFile (fst f)) walked in
    walkDir entityDir dir = Done walked
    /\ sources <> []
    /\ Forall (fun f => exists content, snd f = File content) sources
    /\ item_files item
       = map (fun f => registry_file categoryName entityName category (fst f))
           sources
    /\ (forall spec,
          In spec (field_elements (item_dependencies item)) <->
          exists p, analysed_import sources p
                    /\ classify packageMap index p = Package spec)
    /\ (forall name,
          In name (field_elements (item_registryDependencies item)) <->
          name <> toKebabCase entityName
          /\ exists p, analysed_import sources p
                       /\ classify packageMap index p = Catalog name)
    /\ (forall pkgName,
          In pkgName unknown <->
          exists p, analysed_import sources p
                    /\ classify packageMap index p = Unresolved pkgName)
    /\ tr' = tr ++ match unknown with
                   | [] => []
                   | _ :: _ => [WarnUnknownPkgs categoryName entityName unknown]
                   end.
Proof.
  intros H. unfold processEntity in H. split_bind H.
  rename a into walked.
  assert (Hl : l = tr).
  { unfold lift in E. destruct (walkDir entityDir dir); [|discriminate].
    injection E as _ <-. reflexivity. }
  apply lift_done in E. subst l.
  destruct (length (filter (fun f => isSourceFile (fst f)) walked) =? 0)
    eqn:Elen.
  { split_bind H. }
  split_bind H. rename a into r. rename E0 into Efiles.
  pose proof (visit_files_files _ _ _ _ _ _ _ _ _ _ Efiles)
    as (Htr & Hread & Hfiles).
  rewrite Htr in H.
  assert (Hitem : item = build_item entityName category (fst r) (snd r)
                  /\ tr' = tr ++ match unresolved (fst r) with
                                 | [] => []
                                 | _ :: _ =>
                                     [WarnUnknownPkgs categoryName entityName
                                        (unresolved (fst r))]
                                 end).
  { destruct (unresolved (fst r)) as [|u us]; simpl in H.
    - unfold bind, ret in H. injection H as <- <-.
      rewrite app_nil_r. split; [reflexivity | congruence].
    - unfold bind, emit, ret in H. injection H as <- <-.
      split; [reflexivity | congruence]. }
  assert (Hnpm := visit_files_field npm Package packageMap index
    (fun all d x => set_add_all_In (npm d) (npm all) x)
    (fun paths x =>
       proj1 (analyzeImports_sets packageMap index paths) x)
    categoryName entityName category _ _ _ _ _ Efiles).
  assert (Hreg := visit_files_field registry Catalog packageMap index
    (fun all d x => set_add_all_In (registry d) (registry all) x)
    (fun paths x =>
       proj1 (proj2 (analyzeImports_sets packageMap index paths)) x)
    categoryName entityName category _ _ _ _ _ Efiles).
  assert (Hunr := visit_files_field unresolved Unresolved packageMap index
    (fun all d x => set_add_all_In (unresolved d) (unresolved all) x)
    (fun paths x =>
       proj1 (proj2 (proj2 (analyzeImports_sets packageMap index paths))) x)
    categoryName entityName category _ _ _ _ _ Efiles).
  cbn [fst no_deps npm registry unresolved] in Hnpm, Hreg, Hunr.
  exists walked, (unresolved (fst r)). cbv zeta.
  split; [exact E|]. split.
  { intros Hnil. rewrite Hnil in Elen. discriminate. }
  split; [exact Hread|].
  destruct Hitem as [-> ->].
  split; [exact Hfiles|]. split; [|split; [|split; [|reflexivity]]].
  - intros spec. cbn [build_item item_dependencies].
    rewrite field_elements_sorted, Hnpm. split.
    + intros [[] | Hx]; exact Hx.
    + auto.
  - intros name. cbn [build_item item_registryDependencies].
    rewrite field_elements_sorted, set_delete_In, Hreg. split.
    + intros [[[] | Hx] Hne]; auto.
    + intros [Hne Hx]; auto.
  - intros pkgName. rewrite Hunr. split.
    + intros [[] | Hx]; exact Hx.
    + auto.
Qed.

End Item.

Lemma entity_item_contents_witness :
  exists item,
    card_run = (Ok (Some item), [])
    /\ exists walked,
        walkDir (js "/repo/registry/components/card") card_dir = Done walked
        /\ item_files item
           = map (fun f =>
                    @registry_file Ascii_runtime.instance (js "components")
                      (js "card") components (fst f))
               (filter (fun f => isSourceFile (fst f)) walked).
Proof.
  eexists. split; [vm_compute; reflexivity|].
  destruct (@entity_item_contents Ascii_runtime.instance
              (js "components") (js "card")
              (js "/repo/registry/components/card") card_dir components
              (buildPackageMap pkg_three_sections) card_index [] [] _
              eq_refl)
    as (walked & unknown & Hwalk & _ & _ & Hfiles & _).
  exists walked. split; assumption.
Defined.

(* ------------------------------------------------------------------ *)
(** ** The command line                                                *)
(* ------------------------------------------------------------------ *)

Lemma parse_bare_fold (w : World) (target : jsstring)
  (categories : list jsstring) :
  forall (acc r : JsSet.t * bool),
    fold_left
      (fun (acc : JsSet.t * bool) (category : jsstring) =>
         if target_exists w category target
         then (JsSet.add (fst acc) (category ++ js "/" ++ target), true)
         else acc)
      categories acc = r ->
    snd r
    = snd acc || existsb (fun c => target_exists w c target) categories
    /\ (NoDup (fst acc) -> NoDup (fst r))
    /\ forall t,
         In t (fst r) <->
         In t (fst acc)
         \/ exists c, In c categories /\ target_exists w c target = true
                      /\ t = c ++ js "/" ++ target.
Proof.
  induction categories as [|c cs IH]; intros acc r H; simpl in H.
  - subst r. rewrite orb_false_r. split; [reflexivity|].
    split; [auto|]. intros t. split; [auto|].
    intros [H | (c & [] & _)]; exact H.
  - apply IH in H as (Hfound & Hnd & Hin). cbn [existsb].
    destruct (target_exists w c target) eqn:Ec; cbn [fst snd] in *.
    + split; [rewrite Hfound; destruct (snd acc); reflexivity|].
      split; [intros H; apply Hnd, set_add_NoDup, H|].
      intros t. rewrite Hin, set_add_In. split.
      * intros [[H | ->] | (c' & Hc' & Hrest)].
        -- auto.
        -- right. exists c. split; [left; reflexivity | auto].
        -- right. exists c'. split; [right; exact Hc' | exact Hrest].
      * intros [H | (c' & [<- | Hc'] & He & ->)].
        -- auto.
        -- auto.
        -- right. exists c'. auto.
    + split; [exact Hfound|]. split; [exact Hnd|].
      intros t. rewrite Hin. split.
      * intros [H | (c' & Hc' & Hrest)]; [auto|].
        right. exists c'. split; [right; exact Hc' | exact Hrest].
      * intros [H | (c' & [<- | Hc'] & He & ->)].
        -- auto.
        -- congruence.
        -- right. exists c'. auto.
Qed.

Lemma parse_target_step (w : World) (targets : JsSet.t) (target : jsstring)
  (tr : list event) :
  exists targets',
    parse_target w targets target tr
    = (Ok targets',
       tr ++ (if unmatched w target then [WarnTargetNotFound target] else []))
    /\ (NoDup targets -> NoDup targets')
    /\ forall t,
         In t targets' <->
         In t targets
         \/ (Js.includes target Js.slash = true /\ t = target)
         \/ (Js.includes target Js.slash = false
             /\ exists c, In c (map fst ENTITY_CATEGORIES)
                          /\ target_exists w c target = true
                          /\ t = c ++ js "/" ++ target).
Proof.
  unfold parse_target, unmatched.
  destruct (Js.includes target Js.slash) eqn:Ei; cbn [negb andb].
  - exists (JsSet.add targets target). unfold ret. rewrite app_nil_r.
    split; [reflexivity|]. split; [apply set_add_NoDup|].
    intros t. rewrite set_add_In. split.
    + intros [H | ->]; auto.
    + intros [H | [[_ ->] | [H _]]]; auto. discriminate.
  - cbv zeta.
    destruct (fold_left _ (map fst ENTITY_CATEGORIES) (targets, false))
      as [targets' found] eqn:Ef.
    apply parse_bare_fold in Ef as (Hfound & Hnd & Hin).
    cbn [fst snd orb] in Hfound, Hnd, Hin. rewrite <- Hfound.
    exists targets'. split.
    + destruct found; cbn [negb]; unfold bind, emit, ret;
        [rewrite app_nil_r|]; reflexivity.
    + split; [exact Hnd|]. intros t. rewrite Hin. split.
      * intros [H | H]; auto.
      * intros [H | [[H _] | [_ H]]]; auto. discriminate.
Qed.

Lemma parse_targets_all (w : World) (args : list jsstring) :
  forall (targets : JsSet.t) (tr : list event),
    exists targets',
      for_each args (parse_target w) targets tr
      = (Ok targets',
         tr ++ map WarnTargetNotFound (filter (unmatched w) args))
      /\ (NoDup targets -> NoDup targets')
      /\ forall t,
           In t targets' <->
           In t targets
           \/ (In t args /\ Js.includes t Js.slash = true)
           \/ exists c bare,
                In c (map fst ENTITY_CATEGORIES) /\ In bare args
                /\ Js.includes bare Js.slash = false
                /\ target_exists w c bare = true
                /\ t = c ++ js "/" ++ bare.
Proof.
  induction args as [|a args IH]; intros targets tr; simpl.
  - exists targets. unfold ret. rewrite app_nil_r.
    split; [reflexivity|]. split; [auto|].
    intros t. split; [auto|].
    intros [H | [[[] _] | (c & bare & _ & [] & _)]]; exact H.
  - destruct (parse_target_step w targets a tr)
      as (targets1 & E1 & Hnd1 & Hin1).
    destruct (IH targets1
                (tr ++ (if unmatched w a then [WarnTargetNotFound a] else [])))
      as (targets' & E & Hnd & Hin).
    exists targets'. split; [|split].
    + unfold bind. rewrite E1, E. f_equal.
      rewrite <- app_assoc. f_equal.
      destruct (unmatched w a); reflexivity.
    + auto.
    + intros t. rewrite Hin, Hin1. split.
      * intros [[H | [[Hi ->] | (Hi & c & Hc & He & ->)]]
               | [[H Hi] | (c & bare & Hc & Hb & Hrest)]].
        -- auto.
        -- right; left. auto.
        -- right; right. exists c, a. auto 6.
        -- right; left. auto.
        -- right; right. exists c, bare. auto 6.
      * intros [H | [[[<- | H] Hi] | (c & bare & Hc & [<- | Hb] & Hi & He & ->)]].
        -- auto.
        -- left; right; left. auto.
        -- right; left. auto.
        -- left; right; right. split; [exact Hi|]. exists c. auto.
        -- right; right. exists c, bare. auto 6.
Qed.

(** X12. Parsing the command line always succeeds.  The targets are
    pairwise distinct and are exactly the positional arguments that
    hold a [/], and [category/name] for each positional argument
    [name] without [/] and each configured category under which
    [name] exists; the diagnostics are one warning, in command-line
    order, for each positional argument without [/] that no category
    holds. *)
Theorem parsed_targets (w : World) (tr : list event) :
  exists options,
    parseArgs w tr
    = (Ok options,
       tr ++ map WarnTargetNotFound (filter (unmatched w) (positional w)))
    /\ noOverride options
       = existsb (Js.eqb (js "--no-override")) (skipn 2 (argv w))
    /\ NoDup (targets options)
    /\ forall t,
         In t (targets options) <->
         (In t (positional w) /\ Js.includes t Js.slash = true)
         \/ exists c bare,
              In c (map fst ENTITY_CATEGORIES) /\ In bare (positional w)
              /\ Js.includes bare Js.slash = false
              /\ target_exists w c bare = true
              /\ t = c ++ js "/" ++ bare.
Proof.
  destruct (parse_targets_all w (positional w) JsSet.empty tr)
    as (targets' & E & Hnd & Hin).
  exists {| noOverride :=
              existsb (Js.eqb (js "--no-override")) (skipn 2 (argv w));
            targets := targets' |}.
  split; [|split; [reflexivity | split]].
  - unfold parseArgs, bind. fold (positional w). rewrite E. reflexivity.
  - apply Hnd. constructor.
  - intros t. cbn [targets]. rewrite Hin. split.
    + intros [[] | H]; exact H.
    + auto.
Qed.

(** X13. When the command line names targets, an entity whose name
    holds no [/] is selected only through its [category/name] form:
    no target is ever equal to such a name. *)
Theorem bare_name_never_selects (w : World) (tr tr' : list event)
  (options : CliOptions) (categoryName entityName : jsstring) :
  parseArgs w tr = (Ok options, tr') ->
  Js.includes entityName Js.slash = false ->
  JsSet.has (targets options) entityName = false
  /\ selected options categoryName entityName
     = (JsSet.size (targets options) =? 0)
       || JsSet.has (targets options) (categoryName ++ js "/" ++ entityName).
Proof.
  intros Hparse Hbare.
  assert (Hno : JsSet.has (targets options) entityName = false).
  { destruct (JsSet.has (targets options) entityName) eqn:Eh; [|reflexivity].
    apply set_has_In in Eh.
    destruct (parse_targets_all w (positional w) JsSet.empty tr)
      as (targets' & E & _ & Hin).
    unfold parseArgs, bind in Hparse. fold (positional w) in Hparse.
    rewrite E in Hparse. unfold ret in Hparse. injection Hparse as <- _.
    cbn [targets] in Eh. apply Hin in Eh
      as [[] | [[_ Hi] | (c & bare & _ & _ & _ & _ & ->)]].
    - congruence.
    - unfold Js.includes in Hbare. rewrite existsb_app in Hbare.
      simpl in Hbare. rewrite orb_true_r in Hbare. discriminate. }
  split; [exact Hno|].
  unfold selected. rewrite Hno, orb_false_r.
  destruct (JsSet.size (targets options) =? 0); reflexivity.
Qed.

Lemma bare_name_never_selects_witness :
  parseArgs world_button_target []
  = (Ok {| noOverride := false; targets := [js "components/button"] |}, [])
  /\ JsSet.has [js "components/button"] (js "button") = false
  /\ selected {| noOverride := false; targets := [js "components/button"] |}
       (js "components") (js "button") = true.
Proof.
  split; [vm_compute; reflexivity|].
  destruct (bare_name_never_selects world_button_target [] []
              {| noOverride := false; targets := [js "components/button"] |}
              (js "components") (js "button") eq_refl eq_refl)
    as [Hno Hsel].
  split; [exact Hno|]. rewrite Hsel. reflexivity.
Defined.

(* ------------------------------------------------------------------ *)
(** ** The persisted items                                             *)
(* ------------------------------------------------------------------ *)

Lemma map_set_keys (V : Type) (m : JsMap.t V) (k : jsstring) (v : V) :
  JsMap.keys (JsMap.set m k v)
  = JsMap.keys m ++ (if JsMap.has m k then [] else [k]).
Proof.
  unfold JsMap.keys, JsMap.has.
  induction m as [|[k' v'] m IH]; simpl; [reflexivity|].
  destruct (Js.eqb k k') eqn:E; simpl.
  - rewrite app_nil_r. reflexivity.
  - rewrite IH. reflexivity.
Qed.

Lemma map_set_In (V : Type) (m : JsMap.t V) (k k' : jsstring) (v v' : V) :
  In (k', v') (JsMap.set m k v) -> (k' = k /\ v' = v) \/ In (k', v') m.
Proof.
  induction m as [|[k0 v0] m IH]; simpl.
  - intros [[= <- <-] | []]. left; auto.
  - destruct (Js.eqb k k0) eqn:E; simpl.
    + apply eqb_eq in E. subst k0.
      intros [[= <- <-] | H]; [left; auto | right; right; exact H].
    + intros [H | H]; [right; left; exact H|].
      apply IH in H as [H | H]; [left; exact H | right; right; exact H].
Qed.

Lemma of_entries_snoc (V : Type) (entries : list (jsstring * V))
  (e : jsstring * V) :
  JsMap.of_entries (entries ++ [e])
  = JsMap.set (JsMap.of_entries entries) (fst e) (snd e).
Proof.
  unfold JsMap.of_entries. rewrite fold_left_app. reflexivity.
Qed.

Lemma of_entries_get (V : Type) (entries : list (jsstring * V))
  (k : jsstring) :
  JsMap.get (JsMap.of_entries entries) k
  = option_map snd (find (fun e => Js.eqb k (fst e)) (rev entries)).
Proof.
  induction entries as [|e entries IH] using rev_ind; [reflexivity|].
  rewrite of_entries_snoc, rev_app_distr. simpl.
  destruct (Js.eqb k (fst e)) eqn:E.
  - apply eqb_eq in E. subst k. apply map_get_set_same.
  - rewrite map_get_set_other; [exact IH|].
    intros Heq. subst k. rewrite eqb_refl in E. discriminate.
Qed.

Lemma of_entries_keys (V : Type) (entries : list (jsstring * V)) :
  NoDup (JsMap.keys (JsMap.of_entries entries)).
Proof.
  induction entries as [|e entries IH] using rev_ind; [constructor|].
  rewrite of_entries_snoc, map_set_keys.
  destruct (JsMap.has (JsMap.of_entries entries) (fst e)) eqn:E.
  - rewrite app_nil_r. exact IH.
  - apply NoDup_app; [exact IH | repeat constructor; intros [] |].
    intros k Hk [<- | []]. apply map_has_In in Hk. congruence.
Qed.

Lemma of_entries_In (V : Type) (entries : list (jsstring * V))
  (k : jsstring) (v : V) :
  In (k, v) (JsMap.of_entries entries) -> In (k, v) entries.
Proof.
  induction entries as [|e entries IH] using rev_ind; [intros []|].
  rewrite of_entries_snoc. intros H. apply in_or_app.
  apply map_set_In in H as [[-> ->] | H].
  - right. left. destruct e; reflexivity.
  - left. apply IH, H.
Qed.

Lemma map_In_get (V : Type) (m : JsMap.t V) (k : jsstring) (v : V) :
  NoDup (JsMap.keys m) -> In (k, v) m -> JsMap.get m k = Some v.
Proof.
  unfold JsMap.keys.
  induction m as [|[k' v'] m IH]; simpl; [intros _ []|].
  intros Hnd [[= -> ->] | Hin].
  - rewrite eqb_refl. reflexivity.
  - destruct (Js.eqb k k') eqn:E.
    + apply eqb_eq in E. subst k'. exfalso.
      inversion Hnd as [|? ? Hn _]. apply Hn.
      apply in_map_iff. exists (k, v). auto.
    + apply IH; [inversion Hnd; assumption | exact Hin].
Qed.

Lemma persisted_index_keys (existingRegistry : option Registry) :
  NoDup (JsMap.keys (persisted_index existingRegistry)).
Proof. unfold persisted_index. apply of_entries_keys. Qed.

Lemma persisted_index_entry (existingRegistry : option Registry)
  (name : jsstring) (item : RegistryItem) :
  In (name, item) (persisted_index existingRegistry) ->
  name = item_name item /\ In item (persisted_list existingRegistry).
Proof.
  unfold persisted_index. intros H. apply of_entries_In in H.
  apply in_map_iff in H as (item' & [= <- <-] & Hin). auto.
Qed.

(** The index answers the last listed item of a name. *)
Lemma persisted_index_get (existingRegistry : option Registry)
  (name : jsstring) :
  JsMap.get (persisted_index existingRegistry) name
  = find (fun item => Js.eqb name (item_name item))
      (rev (persisted_list existingRegistry)).
Proof.
  unfold persisted_index.
  generalize (persisted_list existingRegistry) as items. intros items.
  rewrite of_entries_get, <- map_rev.
  induction (rev items) as [|item l IH]; simpl; [reflexivity|].
  destruct (Js.eqb name (item_name item)); [reflexivity | exact IH].
Qed.

(** The values of the index are the listed items that no later item of
    the same name follows. *)
Lemma persisted_index_values (existingRegistry : option Registry)
  (old : RegistryItem) :
  In old (JsMap.values (persisted_index existingRegistry))
  <-> find (fun item => Js.eqb (item_name old) (item_name item))
        (rev (persisted_list existingRegistry)) = Some old.
Proof.
  rewrite <- persisted_index_get. split.
  - intros H. unfold JsMap.values in H.
    apply in_map_iff in H as ([k v] & Hv & Hin). simpl in Hv. subst v.
    destruct (persisted_index_entry _ _ _ Hin) as [-> _].
    apply map_In_get; [apply persisted_index_keys | exact Hin].
  - apply map_get_In.
Qed.

(** Where the listed names are pairwise distinct, the index holds the
    listed items, in their order. *)
Lemma persisted_index_distinct (existingRegistry : option Registry) :
  NoDup (map item_name (persisted_list existingRegistry)) ->
  JsMap.values (persisted_index existingRegistry)
  = persisted_list existingRegistry.
Proof.
  intros Hnd. unfold persisted_index. rewrite of_entries_distinct.
  - unfold JsMap.values. rewrite map_map. simpl. apply map_id.
  - rewrite map_map. simpl. exact Hnd.
Qed.

Lemma item_entries_elements (elements : list (option RegistryItem))
  (entries : list (jsstring * RegistryItem)) :
  item_entries elements = Done entries ->
  elements
  = map Some
      (flat_map
         (fun element =>
            match element with Some item => [item] | None => [] end)
         elements).
Proof.
  revert entries.
  induction elements as [|[item|] elements IH]; intros entries H;
    simpl in H; [reflexivity | | discriminate].
  destruct (item_entries elements) as [entries'|e] eqn:E; [|discriminate].
  simpl. f_equal. exact (IH entries' eq_refl).
Qed.

(** X14. The persisted items are indexed by their [name].  The index
    is built unless [items] is something else than an array or holds
    [null], which ends in a [TypeError].  When it is built, [items] is
    absent or the array of the listed items, the keys of the index are
    pairwise distinct, every entry is a listed item under its own name,
    and where the manifest lists several items of one name the index
    answers the last of them. *)
Theorem persisted_items_by_name (existingRegistry : option Registry) :
  let items := persisted_list existingRegistry in
  match existing_items existingRegistry with
  | Done index =>
      NoDup (JsMap.keys index)
      /\ (forall name item,
            In (name, item) index -> name = item_name item /\ In item items)
      /\ (forall name,
            JsMap.get index name
            = find (fun item => Js.eqb name (item_name item)) (rev items))
      /\ (forall item,
            In item items -> JsMap.has index (item_name item) = true)
      /\ match existingRegistry with
         | Some r => reg_items r = NoItems \/ reg_items r = listed items
         | None => True
         end
  | Failed e =>
      e = TypeError
      /\ exists r,
           existingRegistry = Some r
           /\ (reg_items r = NotAnArray
               \/ exists elements,
                    reg_items r = ItemArray elements /\ In None elements)
  end.
Proof.
  cbv zeta.
  destruct (existing_items existingRegistry) as [index|e] eqn:E.
  - pose proof (existing_items_done _ _ E) as ->.
    split; [apply persisted_index_keys|].
    split; [apply persisted_index_entry|].
    split; [apply persisted_index_get|]. split.
    + intros item Hin. apply map_has_some. rewrite persisted_index_get.
      apply in_rev in Hin.
      induction (rev (persisted_list existingRegistry)) as [|item' l IH];
        simpl; [contradiction|].
      destruct (Js.eqb (item_name item) (item_name item')) eqn:E'.
      * eexists; reflexivity.
      * destruct Hin as [-> | Hin]; [|exact (IH Hin)].
        rewrite eqb_refl in E'. discriminate.
    + destruct existingRegistry as [r|]; [|exact I].
      unfold existing_items in E. cbv zeta in E.
      unfold persisted_list, listed.
      destruct (reg_items r) as [|elements|];
        [left; reflexivity | | discriminate].
      right. destruct (item_entries elements) eqn:Ee; [|discriminate].
      f_equal. eapply item_entries_elements. exact Ee.
  - apply existing_items_failed. exact E.
Qed.

Example duplicate_name_last_wins :
  JsMap.values (persisted_index (Some manifest_with_duplicate))
  = [fresh_button (js "button")].
Proof. reflexivity. Qed.

(* ------------------------------------------------------------------ *)
(** ** The merge of a run                                              *)
(* ------------------------------------------------------------------ *)

Lemma map_set_head (V : Type) (m1 m2 : JsMap.t V) (k : jsstring) (v : V) :
  JsMap.has m1 k = true ->
  JsMap.set (m1 ++ m2) k v = JsMap.set m1 k v ++ m2.
Proof.
  unfold JsMap.has.
  induction m1 as [|[k' v'] m1 IH]; simpl; [discriminate|].
  destruct (Js.eqb k k'); [reflexivity|].
  intros H. rewrite IH by exact H. reflexivity.
Qed.

Lemma Forall2_map_set (V W : Type) (R : W -> jsstring * V -> Prop)
  (k : jsstring) (v : V) :
  (forall x v', R x (k, v') -> R x (k, v)) ->
  forall (l : list W) (m : JsMap.t V),
    JsMap.has m k = true ->
    Forall2 R l m -> Forall2 R l (JsMap.set m k v).
Proof.
  intros HR l m Hhas H. revert Hhas. unfold JsMap.has.
  induction H as [|x [k' v'] l m Hx Htail IH]; simpl; [discriminate|].
  destruct (Js.eqb k k') eqn:E.
  - intros _. apply eqb_eq in E. subst k'.
    constructor; [eapply HR; exact Hx | exact Htail].
  - intros Hhas. constructor; [exact Hx | apply IH, Hhas].
Qed.

Lemma map_has_app (V : Type) (m1 m2 : JsMap.t V) (k : jsstring) :
  JsMap.has (m1 ++ m2) k = JsMap.has m1 k || JsMap.has m2 k.
Proof.
  unfold JsMap.has.
  induction m1 as [|[k' v'] m1 IH]; simpl; [reflexivity|].
  destruct (Js.eqb k k'); [reflexivity | exact IH].
Qed.

Section Merge.
Context {runtime : Runtime}.

Lemma merged_refl (existingItemMap : ItemMap) :
  merged existingItemMap existingItemMap.
Proof.
  exists existingItemMap, []. rewrite app_nil_r.
  split; [reflexivity|]. split; [|constructor].
  induction existingItemMap as [|e m IH]; constructor; auto.
Qed.

Lemma merged_set (existingItemMap m : ItemMap) (entityName : jsstring)
  (item : RegistryItem) :
  produced item -> item_name item = toKebabCase entityName ->
  merged existingItemMap m ->
  merged existingItemMap (JsMap.set m entityName item).
Proof.
  intros Hp Hn (head & fresh & -> & Hhead & Hfresh).
  destruct (JsMap.has head entityName) eqn:Eh.
  - exists (JsMap.set head entityName item), fresh.
    split; [apply map_set_head; exact Eh|]. split; [|exact Hfresh].
    apply Forall2_map_set; [|exact Eh | exact Hhead].
    intros [k old] v' [Hk _]. cbn [fst snd] in *. subst k.
    split; [reflexivity|]. right. auto.
  - exists head, (JsMap.set fresh entityName item).
    split; [apply map_set_app; exact Eh|]. split; [exact Hhead|].
    apply Forall_forall. intros [k new] Hin.
    apply map_set_In in Hin as [[-> ->] | Hin]; [auto|].
    rewrite Forall_forall in Hfresh. apply (Hfresh _ Hin).
Qed.

Lemma entity_step_merged (options : CliOptions)
  (existingItemMap : ItemMap) (packageMap index : JsMap.t jsstring)
  (categoryName : jsstring) (category : Category) (categoryDir : jsstring)
  (st st' : Summary * ItemMap) (e : jsstring * node) (tr tr' : list event) :
  merged existingItemMap (snd st) ->
  entity_step options existingItemMap packageMap index categoryName category
    categoryDir st e tr = (Ok st', tr') ->
  merged existingItemMap (snd st').
Proof.
  intros HP H. unfold entity_step in H.
  destruct (noOverride options && JsMap.has existingItemMap (fst e)).
  - cbv [bind emit ret] in H. injection H as <- _. exact HP.
  - split_bind H. destruct a as [fresh|].
    + assert (Hmap : snd st' = JsMap.set (snd st) (fst e) fresh).
      { destruct (JsMap.has existingItemMap (fst e));
          cbv [bind emit ret] in H; injection H as <- _; reflexivity. }
      rewrite Hmap. apply merged_set; [| |exact HP].
      * do 9 eexists. exact E.
      * apply processEntity_item in E as (all & files & -> & _).
        reflexivity.
    + injection H as <- _. exact HP.
Qed.

Lemma process_categories_merged (options : CliOptions)
  (existingItemMap : ItemMap) (packageMap index : JsMap.t jsstring)
  (registryDir : jsstring) (rootEntries : list (jsstring * node))
  (st : Summary * ItemMap) (tr tr' : list event) :
  process_categories options existingItemMap packageMap index registryDir
    rootEntries tr = (Ok st, tr') ->
  merged existingItemMap (snd st).
Proof.
  intros H. unfold process_categories in H.
  eapply (for_each_invariant (fun st => merged existingItemMap (snd st)));
    [| |exact H]; [|apply merged_refl].
  intros acc c t acc' t' _ HP Hc. unfold category_step in Hc.
  destruct (entry (subdirectories rootEntries) (fst c)) as [d|].
  - split_bind Hc.
    eapply (for_each_invariant (fun st => merged existingItemMap (snd st)));
      [| exact HP | exact Hc].
    intros acc1 e t1 acc1' t1' _ HP1 He.
    eapply entity_step_merged; eassumption.
  - injection Hc as <- _; exact HP.
Qed.

(** X15. A run never moves an entry of the persisted index: the
    written items begin with one item for each persisted name, in the
    order in which the names first appear, which is the indexed item
    itself or an item produced for the directory of that name; whatever
    follows was produced by the run.  The indexed items are the
    persisted items that no later item of the same name follows: where
    the persisted names are pairwise distinct these are all the
    persisted items, in their order, and otherwise the earlier items of
    a repeated name are not written. *)
Theorem persisted_entries_keep_their_place (w : World) (file : jsstring)
  (registry : Registry) :
  In (WriteFile file registry) (snd (main w [])) ->
  let indexed := JsMap.values (persisted_index (persisted w)) in
  existing_items (persisted w) = Done (persisted_index (persisted w))
  /\ (exists head fresh,
         reg_items registry = listed (head ++ fresh)
         /\ Forall2
              (fun old new =>
                 new = old
                 \/ (produced new
                     /\ item_name new = toKebabCase (item_name old)))
              indexed head
         /\ Forall (fun new => produced new) fresh)
  /\ (forall old,
         In old indexed
         <-> find (fun item => Js.eqb (item_name old) (item_name item))
               (rev (persisted_list (persisted w))) = Some old)
  /\ (NoDup (map item_name (persisted_list (persisted w))) ->
      indexed = persisted_list (persisted w)).
Proof.
  intros Hw. cbv zeta.
  apply written_registry in Hw
    as (options & packageMap & index & root & rootEntries & st & tr1 & tr2
        & _ & _ & _ & Hloop & -> & _ & Hrun).
  split.
  { destruct (main w []) as [r tr] eqn:E. simpl in Hrun. subst r.
    exact (completed_run_indexed w tr E). }
  split; [|split; [apply persisted_index_values
                  |apply persisted_index_distinct]].
  apply process_categories_merged in Hloop
    as (head & fresh & Hst & Hhead & Hfresh).
  exists (JsMap.values head), (JsMap.values fresh).
  split; [|split].
  - cbn [build_registry reg_items]. rewrite Hst.
    unfold JsMap.values. rewrite map_app. reflexivity.
  - assert (Hkeys : forall k old,
               In (k, old) (persisted_index (persisted w)) ->
               k = item_name old).
    { intros k old Hin. apply (persisted_index_entry _ _ _ Hin). }
    remember (persisted_index (persisted w)) as existing eqn:Hex.
    clear Hex Hst. unfold JsMap.values.
    induction Hhead as [|[k old] [k' new] olds news [_ Hx] _ IH];
      simpl; constructor.
    + cbn [fst snd] in Hx.
      rewrite (Hkeys k old (or_introl eq_refl)) in Hx. exact Hx.
    + apply IH. intros k0 old0 Hin. apply Hkeys. right; exact Hin.
  - unfold JsMap.values. apply Forall_forall. intros new Hin.
    apply in_map_iff in Hin as ([k new'] & <- & Hin).
    rewrite Forall_forall in Hfresh. apply (Hfresh _ Hin).
Qed.

End Merge.

Lemma persisted_entries_keep_their_place_witness :
  exists registry head fresh,
    In (WriteFile (OUTPUT_FILE world_duplicate_card_target) registry)
      (snd (run world_duplicate_card_target))
    /\ persisted_list (persisted world_duplicate_card_target)
       = [stale_button; fresh_button (js "button")]
    /\ reg_items registry = listed (head ++ fresh)
    /\ Forall2
         (fun old new =>
            new = old
            \/ (@produced Ascii_runtime.instance new
                /\ item_name new
                   = @toKebabCase Ascii_runtime.instance (item_name old)))
         [fresh_button (js "button")] head.
Proof.
  assert (Hw : exists registry,
             In (WriteFile (OUTPUT_FILE world_duplicate_card_target) registry)
               (snd (run world_duplicate_card_target))).
  { eexists. vm_compute. do 2 right; left. reflexivity. }
  destruct Hw as [registry Hw].
  destruct (@persisted_entries_keep_their_place Ascii_runtime.instance
              world_duplicate_card_target _ _ Hw)
    as (_ & (head & fresh & Hitems & Hhead & _) & _).
  exists registry, head, fresh.
  split; [exact Hw|]. split; [reflexivity|]. split; [exact Hitems|].
  exact Hhead.
Defined.

(** Of two persisted items of one name the run writes the later one
    only, whether or not a target selects the name. *)
Example earlier_item_of_a_name_is_dropped :
  persisted_list (persisted world_duplicate_card_target)
  = [stale_button; fresh_button (js "button")]
  /\ exists registry,
       writes (snd (run world_duplicate_card_target)) = [registry]
       /\ reg_items registry = listed (persisted_list (Some registry))
       /\ map item_name (persisted_list (Some registry))
          = [js "button"; js "card"]
       /\ In (fresh_button (js "button")) (persisted_list (Some registry))
       /\ ~ In stale_button (persisted_list (Some registry)).
Proof.
  split; [reflexivity|]. eexists.
  split; [vm_compute; reflexivity|]. split; [vm_compute; reflexivity|].
  split; [vm_compute; reflexivity|]. split; [left; reflexivity|].
  intros [H | [H | []]]; vm_compute in H; discriminate H.
Qed.

(* ------------------------------------------------------------------ *)
(** ** A completed run                                                 *)
(* ------------------------------------------------------------------ *)

Lemma for_each_lift {A S : Type} (body : S -> A -> M S) (xs : list A) :
  (forall acc x, exists r, forall tr, body acc x tr = lift r tr) ->
  forall acc, exists r, forall tr, for_each xs body acc tr = lift r tr.
Proof.
  intros Hbody. induction xs as [|x xs IH]; intros acc; simpl.
  - exists (Done acc). reflexivity.
  - destruct (Hbody acc x) as [[acc'|e] Hx].
    + destruct (IH acc') as [r Hr]. exists r. intros tr.
      unfold bind. rewrite Hx. simpl. apply Hr.
    + exists (Failed e). intros tr. unfold bind. rewrite Hx. reflexivity.
Qed.

Lemma for_each_trace_invariant {A S : Type} (P : S -> list event -> Prop)
  (body : S -> A -> M S) (xs : list A) :
  (forall acc x tr acc' tr',
      In x xs -> P acc tr -> body acc x tr = (Ok acc', tr') -> P acc' tr') ->
  forall acc tr acc' tr',
    P acc tr -> for_each xs body acc tr = (Ok acc', tr') -> P acc' tr'.
Proof.
  induction xs as [|x xs IH]; intros Hbody acc tr acc' tr' HP H; simpl in H.
  - injection H as <- <-; assumption.
  - split_bind H.
    eapply IH; [| |exact H].
    + intros; eapply Hbody; eauto; right; assumption.
    + eapply Hbody; [left; reflexivity | exact HP | exact E].
Qed.

Lemma logged_app (a b : list event) :
  logged_added (a ++ b) = logged_added a + logged_added b
  /\ logged_updated (a ++ b) = logged_updated a + logged_updated b
  /\ logged_skipped (a ++ b) = logged_skipped a + logged_skipped b.
Proof.
  unfold logged_added, logged_updated, logged_skipped.
  rewrite !filter_app, !length_app. auto.
Qed.

Section Completed.
Context {runtime : Runtime}.

Lemma buildRegistryEntityMap_lift (registryDir : jsstring) (root : node) :
  exists r, forall tr, buildRegistryEntityMap registryDir root tr = lift r tr.
Proof.
  unfold buildRegistryEntityMap. apply for_each_lift.
  intros acc categoryName. cbv zeta.
  destruct (child root categoryName) as [c|].
  - destruct (readdirSync (path_join registryDir categoryName) c)
      as [entries|e] eqn:E.
    + exists (Done (index_category categoryName entries acc)).
      intros tr. reflexivity.
    + exists (Failed e). intros tr. reflexivity.
  - exists (Done acc). reflexivity.
Qed.

Lemma loadExistingRegistry_trace (w : World) (tr : list event) :
  loadExistingRegistry w tr = (Ok (persisted w), tr ++ registry_warning w).
Proof.
  unfold loadExistingRegistry, persisted, registry_warning.
  destruct (registry_json w); cbv [bind emit ret];
    rewrite ?app_nil_r; reflexivity.
Qed.

Lemma parseArgs_trace (w : World) (tr : list event) :
  exists options,
    parseArgs w tr
    = (Ok options,
       tr ++ map WarnTargetNotFound (filter (unmatched w) (positional w))).
Proof.
  destruct (parse_targets_all w (positional w) JsSet.empty tr)
    as (targets' & E & _).
  eexists. unfold parseArgs, bind. fold (positional w). rewrite E.
  reflexivity.
Qed.

Lemma main_from_packages_completed (w : World) (options : CliOptions)
  (root : node) (pkg : PackageJson) (tr0 tr : list event) :
  main_from_packages w options root pkg tr0 = (Ok tt, tr) ->
  exists index rootEntries st tr2,
    (forall t, buildRegistryEntityMap (REGISTRY_DIR w) root t = (Ok index, t))
    /\ readdirSync (REGISTRY_DIR w) root = Done rootEntries
    /\ active_categories rootEntries <> []
    /\ process_categories options (persisted_index (persisted w))
         (buildPackageMap pkg) index (REGISTRY_DIR w) rootEntries
         (tr0 ++ registry_warning w) = (Ok st, tr2)
    /\ output_writable w = true
    /\ tr = tr2 ++ [ WriteFile (OUTPUT_FILE w)
                       (build_registry (persisted w) (snd st));
                     LogSummary (fst st) (JsMap.size (snd st)) ].
Proof.
  intros H. unfold main_from_packages in H. unfold bind at 1 in H.
  destruct (buildRegistryEntityMap_lift (REGISTRY_DIR w) root)
    as [[index|e] Hindex]; rewrite Hindex in H; simpl in H;
    [|discriminate].
  unfold bind at 1 in H. rewrite loadExistingRegistry_trace in H.
  unfold bind at 1 in H. unfold lift at 1 in H.
  destruct (existing_items (persisted w)) as [existingItemMap|e] eqn:Eidx;
    [|discriminate].
  apply existing_items_done in Eidx. subst existingItemMap.
  unfold bind at 1 in H. unfold lift at 1 in H.
  destruct (readdirSync (REGISTRY_DIR w) root) as [rootEntries|e] eqn:Erd;
    [|discriminate].
  destruct (length (active_categories rootEntries) =? 0) eqn:Eact.
  { cbv [bind emit exit] in H. discriminate. }
  unfold bind at 1 in H.
  destruct (process_categories options (persisted_index (persisted w))
              (buildPackageMap pkg) index (REGISTRY_DIR w) rootEntries
              (tr0 ++ registry_warning w))
    as [[st|code|e] tr2] eqn:Eloop; try discriminate.
  unfold writeFileSync in H.
  destruct (output_writable w) eqn:Eout;
    cbv [bind emit throw] in H; [|discriminate].
  injection H as <-.
  exists index, rootEntries, st, tr2.
  split; [intros t; rewrite Hindex; reflexivity|].
  split; [reflexivity|]. split.
  { intros Hnil. rewrite Hnil in Eact. discriminate. }
  split; [exact Eloop|]. split; [reflexivity|].
  rewrite <- app_assoc. reflexivity.
Qed.

(** A run that completes went through every stage of [main]: the
    arguments parsed, the root directory and the package table at
    hand, the loops ended normally from the diagnostics of the
    preamble, and the document was written before the summary. *)
Lemma main_completed (w : World) (tr : list event) :
  main w [] = (Ok tt, tr) ->
  exists options root index rootEntries st tr2,
    parseArgs w []
    = (Ok options,
       map WarnTargetNotFound (filter (unmatched w) (positional w)))
    /\ registry_root w = Some root
    /\ (forall t,
          buildRegistryEntityMap (REGISTRY_DIR w) root t = (Ok index, t))
    /\ readdirSync (REGISTRY_DIR w) root = Done rootEntries
    /\ active_categories rootEntries <> []
    /\ process_categories options (persisted_index (persisted w))
         (package_table w) index (REGISTRY_DIR w) rootEntries (preamble w)
       = (Ok st, tr2)
    /\ output_writable w = true
    /\ tr = tr2 ++ [ WriteFile (OUTPUT_FILE w)
                       (build_registry (persisted w) (snd st));
                     LogSummary (fst st) (JsMap.size (snd st)) ].
Proof.
  intros H. unfold main in H. unfold bind at 1 in H.
  destruct (parseArgs_trace w []) as [options Eargs].
  rewrite Eargs in H. simpl app in H.
  destruct (registry_root w) as [root|] eqn:Eroot.
  2: { cbv [bind emit exit] in H. discriminate. }
  unfold bind at 1 in H. unfold loadPackageJson in H.
  unfold preamble, package_table, package_warning.
  destruct (package_json w) as [| | |[pkg|]] eqn:Epkg;
    cbv [bind emit ret throw] in H; try discriminate.
  - apply main_from_packages_completed in H
      as (index & rootEntries & st & tr2 & Hi & Hrd & Hact & Hloop & Hout
          & ->).
    exists options, root, index, rootEntries, st, tr2.
    rewrite <- app_assoc in Hloop. auto 10.
  - apply main_from_packages_completed in H
      as (index & rootEntries & st & tr2 & Hi & Hrd & Hact & Hloop & Hout
          & ->).
    exists options, root, index, rootEntries, st, tr2.
    simpl app. auto 10.
Qed.

Lemma processEntity_warns
  (categoryName entityName entityDir : jsstring) (dir : node)
  (category : Category) (packageMap index : JsMap.t jsstring)
  (tr tr' : list event) (item : option RegistryItem) :
  processEntity categoryName entityName entityDir dir category packageMap
    index tr = (Ok item, tr') ->
  tr' = tr
  \/ tr' = tr ++ [WarnNoSourceFiles categoryName entityName]
  \/ exists unknownPkgs,
       tr' = tr ++ [WarnUnknownPkgs categoryName entityName unknownPkgs].
Proof.
  intros H. unfold processEntity in H. split_bind H.
  assert (Hl : l = tr).
  { unfold lift in E. destruct (walkDir entityDir dir); [|discriminate].
    injection E as _ <-. reflexivity. }
  subst l.
  destruct (length (filter (fun f => isSourceFile (fst f)) a) =? 0).
  - cbv [bind emit ret] in H. injection H as _ <-. auto.
  - split_bind H.
    apply visit_files_files in E0 as (-> & _ & _).
    destruct (0 <? length (unresolved (fst a0)));
      cbv [bind emit ret] in H; injection H as _ <-; eauto.
Qed.

Lemma entity_step_counts (options : CliOptions)
  (existingItemMap : ItemMap) (packageMap index : JsMap.t jsstring)
  (categoryName : jsstring) (category : Category) (categoryDir : jsstring)
  (st st' : Summary * ItemMap) (e : jsstring * node) (tr tr' : list event) :
  added (fst st) = logged_added tr
  /\ updated (fst st) = logged_updated tr
  /\ skipped (fst st) = logged_skipped tr ->
  entity_step options existingItemMap packageMap index categoryName category
    categoryDir st e tr = (Ok st', tr') ->
  added (fst st') = logged_added tr'
  /\ updated (fst st') = logged_updated tr'
  /\ skipped (fst st') = logged_skipped tr'.
Proof.
  intros (Ha & Hu & Hs) H. unfold entity_step in H.
  destruct (noOverride options && JsMap.has existingItemMap (fst e)).
  - cbv [bind emit ret] in H. injection H as <- <-.
    destruct (logged_app tr [LogSkipped (fst e)]) as (-> & -> & ->).
    cbn. rewrite Ha, Hu, Hs. lia.
  - split_bind H.
    assert (Hl : logged_added l = logged_added tr
                 /\ logged_updated l = logged_updated tr
                 /\ logged_skipped l = logged_skipped tr).
    { apply processEntity_warns in E as [-> | [-> | [unknown ->]]];
        [auto| |];
        match goal with
        | |- context [tr ++ ?out] =>
            destruct (logged_app tr out) as (-> & -> & ->)
        end; cbn; lia. }
    destruct Hl as (Hla & Hlu & Hls).
    destruct a as [fresh|].
    + destruct (JsMap.has existingItemMap (fst e));
        cbv [bind emit ret] in H; injection H as <- <-;
        match goal with
        | |- context [l ++ ?out] =>
            destruct (logged_app l out) as (-> & -> & ->)
        end; cbn; lia.
    + injection H as <- <-. cbn. lia.
Qed.

Lemma process_categories_counts (options : CliOptions)
  (existingItemMap : ItemMap) (packageMap index : JsMap.t jsstring)
  (registryDir : jsstring) (rootEntries : list (jsstring * node))
  (st : Summary * ItemMap) (tr tr' : list event) :
  logged_added tr = 0 /\ logged_updated tr = 0 /\ logged_skipped tr = 0 ->
  process_categories options existingItemMap packageMap index registryDir
    rootEntries tr = (Ok st, tr') ->
  added (fst st) = logged_added tr'
  /\ updated (fst st) = logged_updated tr'
  /\ skipped (fst st) = logged_skipped tr'.
Proof.
  intros (Ha & Hu & Hs) H. unfold process_categories in H.
  eapply (for_each_trace_invariant
            (fun st t => added (fst st) = logged_added t
                         /\ updated (fst st) = logged_updated t
                         /\ skipped (fst st) = logged_skipped t));
    [| |exact H]; [|cbn; auto].
  intros acc c t acc' t' _ HP Hc. unfold category_step in Hc.
  destruct (entry (subdirectories rootEntries) (fst c)) as [d|].
  - split_bind Hc.
    assert (Hl : l = t).
    { unfold lift in E. destruct (readdirSync _ d); [|discriminate].
      injection E as _ <-. reflexivity. }
    subst l.
    eapply (for_each_trace_invariant
              (fun st t => added (fst st) = logged_added t
                           /\ updated (fst st) = logged_updated t
                           /\ skipped (fst st) = logged_skipped t));
      [| exact HP | exact Hc].
    intros acc1 e t1 acc1' t1' _ HP1 He.
    eapply entity_step_counts; eassumption.
  - injection Hc as <- <-; exact HP.
Qed.

Lemma preamble_logs_nothing (w : World) :
  logged_added (preamble w) = 0 /\ logged_updated (preamble w) = 0
  /\ logged_skipped (preamble w) = 0.
Proof.
  unfold preamble.
  destruct (logged_app
              (map WarnTargetNotFound (filter (unmatched w) (positional w)))
              (package_warning w ++ registry_warning w)) as (-> & -> & ->).
  destruct (logged_app (package_warning w) (registry_warning w))
    as (-> & -> & ->).
  assert (Ht : forall l,
             logged_added (map WarnTargetNotFound l) = 0
             /\ logged_updated (map WarnTargetNotFound l) = 0
             /\ logged_skipped (map WarnTargetNotFound l) = 0).
  { induction l as [|x l IH]; [cbn; auto | exact IH]. }
  destruct (Ht (filter (unmatched w) (positional w))) as (-> & -> & ->).
  unfold package_warning, registry_warning.
  destruct (package_json w); destruct (registry_json w); cbn; auto.
Qed.

(** X16. In a run that completes, the write is the last event but one
    and the summary the last; the counts of the summary are the
    numbers of [added], [updated] and [skipped] lines logged before,
    and its total is the number of items written. *)
Theorem summary_counts_the_log (w : World) (tr : list event) :
  main w [] = (Ok tt, tr) ->
  exists log registry items summary,
    tr = log ++ [WriteFile (OUTPUT_FILE w) registry;
                 LogSummary summary (length items)]
    /\ reg_items registry = listed items
    /\ added summary = logged_added log
    /\ updated summary = logged_updated log
    /\ skipped summary = logged_skipped log
    /\ writes log = [].
Proof.
  intros H.
  apply main_completed in H
    as (options & root & index & rootEntries & st & tr2 & _ & _ & _ & _ & _
        & Hloop & _ & ->).
  exists tr2, (build_registry (persisted w) (snd st)),
    (JsMap.values (snd st)), (fst st).
  split.
  { unfold JsMap.size, JsMap.values. rewrite length_map. reflexivity. }
  split; [reflexivity|].
  destruct (process_categories_counts _ _ _ _ _ _ _ _ _
              (preamble_logs_nothing w) Hloop) as (Ha & Hu & Hs).
  repeat (split; [assumption|]).
  pose proof (quiet_process_categories options
                (persisted_index (persisted w)) (package_table w) index
                (REGISTRY_DIR w) rootEntries (preamble w)) as [Hw _].
  rewrite Hloop in Hw. simpl in Hw. rewrite Hw.
  unfold preamble, package_warning, registry_warning.
  rewrite !writes_app.
  assert (Ht : forall l, writes (map WarnTargetNotFound l) = []).
  { induction l as [|x l IH]; [reflexivity | exact IH]. }
  rewrite Ht.
  destruct (package_json w); destruct (registry_json w); reflexivity.
Qed.

Lemma process_categories_unselected (options : CliOptions)
  (existingItemMap : ItemMap) (packageMap index : JsMap.t jsstring)
  (registryDir : jsstring) (rootEntries : list (jsstring * node))
  (st : Summary * ItemMap) (tr tr' : list event) (name : jsstring) :
  (forall c, In c (map fst ENTITY_CATEGORIES) ->
             selected options c name = false) ->
  process_categories options existingItemMap packageMap index registryDir
    rootEntries tr = (Ok st, tr') ->
  JsMap.get (snd st) name = JsMap.get existingItemMap name.
Proof.
  intros Hsel H. unfold process_categories in H.
  eapply (for_each_invariant
            (fun st => JsMap.get (snd st) name
                       = JsMap.get existingItemMap name));
    [| |exact H]; [|reflexivity].
  intros acc c t acc' t' Hc HP Hstep. unfold category_step in Hstep.
  destruct (entry (subdirectories rootEntries) (fst c)) as [d|] eqn:Ed.
  - split_bind Hstep.
    eapply (for_each_invariant
              (fun st => JsMap.get (snd st) name
                         = JsMap.get existingItemMap name));
      [| exact HP | exact Hstep].
    intros acc1 e t1 acc1' t1' He HP1 Hentity.
    rewrite <- HP1. eapply entity_step_frame; [|exact Hentity].
    intros Hname. exfalso.
    apply filter_In in He as [_ He]. rewrite Hname in He.
    rewrite Hsel in He; [discriminate|].
    unfold active_categories in Hc. apply filter_In in Hc as [Hc _].
    apply in_map; exact Hc.
  - injection Hstep as <- _; exact HP.
Qed.

(** X17. A run restricted to targets leaves alone what it was not
    asked for: where no target selects a name, in any configured
    category, the last persisted item of that name is in the written
    manifest as it was.  (An earlier persisted item of a repeated name
    is not indexed, and so not written, selected or not.) *)
Theorem unselected_item_passes_through (w : World) (tr tr0 : list event)
  (options : CliOptions) (name : jsstring) (item : RegistryItem) :
  main w [] = (Ok tt, tr) ->
  parseArgs w [] = (Ok options, tr0) ->
  (forall c, In c (map fst ENTITY_CATEGORIES) ->
             selected options c name = false) ->
  find (fun other => Js.eqb name (item_name other))
    (rev (persisted_list (persisted w))) = Some item ->
  exists registry items,
    In (WriteFile (OUTPUT_FILE w) registry) tr
    /\ reg_items registry = listed items
    /\ In item items.
Proof.
  intros Hrun Hargs Hsel Hget. rewrite <- persisted_index_get in Hget.
  apply main_completed in Hrun
    as (options' & root & index & rootEntries & st & tr2 & Hargs' & _ & _ & _
        & _ & Hloop & _ & ->).
  rewrite Hargs in Hargs'. injection Hargs' as <- _.
  exists (build_registry (persisted w) (snd st)), (JsMap.values (snd st)).
  split; [apply in_or_app; right; left; reflexivity|].
  split; [reflexivity|].
  eapply map_get_In. rewrite <- Hget.
  eapply process_categories_unselected; eassumption.
Qed.

End Completed.

Lemma summary_counts_the_log_witness :
  exists tr log registry (items : list RegistryItem) summary,
    run world_card_target = (Ok tt, tr)
    /\ tr = log ++ [WriteFile (OUTPUT_FILE world_card_target) registry;
                    LogSummary summary (length items)]
    /\ reg_items registry = listed items
    /\ added summary = logged_added log
    /\ updated summary = logged_updated log
    /\ skipped summary = logged_skipped log.
Proof.
  assert (Hrun : exists tr, run world_card_target = (Ok tt, tr)).
  { eexists. vm_compute. reflexivity. }
  destruct Hrun as [tr Hrun].
  destruct (@summary_counts_the_log Ascii_runtime.instance
              world_card_target tr Hrun)
    as (log & registry & items & summary & Htr & Hitems & Ha & Hu & Hs & _).
  exists tr, log, registry, items, summary. auto 10.
Defined.

Lemma unselected_item_passes_through_witness :
  exists tr registry items,
    run world_duplicate_card_target = (Ok tt, tr)
    /\ In (WriteFile (OUTPUT_FILE world_duplicate_card_target) registry) tr
    /\ reg_items registry = listed items
    /\ persisted_list (persisted world_duplicate_card_target)
       = [stale_button; fresh_button (js "button")]
    /\ In (fresh_button (js "button")) items.
Proof.
  assert (Hrun : exists tr, run world_duplicate_card_target = (Ok tt, tr)).
  { eexists. vm_compute. reflexivity. }
  destruct Hrun as [tr Hrun].
  assert (Hargs : parseArgs world_duplicate_card_target []
                  = (Ok {| noOverride := false;
                           targets := [js "components/card"] |}, []))
    by (vm_compute; reflexivity).
  assert (Hsel : forall c,
             In c (map fst ENTITY_CATEGORIES) ->
             selected {| noOverride := false;
                         targets := [js "components/card"] |}
               c (js "button") = false).
  { intros c Hc. simpl in Hc.
    repeat (destruct Hc as [<- | Hc]; [reflexivity|]). contradiction. }
  destruct (@unselected_item_passes_through Ascii_runtime.instance
              world_duplicate_card_target tr [] _ (js "button")
              (fresh_button (js "button")) Hrun Hargs Hsel eq_refl)
    as (registry & items & Hw & Hitems & Hin).
  exists tr, registry, items.
  split; [exact Hrun|]. split; [exact Hw|]. split; [exact Hitems|].
  split; [reflexivity | exact Hin].
Defined.

(* ------------------------------------------------------------------ *)
(** ** File descriptors and titles                                     *)
(* ------------------------------------------------------------------ *)

Lemma slash_free (name : jsstring) :
  Js.includes name Js.slash = false ->
  forallb (fun c => negb (N.eqb Js.slash c)) name = true.
Proof.
  unfold Js.includes.
  induction name as [|c name IH]; cbn [existsb forallb]; [reflexivity|].
  intros H. apply orb_false_elim in H as [Hc Hn].
  rewrite Hc, (IH Hn). reflexivity.
Qed.

Lemma basename_bare (name : jsstring) :
  Js.includes name Js.slash = false -> basename name = name.
Proof.
  intros H. unfold basename, Js.split.
  rewrite split_on_whole by (apply slash_free; exact H).
  destruct name; reflexivity.
Qed.

Lemma basename_join (dir name : jsstring) :
  name <> [] -> Js.includes name Js.slash = false ->
  basename (path_join dir name) = name.
Proof.
  intros Hne H. unfold basename, path_join, Js.split.
  change (dir ++ js "/" ++ name) with (dir ++ Js.slash :: name).
  rewrite split_on_app by apply N.eqb_refl.
  rewrite (split_on_whole (N.eqb Js.slash) name)
    by (apply slash_free; exact H).
  rewrite filter_app.
  destruct name as [|c name]; [contradiction|]. cbn [filter Js.truthy].
  apply last_last.
Qed.

Lemma last_dot_suffix_length (s e : jsstring) :
  last_dot_suffix s = Some e -> length e <= length s.
Proof.
  revert e. induction s as [|c s IH]; intros e; simpl; [discriminate|].
  destruct (last_dot_suffix s) as [e'|].
  - intros [= <-]. specialize (IH e' eq_refl). lia.
  - destruct (c =? Js.dot)%N; [|discriminate]. intros [= <-]. simpl. lia.
Qed.

(** The extension is a proper part of a base name that is not empty. *)
Lemma extname_shorter (p : jsstring) :
  basename p <> [] -> length (extname p) < length (basename p).
Proof.
  unfold extname. cbv zeta. intros Hne.
  destruct (Js.eqb (basename p) (js "..")).
  - destruct (basename p); [contradiction | simpl; lia].
  - destruct (basename p) as [|c b']; [contradiction|].
    destruct (last_dot_suffix b') as [e|] eqn:E; [|simpl; lia].
    apply last_dot_suffix_length in E. simpl. lia.
Qed.

Lemma eqb_length (a b : jsstring) :
  length a <> length b -> Js.eqb a b = false.
Proof.
  intros H. destruct (Js.eqb a b) eqn:E; [|reflexivity].
  apply eqb_eq in E. subst. contradiction.
Qed.

(** Where the extension is a proper part of the base name, it is cut
    off the base name when the base name ends in it. *)
Lemma basename_ext_cut (p e : jsstring) :
  length e < length (basename p) -> length (basename p) <= length p ->
  basename_ext p e
  = if Js.truthy e && Js.endsWith (basename p) e
    then firstn (length (basename p) - length e) (basename p)
    else basename p.
Proof.
  intros He Hp. unfold basename_ext. cbv zeta.
  destruct (Js.truthy e); [|reflexivity]. cbn [andb].
  replace (length e <=? length p) with true
    by (symmetry; apply Nat.leb_le; lia).
  rewrite (eqb_length e p) by lia.
  destruct (Js.endsWith (basename p) e).
  - rewrite (eqb_length (basename p) e) by lia. reflexivity.
  - replace (length (basename p) <? length e) with false
      by (symmetry; apply Nat.ltb_ge; lia).
    reflexivity.
Qed.

Lemma startsWith_before_slash (p : jsstring) :
  Js.includes p Js.slash = false ->
  forall a b, Js.startsWith (a ++ Js.slash :: b) p = Js.startsWith a p.
Proof.
  unfold Js.includes.
  induction p as [|y p IH]; intros H a b; [destruct a; reflexivity|].
  cbn [existsb] in H. apply orb_false_elim in H as [Hy Hp].
  destruct a as [|x a]; cbn [app Js.startsWith].
  - rewrite Hy. reflexivity.
  - rewrite (IH Hp). reflexivity.
Qed.

Lemma existsb_rev' (A : Type) (f : A -> bool) (l : list A) :
  existsb f (rev l) = existsb f l.
Proof.
  induction l as [|x l IH]; [reflexivity|].
  simpl. rewrite existsb_app, IH. simpl. rewrite orb_false_r.
  apply orb_comm.
Qed.

Lemma endsWith_join (dir name suffix : jsstring) :
  Js.includes suffix Js.slash = false ->
  Js.endsWith (path_join dir name) suffix = Js.endsWith name suffix.
Proof.
  intros H. unfold Js.endsWith, path_join.
  change (dir ++ js "/" ++ name) with (dir ++ Js.slash :: name).
  rewrite rev_app_distr. simpl rev. rewrite <- app_assoc. simpl app.
  apply startsWith_before_slash.
  unfold Js.includes in *. rewrite existsb_rev'. exact H.
Qed.

Section Descriptors.
Context {runtime : Runtime}.

Lemma inferFileType_join (dir name : jsstring)
  (categoryDefault : RegistryFileType) :
  name <> [] -> Js.includes name Js.slash = false ->
  inferFileType (path_join dir name) categoryDefault
  = inferFileType name categoryDefault.
Proof.
  intros Hne H. unfold inferFileType.
  rewrite endsWith_join by reflexivity.
  assert (Hext : extname (path_join dir name) = extname name).
  { unfold extname.
    rewrite (basename_join dir name Hne H), (basename_bare name H).
    reflexivity. }
  rewrite Hext.
  pose proof (extname_shorter name) as Hshort.
  rewrite (basename_bare name H) in Hshort. specialize (Hshort Hne).
  rewrite (basename_ext_cut (path_join dir name) (extname name)),
    (basename_ext_cut name (extname name));
    rewrite ?(basename_join dir name Hne H), ?(basename_bare name H);
    try exact Hshort; try reflexivity.
  unfold path_join. rewrite !length_app. lia.
Qed.

(** X18. The descriptor of a source file is made from its base name
    alone: whatever directory [dir] the file [name] lies in, the
    registry path of [dir/name] is [registry/category/entity/name],
    its target [targetDir/entity/name], and its type the one inferred
    from [name]; files of one name in different sub-directories of an
    entity get the same descriptor. *)
Theorem file_descriptor_of_nested_file
  (categoryName entityName dir name : jsstring) (category : Category) :
  name <> [] ->
  Js.includes name Js.slash = false ->
  registry_file categoryName entityName category (dir ++ js "/" ++ name)
  = {| file_path :=
         js "registry/" ++ categoryName ++ js "/" ++ entityName ++ js "/"
         ++ name;
       file_type := inferFileType name (fileType category);
       file_target :=
         targetDir category ++ js "/" ++ entityName ++ js "/" ++ name |}.
Proof.
  intros Hne H. fold (path_join dir name). unfold registry_file.
  rewrite basename_join, inferFileType_join by assumption. reflexivity.
Qed.

Lemma join_app (l1 l2 : list jsstring) (sep : jsstring) :
  l1 <> [] -> l2 <> [] ->
  Js.join (l1 ++ l2) sep = Js.join l1 sep ++ sep ++ Js.join l2 sep.
Proof.
  intros H1 H2. induction l1 as [|w l1 IH]; [contradiction|].
  destruct l1 as [|w' l1].
  - destruct l2 as [|v l2]; [contradiction | reflexivity].
  - change (Js.join ((w :: w' :: l1) ++ l2) sep)
      with (w ++ sep ++ Js.join ((w' :: l1) ++ l2) sep).
    rewrite IH by discriminate.
    change (Js.join (w :: w' :: l1) sep)
      with (w ++ sep ++ Js.join (w' :: l1) sep).
    rewrite <- !app_assoc. reflexivity.
Qed.

Lemma toTitle_app (a b : jsstring) (c : N) :
  (c =? 45)%N || (c =? 95)%N = true ->
  toTitle (a ++ c :: b) = toTitle a ++ js " " ++ toTitle b.
Proof.
  intros Hc. unfold toTitle.
  rewrite (split_on_app (fun c => (c =? 45)%N || (c =? 95)%N) a b c Hc).
  rewrite map_app. apply join_app.
  - intros E. apply map_eq_nil in E. exact (split_on_nonempty _ _ E).
  - intros E. apply map_eq_nil in E. exact (split_on_nonempty _ _ E).
Qed.

(** X19. The title of a name is made word by word: a hyphen or an
    underscore in the name becomes one space of the title, with the
    titles of what stands before and after it on either side, and a
    name without either is capitalised as a whole. *)
Theorem title_word_by_word (a b : jsstring) :
  toTitle (a ++ js "-" ++ b) = toTitle a ++ js " " ++ toTitle b
  /\ toTitle (a ++ js "_" ++ b) = toTitle a ++ js " " ++ toTitle b
  /\ (forallb (fun c => negb ((c =? 45)%N || (c =? 95)%N)) a = true ->
      toTitle a = capitalize a).
Proof.
  split; [apply toTitle_app; reflexivity|].
  split; [apply toTitle_app; reflexivity|].
  intros H. unfold toTitle. rewrite split_on_whole by exact H. reflexivity.
Qed.

End Descriptors.

Lemma file_descriptor_of_nested_file_witness :
  @registry_file Ascii_runtime.instance (js "components") (js "card")
    components
    (js "/repo/registry/components/card/parts" ++ js "/" ++ js "card.tsx")
  = @registry_file Ascii_runtime.instance (js "components") (js "card")
      components
      (js "/repo/registry/components/card" ++ js "/" ++ js "card.tsx").
Proof.
  rewrite !(@file_descriptor_of_nested_file Ascii_runtime.instance)
    by (discriminate || reflexivity).
  reflexivity.
Defined.

Lemma title_word_by_word_witness :
  @toTitle Ascii_runtime.instance (js "use-debounce")
  = @capitalize Ascii_runtime.instance (js "use") ++ js " "
    ++ @capitalize Ascii_runtime.instance (js "debounce").
Proof.
  destruct (@title_word_by_word Ascii_runtime.instance (js "use")
              (js "debounce")) as (Hhyphen & _ & _).
  destruct (@title_word_by_word Ascii_runtime.instance (js "use") [])
    as (_ & _ & Huse).
  destruct (@title_word_by_word Ascii_runtime.instance (js "debounce") [])
    as (_ & _ & Hdebounce).
  change (js "use-debounce") with (js "use" ++ js "-" ++ js "debounce").
  rewrite Hhyphen, (Huse eq_refl), (Hdebounce eq_refl). reflexivity.
Defined.

(* ------------------------------------------------------------------ *)
(** ** Where the dependencies of a run come from                       *)
(* ------------------------------------------------------------------ *)

Section Provenance.
Context {runtime : Runtime}.

Lemma processEntity_some
  (categoryName entityName entityDir : jsstring) (dir : node)
  (category : Category) (packageMap index : JsMap.t jsstring)
  (tr tr' : list event) (item : RegistryItem) :
  processEntity categoryName entityName entityDir dir category packageMap
    index tr = (Ok (Some item), tr') ->
  exists walked r,
    walkDir entityDir dir = Done walked
    /\ for_each (filter (fun f => isSourceFile (fst f)) walked)
         (visit_file categoryName entityName category packageMap index)
         (no_deps, []) tr = (Ok r, tr)
    /\ item = build_item entityName category (fst r) (snd r).
Proof.
  intros H. unfold processEntity in H. split_bind H.
  assert (Hl : l = tr).
  { unfold lift in E. destruct (walkDir entityDir dir); [|discriminate].
    injection E as _ <-. reflexivity. }
  apply lift_done in E. subst l.
  destruct (length (filter (fun f => isSourceFile (fst f)) a) =? 0).
  { split_bind H. }
  split_bind H.
  pose proof (visit_files_files _ _ _ _ _ _ _ _ _ _ E0) as (Htr & _ & _).
  subst l.
  exists a, a0. split; [exact E|]. split; [exact E0|].
  destruct (0 <? length (unresolved (fst a0)));
    cbv [bind emit ret] in H; injection H as <- _; reflexivity.
Qed.

Lemma processEntity_dependencies
  (categoryName entityName entityDir : jsstring) (dir : node)
  (category : Category) (packageMap index : JsMap.t jsstring)
  (tr tr' : list event) (item : RegistryItem) :
  processEntity categoryName entityName entityDir dir category packageMap
    index tr = (Ok (Some item), tr') ->
  exists allNpm,
    item_dependencies item = sorted_field allNpm
    /\ forall spec, In spec allNpm -> In spec (JsMap.values packageMap).
Proof.
  intros H.
  apply processEntity_some in H as (walked & r & _ & Hfiles & ->).
  exists (npm (fst r)). split; [reflexivity|]. intros spec Hin.
  apply (visit_files_field npm Package packageMap index
           (fun all d x => set_add_all_In (npm d) (npm all) x)
           (fun paths x =>
              proj1 (analyzeImports_sets packageMap index paths) x)
           categoryName entityName category _ _ _ _ _ Hfiles) in Hin
    as [[] | (p & _ & Hp)].
  pose proof (classify_cases packageMap index p) as Hc.
  rewrite Hp in Hc. destruct Hc as (Hget & _).
  eapply map_get_In; exact Hget.
Qed.

Lemma entity_step_values (Q : RegistryItem -> Prop) (options : CliOptions)
  (existingItemMap : ItemMap) (packageMap index : JsMap.t jsstring)
  (categoryName : jsstring) (category : Category) (categoryDir : jsstring)
  (st st' : Summary * ItemMap) (e : jsstring * node) (tr tr' : list event) :
  (forall c n d dir cat t t' item,
      processEntity c n d dir cat packageMap index t = (Ok (Some item), t') ->
      Q item) ->
  (forall item, In item (JsMap.values (snd st)) ->
                In item (JsMap.values existingItemMap) \/ Q item) ->
  entity_step options existingItemMap packageMap index categoryName category
    categoryDir st e tr = (Ok st', tr') ->
  forall item, In item (JsMap.values (snd st')) ->
               In item (JsMap.values existingItemMap) \/ Q item.
Proof.
  intros HQ HP H. unfold entity_step in H.
  destruct (noOverride options && JsMap.has existingItemMap (fst e)).
  - cbv [bind emit ret] in H. injection H as <- _. exact HP.
  - split_bind H. destruct a as [fresh|].
    + assert (Hmap : snd st' = JsMap.set (snd st) (fst e) fresh).
      { destruct (JsMap.has existingItemMap (fst e));
          cbv [bind emit ret] in H; injection H as <- _; reflexivity. }
      rewrite Hmap. intros item Hin.
      apply map_set_values in Hin as [-> | Hin]; [|apply HP, Hin].
      right. eapply HQ. exact E.
    + injection H as <- _. exact HP.
Qed.

Lemma process_categories_values (Q : RegistryItem -> Prop)
  (options : CliOptions)
  (existingItemMap : ItemMap) (packageMap index : JsMap.t jsstring)
  (registryDir : jsstring) (rootEntries : list (jsstring * node))
  (st : Summary * ItemMap) (tr tr' : list event) :
  (forall c n d dir cat t t' item,
      processEntity c n d dir cat packageMap index t = (Ok (Some item), t') ->
      Q item) ->
  process_categories options existingItemMap packageMap index registryDir
    rootEntries tr = (Ok st, tr') ->
  forall item, In item (JsMap.values (snd st)) ->
               In item (JsMap.values existingItemMap) \/ Q item.
Proof.
  intros HQ H. unfold process_categories in H.
  eapply (for_each_invariant
            (fun st => forall item, In item (JsMap.values (snd st)) ->
                         In item (JsMap.values existingItemMap) \/ Q item));
    [| |exact H]; [|intros item Hin; left; exact Hin].
  intros acc c t acc' t' _ HP Hc. unfold category_step in Hc.
  destruct (entry (subdirectories rootEntries) (fst c)) as [d|].
  - split_bind Hc.
    eapply (for_each_invariant
              (fun st => forall item, In item (JsMap.values (snd st)) ->
                           In item (JsMap.values existingItemMap) \/ Q item));
      [| exact HP | exact Hc].
    intros acc1 e t1 acc1' t1' _ HP1 He.
    eapply entity_step_values; eassumption.
  - injection Hc as <- _; exact HP.
Qed.

(** X20. In the manifest a completed run writes, an item is persisted
    or has for [dependencies] only specifications of the package table
    read from [package.json]; in a run without [package.json], which
    is announced by a warning, such an item has no [dependencies]. *)
Theorem written_dependencies_come_from_package_json (w : World)
  (tr : list event) :
  main w [] = (Ok tt, tr) ->
  (package_json w = Missing -> In WarnNoPackageJson tr)
  /\ exists registry items,
       In (WriteFile (OUTPUT_FILE w) registry) tr
       /\ reg_items registry = listed items
       /\ forall item,
            In item items ->
            In item (JsMap.values (persisted_index (persisted w)))
            \/ ((forall spec,
                   In spec (field_elements (item_dependencies item)) ->
                   In spec (JsMap.values (package_table w)))
                /\ (package_json w = Missing ->
                    item_dependencies item = None)).
Proof.
  intros H.
  apply main_completed in H
    as (options & root & index & rootEntries & st & tr2 & _ & _ & _ & _ & _
        & Hloop & _ & ->).
  split.
  - intros Hmissing. apply in_or_app. left.
    assert (Hext : exists out, tr2 = preamble w ++ out).
    { unfold process_categories in Hloop.
      eapply (for_each_trace_invariant
                (fun _ t => exists out, t = preamble w ++ out));
        [| |exact Hloop]; [|exists []; rewrite app_nil_r; reflexivity].
      intros acc c t acc' t' _ [out ->] Hc. unfold category_step in Hc.
      destruct (entry (subdirectories rootEntries) (fst c)) as [d|].
      - split_bind Hc.
        assert (Hl : l = preamble w ++ out).
        { unfold lift in E. destruct (readdirSync _ d); [|discriminate].
          injection E as _ <-. reflexivity. }
        subst l.
        eapply (for_each_trace_invariant
                  (fun _ t => exists out, t = preamble w ++ out));
          [| |exact Hc]; [|exists out; reflexivity].
        intros acc1 e t1 acc1' t1' _ [out1 ->] He. unfold entity_step in He.
        destruct (noOverride options
                  && JsMap.has (persisted_index (persisted w)) (fst e)).
        + cbv [bind emit ret] in He. injection He as _ <-.
          eexists. rewrite <- app_assoc. reflexivity.
        + split_bind He.
          assert (Hl : exists out2, l = preamble w ++ out2).
          { apply processEntity_warns in E0
              as [-> | [-> | [unknown ->]]];
              eexists; rewrite <- ?app_assoc; reflexivity. }
          destruct Hl as [out2 ->].
          destruct a0 as [fresh|].
          * destruct (JsMap.has (persisted_index (persisted w)) (fst e));
              cbv [bind emit ret] in He; injection He as _ <-;
              eexists; rewrite <- app_assoc; reflexivity.
          * injection He as _ <-. eexists; reflexivity.
      - injection Hc as _ <-. eexists; reflexivity. }
    destruct Hext as [out ->]. apply in_or_app. left.
    unfold preamble, package_warning. rewrite Hmissing.
    apply in_or_app. right. left. reflexivity.
  - exists (build_registry (persisted w) (snd st)), (JsMap.values (snd st)).
    split; [apply in_or_app; right; left; reflexivity|].
    split; [reflexivity|].
    intros item Hin.
    apply (process_categories_values
             (fun item =>
                exists allNpm,
                  item_dependencies item = sorted_field allNpm
                  /\ forall spec, In spec allNpm ->
                                  In spec (JsMap.values (package_table w)))
             _ _ _ _ _ _ _ _ _) with (3 := Hin) in Hloop.
    + destruct Hloop as [Hold | (allNpm & Hdeps & Hall)]; [left; exact Hold|].
      right. split.
      * intros spec Hspec. rewrite Hdeps in Hspec.
        apply (proj1 (field_elements_sorted _ _)) in Hspec.
        apply Hall, Hspec.
      * intros Hmissing. rewrite Hdeps. apply sorted_field_omitted.
        destruct allNpm as [|spec allNpm]; [reflexivity|].
        specialize (Hall spec (or_introl eq_refl)).
        unfold package_table in Hall. rewrite Hmissing in Hall.
        contradiction.
    + intros c n d dir cat t t' item' Hp.
      eapply processEntity_dependencies; exact Hp.
Qed.

End Provenance.

Lemma written_dependencies_come_from_package_json_witness :
  exists tr,
    run world_no_package_json = (Ok tt, tr)
    /\ In WarnNoPackageJson tr
    /\ exists registry items,
         In (WriteFile (OUTPUT_FILE world_no_package_json) registry) tr
         /\ reg_items registry = listed items
         /\ forall item, In item items -> item_dependencies item = None.
Proof.
  assert (Hrun : exists tr, run world_no_package_json = (Ok tt, tr)).
  { eexists. vm_compute. reflexivity. }
  destruct Hrun as [tr Hrun].
  destruct (@written_dependencies_come_from_package_json
              Ascii_runtime.instance world_no_package_json tr Hrun)
    as (Hwarn & registry & items & Hw & Hitems & Hall).
  exists tr. split; [exact Hrun|]. split; [exact (Hwarn eq_refl)|].
  exists registry, items. split; [exact Hw|]. split; [exact Hitems|].
  intros item Hin.
  destruct (Hall item Hin) as [[] | [_ Hnone]]. exact (Hnone eq_refl).
Defined.

(* ------------------------------------------------------------------ *)
(** ** A manifest that does not parse                                  *)
(* ------------------------------------------------------------------ *)

Lemma similar_ret {A : Type} (a : A) : similar (ret a) (ret a).
Proof. intros tr1 tr2 H. simpl. auto. Qed.

Lemma similar_emit (e : event) : similar (emit e) (emit e).
Proof.
  intros tr1 tr2 H. simpl. rewrite !writes_app, H. auto.
Qed.

Lemma similar_exit {A : Type} (code : Z) : similar (@exit A code) (exit code).
Proof. intros tr1 tr2 H. simpl. auto. Qed.

Lemma similar_throw {A : Type} (e : error) : similar (@throw A e) (throw e).
Proof. intros tr1 tr2 H. simpl. auto. Qed.

Lemma similar_lift {A : Type} (r : attempt A) : similar (lift r) (lift r).
Proof. intros tr1 tr2 H. unfold lift. destruct r; simpl; auto. Qed.

Lemma similar_bind {A B : Type} (m1 m2 : M A) (f1 f2 : A -> M B) :
  similar m1 m2 -> (forall a, similar (f1 a) (f2 a)) ->
  similar (bind m1 f1) (bind m2 f2).
Proof.
  intros Hm Hf tr1 tr2 H. unfold bind.
  destruct (Hm tr1 tr2 H) as [Hr Hw].
  destruct (m1 tr1) as [[a1|c1|e1] t1]; destruct (m2 tr2) as [[a2|c2|e2] t2];
    simpl in Hr, Hw; try discriminate; injection Hr as <-.
  - apply Hf. exact Hw.
  - simpl. auto.
  - simpl. auto.
Qed.

Lemma similar_for_each {A S : Type} (body1 body2 : S -> A -> M S)
  (xs : list A) :
  (forall acc x, similar (body1 acc x) (body2 acc x)) ->
  forall acc, similar (for_each xs body1 acc) (for_each xs body2 acc).
Proof.
  intros Hbody. induction xs as [|x xs IH]; intros acc; simpl.
  - apply similar_ret.
  - apply similar_bind; [apply Hbody | exact IH].
Qed.

Lemma similar_if {A : Type} (b : bool) (m1 m2 m1' m2' : M A) :
  similar m1 m1' -> similar m2 m2' ->
  similar (if b then m1 else m2) (if b then m1' else m2').
Proof. destruct b; auto. Qed.

(** A diagnostic more on one side makes no difference. *)
Lemma similar_warning {A : Type} (e : event) (m1 m2 : M A) :
  writes [e] = [] -> similar m1 m2 -> similar (emit e ;; m1) m2.
Proof.
  intros He Hm tr1 tr2 H. unfold bind, emit. apply Hm.
  rewrite writes_app, He, app_nil_r. exact H.
Qed.

Ltac similar_step :=
  first
    [ apply similar_ret
    | apply similar_emit
    | apply similar_exit
    | apply similar_throw
    | apply similar_lift
    | apply similar_if
    | apply similar_bind; [|intros ?]
    | apply similar_for_each; intros ? ? ].

Section Unparsable.
Context {runtime : Runtime}.

Lemma similar_processEntity (categoryName entityName entityDir : jsstring)
  (dir : node) (category : Category) (packageMap index : JsMap.t jsstring) :
  similar
    (processEntity categoryName entityName entityDir dir category packageMap
       index)
    (processEntity categoryName entityName entityDir dir category packageMap
       index).
Proof. unfold processEntity, visit_file. repeat similar_step. Qed.

Lemma similar_entity_step (options : CliOptions) (existingItemMap : ItemMap)
  (packageMap index : JsMap.t jsstring) (categoryName : jsstring)
  (category : Category) (categoryDir : jsstring) (st : Summary * ItemMap)
  (e : jsstring * node) :
  similar
    (entity_step options existingItemMap packageMap index categoryName
       category categoryDir st e)
    (entity_step options existingItemMap packageMap index categoryName
       category categoryDir st e).
Proof.
  unfold entity_step. apply similar_if; [repeat similar_step|].
  apply similar_bind; [apply similar_processEntity|].
  intros [item|]; repeat similar_step.
Qed.

Lemma similar_process_categories (options : CliOptions)
  (existingItemMap : ItemMap) (packageMap index : JsMap.t jsstring)
  (registryDir : jsstring) (rootEntries : list (jsstring * node)) :
  similar
    (process_categories options existingItemMap packageMap index registryDir
       rootEntries)
    (process_categories options existingItemMap packageMap index registryDir
       rootEntries).
Proof.
  unfold process_categories. apply similar_for_each. intros st c.
  unfold category_step.
  destruct (entry (subdirectories rootEntries) (fst c)); [|apply similar_ret].
  apply similar_bind; [apply similar_lift|]. intros entries.
  apply similar_for_each. intros; apply similar_entity_step.
Qed.

Lemma similar_buildRegistryEntityMap (registryDir : jsstring) (root : node) :
  similar (buildRegistryEntityMap registryDir root)
    (buildRegistryEntityMap registryDir root).
Proof.
  unfold buildRegistryEntityMap. apply similar_for_each.
  intros m categoryName.
  destruct (child root categoryName); repeat similar_step.
Qed.

Lemma similar_parseArgs (w : World) : similar (parseArgs w) (parseArgs w).
Proof.
  unfold parseArgs. apply similar_bind; [|intros; apply similar_ret].
  apply similar_for_each. intros targets target. unfold parse_target.
  apply similar_if; [apply similar_ret|].
  destruct (fold_left _ _ _) as [targets' found].
  repeat similar_step.
Qed.

Lemma similar_loadPackageJson (w : World) :
  similar (loadPackageJson w) (loadPackageJson w).
Proof.
  unfold loadPackageJson.
  destruct (package_json w); repeat similar_step.
Qed.

(** X21. A [registry.json] that cannot be read or parsed is taken as
    absent: the run ends the same way, and writes the same document,
    as the run of the same world without [registry.json]. *)
Theorem unparsable_manifest_is_absent (w : World) :
  registry_json w = Unreadable \/ registry_json w = Malformed ->
  fst (main w []) = fst (main (without_manifest w) [])
  /\ writes (snd (main w [])) = writes (snd (main (without_manifest w) [])).
Proof.
  intros Hjson.
  assert (H : similar (main w) (main (without_manifest w))).
  { unfold main.
    change (parseArgs (without_manifest w)) with (parseArgs w).
    change (registry_root (without_manifest w)) with (registry_root w).
    change (loadPackageJson (without_manifest w)) with (loadPackageJson w).
    change (REGISTRY_DIR (without_manifest w)) with (REGISTRY_DIR w).
    apply similar_bind; [apply similar_parseArgs|].
    intros options.
    destruct (registry_root w) as [root|]; [|repeat similar_step].
    apply similar_bind; [apply similar_loadPackageJson|].
    intros [pkg|]; [|apply similar_throw].
    unfold main_from_packages.
    change (REGISTRY_DIR (without_manifest w)) with (REGISTRY_DIR w).
    change (writeFileSync (without_manifest w)) with (writeFileSync w).
    apply similar_bind; [apply similar_buildRegistryEntityMap|].
    intros index.
    assert (Hload : similar (loadExistingRegistry w)
                      (loadExistingRegistry (without_manifest w))).
    { unfold loadExistingRegistry. cbn [registry_json without_manifest].
      destruct Hjson as [-> | ->];
        (apply similar_warning; [reflexivity | apply similar_ret]). }
    apply similar_bind; [exact Hload|]. intros existingRegistry.
    apply similar_bind; [apply similar_lift|]. intros existingItemMap.
    apply similar_bind; [apply similar_lift|]. intros rootEntries.
    apply similar_if; [repeat similar_step|].
    apply similar_bind; [apply similar_process_categories|]. intros st.
    unfold writeFileSync.
    apply similar_bind; [|intros; apply similar_emit].
    apply similar_if; [apply similar_emit | apply similar_throw]. }
  apply H. reflexivity.
Qed.

End Unparsable.

Lemma unparsable_manifest_is_absent_witness :
  fst (run world_malformed_manifest)
  = fst (run (without_manifest world_malformed_manifest))
  /\ writes (snd (run world_malformed_manifest))
     = writes (snd (run (without_manifest world_malformed_manifest)))
  /\ In WarnRegistryUnparseable (snd (run world_malformed_manifest)).
Proof.
  destruct (@unparsable_manifest_is_absent Ascii_runtime.instance
              world_malformed_manifest (or_intror eq_refl)) as [Hr Hw].
  split; [exact Hr|]. split; [exact Hw|].
  vm_compute. left. reflexivity.
Defined.

(* ------------------------------------------------------------------ *)
(** ** The index and the walk on the example tree                      *)
(* ------------------------------------------------------------------ *)

Lemma entity_index_entries_witness :
  exists index,
    @buildRegistryEntityMap Ascii_runtime.instance (js "/repo/registry")
      tree_two_entities [] = (Ok index, [])
    /\ JsMap.has index (js "components/card") = true
    /\ JsMap.get index (js "components/card") = Some (js "card").
Proof.
  assert (Hbuild : exists index,
             @buildRegistryEntityMap Ascii_runtime.instance
               (js "/repo/registry") tree_two_entities [] = (Ok index, [])).
  { eexists. vm_compute. reflexivity. }
  destruct Hbuild as [index Hbuild].
  destruct (@entity_index_entries Ascii_runtime.instance _ _ _ _ _ Hbuild)
    as (_ & _ & Hcomplete).
  exists index. split; [exact Hbuild|]. split.
  - apply (Hcomplete (js "components")
             [ (js "button", Dir [ (js "button.tsx", button_file) ]);
               (js "card", card_dir) ]
             (js "card") card_dir).
    + vm_compute. tauto.
    + reflexivity.
    + right; left; reflexivity.
    + reflexivity.
  - vm_compute in Hbuild. injection Hbuild as <-. reflexivity.
Defined.

Lemma walked_files_witness :
  exists files,
    walkDir (js "/repo/registry") tree_button = Done files
    /\ In (js "/repo/registry/components/button/button.tsx", button_file)
         files.
Proof.
  eexists. split; [reflexivity|].
  apply (walked_files tree_button (js "/repo/registry") _ eq_refl).
  exists [js "components"; js "button"; js "button.tsx"].
  split; [|split; reflexivity].
  eapply at_entry; [left; reflexivity|].
  eapply at_entry; [left; reflexivity|].
  eapply at_entry; [left; reflexivity|].
  apply at_here.
Defined.

(* ------------------------------------------------------------------ *)
(** ** Running the script again                                        *)
(* ------------------------------------------------------------------ *)

Lemma uniform_ret {A : Type} (a : A) : uniform (ret a).
Proof.
  exists (Ok a), []. intros tr. unfold ret. rewrite app_nil_r. reflexivity.
Qed.

Lemma uniform_emit (e : event) : uniform (emit e).
Proof. exists (Ok tt), [e]. reflexivity. Qed.

Lemma uniform_lift {A : Type} (r : attempt A) : uniform (lift r).
Proof.
  destruct r as [a|e]; [exists (Ok a), [] | exists (Throw e), []];
    intros tr; unfold lift; rewrite app_nil_r; reflexivity.
Qed.

Lemma uniform_bind {A B : Type} (m : M A) (f : A -> M B) :
  uniform m -> (forall a, uniform (f a)) -> uniform (bind m f).
Proof.
  intros (r & out & Hm) Hf. destruct r as [a|code|e].
  - destruct (Hf a) as (r' & out' & Hfa). exists r', (out ++ out').
    intros tr. unfold bind. rewrite Hm, Hfa, app_assoc. reflexivity.
  - exists (Exit code), out. intros tr. unfold bind. rewrite Hm. reflexivity.
  - exists (Throw e), out. intros tr. unfold bind. rewrite Hm. reflexivity.
Qed.

Lemma uniform_for_each {A S : Type} (body : S -> A -> M S) (xs : list A) :
  (forall acc x, uniform (body acc x)) ->
  forall acc, uniform (for_each xs body acc).
Proof.
  intros Hbody. induction xs as [|x xs IH]; intros acc; simpl.
  - apply uniform_ret.
  - apply uniform_bind; [apply Hbody | exact IH].
Qed.

Lemma uniform_if {A : Type} (b : bool) (m1 m2 : M A) :
  uniform m1 -> uniform m2 -> uniform (if b then m1 else m2).
Proof. destruct b; auto. Qed.

Ltac uniform_step :=
  first
    [ apply uniform_ret
    | apply uniform_emit
    | apply uniform_lift
    | apply uniform_if
    | apply uniform_bind; [|intros ?]
    | apply uniform_for_each; intros ? ? ].

Lemma assign_snoc (m : ItemMap) (assignments : list (jsstring * RegistryItem))
  (kv : jsstring * RegistryItem) :
  assign m (assignments ++ [kv])
  = JsMap.set (assign m assignments) (fst kv) (snd kv).
Proof. unfold assign. rewrite fold_left_app. reflexivity. Qed.

Lemma assign_get (m : ItemMap) (assignments : list (jsstring * RegistryItem))
  (k : jsstring) :
  JsMap.get (assign m assignments) k
  = match find (fun kv => Js.eqb k (fst kv)) (rev assignments) with
    | Some kv => Some (snd kv)
    | None => JsMap.get m k
    end.
Proof.
  induction assignments as [|kv assignments IH] using rev_ind;
    [reflexivity|].
  rewrite assign_snoc, rev_app_distr. simpl.
  destruct (Js.eqb k (fst kv)) eqn:E.
  - apply eqb_eq in E. subst k. apply map_get_set_same.
  - rewrite map_get_set_other; [exact IH|].
    intros Heq. subst k. rewrite eqb_refl in E. discriminate.
Qed.

Lemma assign_keys (assignments : list (jsstring * RegistryItem)) :
  forall m : ItemMap,
    (forall kv, In kv assignments -> JsMap.has m (fst kv) = true) ->
    JsMap.keys (assign m assignments) = JsMap.keys m.
Proof.
  induction assignments as [|kv assignments IH]; intros m H; [reflexivity|].
  simpl. rewrite IH.
  - rewrite map_set_keys, (H kv (or_introl eq_refl)). apply app_nil_r.
  - intros kv' Hin. apply map_has_set. apply H. right; exact Hin.
Qed.

Lemma assign_NoDup (assignments : list (jsstring * RegistryItem)) :
  forall m : ItemMap,
    NoDup (JsMap.keys m) -> NoDup (JsMap.keys (assign m assignments)).
Proof.
  induction assignments as [|kv assignments IH]; intros m H; [exact H|].
  simpl. apply IH. rewrite map_set_keys.
  destruct (JsMap.has m (fst kv)) eqn:E.
  - rewrite app_nil_r. exact H.
  - apply NoDup_app; [exact H | repeat constructor; intros [] |].
    intros k Hk [<- | []]. apply map_has_In in Hk. congruence.
Qed.

Lemma assign_In (assignments : list (jsstring * RegistryItem)) :
  forall (m : ItemMap) (k : jsstring) (item : RegistryItem),
    In (k, item) (assign m assignments) ->
    In (k, item) m \/ In (k, item) assignments.
Proof.
  induction assignments as [|kv assignments IH]; intros m k item H;
    [left; exact H|].
  simpl in H. apply IH in H as [H | H]; [|right; right; exact H].
  apply map_set_In in H as [[-> ->] | H]; [|left; exact H].
  right. left. destruct kv; reflexivity.
Qed.

Lemma map_get_absent (V : Type) (m : JsMap.t V) (k : jsstring) :
  ~ In k (JsMap.keys m) -> JsMap.get m k = None.
Proof.
  intros H. destruct (JsMap.get m k) as [v|] eqn:E; [|reflexivity].
  exfalso. apply H. apply map_has_In. apply map_has_some. eauto.
Qed.

(** Two maps with the same keys in the same order, distinct, and the
    same answers are the same map. *)
Lemma map_ext (V : Type) :
  forall m1 m2 : JsMap.t V,
    NoDup (JsMap.keys m1) -> JsMap.keys m1 = JsMap.keys m2 ->
    (forall k, JsMap.get m1 k = JsMap.get m2 k) -> m1 = m2.
Proof.
  induction m1 as [|[k1 v1] m1 IH]; intros [|[k2 v2] m2] Hnd Hk Hg;
    try discriminate; [reflexivity|].
  simpl in Hk. injection Hk as <- Hk. inversion Hnd as [|? ? Hnot Hnd'].
  subst.
  pose proof (Hg k1) as H1. simpl in H1. rewrite eqb_refl in H1.
  injection H1 as <-. f_equal. apply IH; [exact Hnd' | exact Hk|].
  intros k. destruct (Js.eqb k k1) eqn:E.
  - apply eqb_eq in E. subst k.
    rewrite (map_get_absent _ m1 k1 Hnot).
    symmetry. apply map_get_absent. rewrite <- Hk. exact Hnot.
  - specialize (Hg k). simpl in Hg. rewrite E in Hg. exact Hg.
Qed.

Lemma assign_has (m : ItemMap) (assignments : list (jsstring * RegistryItem))
  (kv : jsstring * RegistryItem) :
  In kv assignments -> JsMap.has (assign m assignments) (fst kv) = true.
Proof.
  intros Hin. apply map_has_some. rewrite assign_get.
  apply in_rev in Hin.
  destruct (find (fun kv' => Js.eqb (fst kv) (fst kv')) (rev assignments))
    as [kv'|] eqn:E; [eauto|].
  exfalso. eapply find_none in E; [|exact Hin].
  simpl in E. rewrite eqb_refl in E. discriminate.
Qed.

(** Doing the same assignments again changes nothing. *)
Lemma assign_idempotent (m : ItemMap)
  (assignments : list (jsstring * RegistryItem)) :
  NoDup (JsMap.keys m) ->
  assign (assign m assignments) assignments = assign m assignments.
Proof.
  intros Hnd. apply map_ext.
  - apply assign_NoDup, assign_NoDup, Hnd.
  - apply assign_keys. intros kv Hin. apply assign_has, Hin.
  - intros k. rewrite assign_get.
    destruct (find (fun kv => Js.eqb k (fst kv)) (rev assignments))
      as [kv|] eqn:E; [|reflexivity].
    rewrite assign_get, E. reflexivity.
Qed.

Lemma entries_by_name (m : ItemMap) :
  (forall k item, In (k, item) m -> k = item_name item) ->
  map (fun item => (item_name item, item)) (JsMap.values m) = m.
Proof.
  unfold JsMap.values.
  induction m as [|[k item] m IH]; intros H; [reflexivity|].
  simpl. rewrite <- (H k item (or_introl eq_refl)). f_equal.
  apply IH. intros k' item' Hin. apply H. right; exact Hin.
Qed.

Section Rerun.
Context {runtime : Runtime}.

Lemma uniform_processEntity (categoryName entityName entityDir : jsstring)
  (dir : node) (category : Category) (packageMap index : JsMap.t jsstring) :
  uniform (processEntity categoryName entityName entityDir dir category
             packageMap index).
Proof. unfold processEntity, visit_file. repeat uniform_step. Qed.

Lemma for_each_assigns {X : Type}
  (step : ItemMap -> Summary * ItemMap -> X -> M (Summary * ItemMap))
  (xs : list X) :
  (forall x, exists outcome, assigns step x outcome) ->
  exists outcome,
    assigns (fun existingItemMap st (_ : unit) =>
               for_each xs (step existingItemMap) st) tt outcome.
Proof.
  intros Hstep. induction xs as [|x xs IH].
  - exists (Some []). intros E [s m] tr. exists s, tr. reflexivity.
  - destruct (Hstep x) as [[a|] Hx]; [destruct IH as [[b|] Hb]|].
    + exists (Some (a ++ b)). intros E st tr. simpl. unfold bind.
      destruct (Hx E st tr) as (s1 & tr1 & ->).
      destruct (Hb E (s1, assign (snd st) a) tr1) as (s2 & tr2 & ->).
      exists s2, tr2. unfold assign. rewrite fold_left_app. reflexivity.
    + exists None. intros E st tr st'. simpl. unfold bind.
      destruct (Hx E st tr) as (s1 & tr1 & ->). apply Hb.
    + exists None. intros E st tr st'. simpl. unfold bind.
      specialize (Hx E st tr).
      destruct (step E st x tr) as [[st1|code|e] t1]; simpl in *;
        [exfalso; eapply Hx; reflexivity | discriminate | discriminate].
Qed.

Lemma entity_step_assigns (options : CliOptions)
  (packageMap index : JsMap.t jsstring) (categoryName : jsstring)
  (category : Category) (categoryDir : jsstring) (e : jsstring * node) :
  noOverride options = false ->
  exists outcome,
    assigns (fun existingItemMap st e =>
               entity_step options existingItemMap packageMap index
                 categoryName category categoryDir st e) e outcome.
Proof.
  intros Hno.
  destruct (uniform_processEntity categoryName (fst e)
              (path_join categoryDir (fst e)) (snd e) category packageMap
              index) as (r & out & Hp).
  destruct r as [[item|]|code|err].
  - exists (Some [(fst e, item)]). intros E st tr.
    unfold entity_step. rewrite Hno. cbn [andb]. unfold bind at 1.
    rewrite Hp.
    destruct (JsMap.has E (fst e)); cbv [bind emit ret];
      eexists _, _; reflexivity.
  - exists (Some []). intros E [s m] tr.
    unfold entity_step. rewrite Hno. cbn [andb]. unfold bind at 1.
    rewrite Hp. eexists _, _; reflexivity.
  - exists None. intros E st tr st'.
    unfold entity_step. rewrite Hno. cbn [andb]. unfold bind at 1.
    rewrite Hp. discriminate.
  - exists None. intros E st tr st'.
    unfold entity_step. rewrite Hno. cbn [andb]. unfold bind at 1.
    rewrite Hp. discriminate.
Qed.

Lemma category_step_assigns (options : CliOptions)
  (packageMap index : JsMap.t jsstring) (registryDir : jsstring)
  (rootEntries : list (jsstring * node)) (c : jsstring * Category) :
  noOverride options = false ->
  exists outcome,
    assigns (fun existingItemMap st c =>
               category_step options existingItemMap packageMap index
                 registryDir rootEntries st c) c outcome.
Proof.
  intros Hno.
  destruct (entry (subdirectories rootEntries) (fst c)) as [d|] eqn:Ed.
  - destruct (readdirSync (path_join registryDir (fst c)) d)
      as [entries|err] eqn:Er.
    + destruct (for_each_assigns
                  (fun existingItemMap st e =>
                     entity_step options existingItemMap packageMap index
                       (fst c) (snd c) (path_join registryDir (fst c)) st e)
                  (filter (fun e => selected options (fst c) (fst e))
                     (subdirectories entries))) as [outcome H].
      { intros e. apply entity_step_assigns. exact Hno. }
      exists outcome. destruct outcome as [a|].
      * intros E st tr. destruct (H E st tr) as (s' & tr' & Hrun).
        exists s', tr'. unfold category_step. rewrite Ed.
        cbv [bind lift]. rewrite Er. exact Hrun.
      * intros E st tr st'. unfold category_step. rewrite Ed.
        cbv [bind lift]. rewrite Er. apply (H E st tr st').
    + exists None. intros E st tr st'. unfold category_step. rewrite Ed.
      cbv [bind lift]. rewrite Er. discriminate.
  - exists (Some []). intros E [s m] tr. unfold category_step. rewrite Ed.
    eexists _, _; reflexivity.
Qed.

Lemma process_categories_assigns (options : CliOptions)
  (packageMap index : JsMap.t jsstring) (registryDir : jsstring)
  (rootEntries : list (jsstring * node)) :
  noOverride options = false ->
  exists outcome,
    match outcome with
    | Some assignments =>
        forall existingItemMap tr,
          exists summary tr',
            process_categories options existingItemMap packageMap index
              registryDir rootEntries tr
            = (Ok (summary, assign existingItemMap assignments), tr')
    | None =>
        forall existingItemMap tr st',
          fst (process_categories options existingItemMap packageMap index
                 registryDir rootEntries tr) <> Ok st'
    end.
Proof.
  intros Hno.
  destruct (for_each_assigns
              (fun existingItemMap st c =>
                 category_step options existingItemMap packageMap index
                   registryDir rootEntries st c)
              (active_categories rootEntries)) as [outcome H].
  { intros c. apply category_step_assigns. exact Hno. }
  exists outcome. destruct outcome as [a|].
  - intros E tr. destruct (H E (no_counts, E) tr) as (s' & tr' & Hrun).
    exists s', tr'. exact Hrun.
  - intros E tr st'. apply (H E (no_counts, E) tr st').
Qed.

Lemma for_each_replays {X : Type}
  (step : ItemMap -> Summary * ItemMap -> X -> M (Summary * ItemMap))
  (xs : list X) :
  (forall x, replays step x) ->
  replays (fun existingItemMap st (_ : unit) =>
             for_each xs (step existingItemMap) st) tt.
Proof.
  intros Hstep. induction xs as [|x xs IH]; intros E st tr st' tr' H.
  - simpl in H. injection H as <- _. split; [auto|].
    intros E2 [s2 m2] tr2 _ _. exists s2, tr2. reflexivity.
  - simpl in H. split_bind H.
    destruct (Hstep x E st tr a l E0) as [Hmono1 Hreplay1].
    destruct (IH E a l st' tr' H) as [Hmono Hreplay].
    split; [auto|].
    intros E2 st2 tr2 Hold Hnew.
    destruct (Hreplay1 E2 st2 tr2 Hold) as (s1 & tr1 & Hrun1); [auto|].
    destruct (Hreplay E2 (s1, snd st2) tr1 Hold Hnew) as (s' & tr1' & Hrun).
    exists s', tr1'. simpl. unfold bind. rewrite Hrun1. exact Hrun.
Qed.

Lemma entity_step_replays (options : CliOptions)
  (packageMap index : JsMap.t jsstring) (categoryName : jsstring)
  (category : Category) (categoryDir : jsstring) (e : jsstring * node) :
  noOverride options = true ->
  replays (fun existingItemMap st e =>
             entity_step options existingItemMap packageMap index
               categoryName category categoryDir st e) e.
Proof.
  intros Hskip E st tr st' tr' H.
  assert (Hskipped : forall E2 st2 tr2,
             JsMap.has E2 (fst e) = true ->
             exists summary tr2',
               entity_step options E2 packageMap index categoryName category
                 categoryDir st2 e tr2 = (Ok (summary, snd st2), tr2')).
  { intros E2 st2 tr2 Hhas. unfold entity_step. rewrite Hskip, Hhas.
    cbv [andb bind emit ret]. eexists _, _; reflexivity. }
  unfold entity_step in H. rewrite Hskip in H. cbn [andb] in H.
  destruct (JsMap.has E (fst e)) eqn:Ehas.
  - cbv [bind emit ret] in H. injection H as <- _. split; [auto|].
    intros E2 st2 tr2 Hold _. apply Hskipped. apply Hold. exact Ehas.
  - destruct (uniform_processEntity categoryName (fst e)
                (path_join categoryDir (fst e)) (snd e) category packageMap
                index) as (r & out & Hp).
    unfold bind at 1 in H. rewrite Hp in H.
    destruct r as [[item|]|code|err]; try discriminate.
    + cbv [bind emit ret] in H. injection H as <- _.
      split; [intros k Hk; apply map_has_set; exact Hk|].
      intros E2 st2 tr2 _ Hnew. apply Hskipped. apply Hnew.
      cbn [snd]. apply map_has_some. eexists. apply map_get_set_same.
    + injection H as <- _. split; [auto|].
      intros E2 st2 tr2 _ _.
      destruct (JsMap.has E2 (fst e)) eqn:Ehas2; [apply Hskipped, Ehas2|].
      destruct st2 as [s2 m2]. exists s2, (tr2 ++ out).
      unfold entity_step. rewrite Hskip, Ehas2. cbn [andb].
      unfold bind at 1. rewrite Hp. reflexivity.
Qed.

Lemma category_step_replays (options : CliOptions)
  (packageMap index : JsMap.t jsstring) (registryDir : jsstring)
  (rootEntries : list (jsstring * node)) (c : jsstring * Category) :
  noOverride options = true ->
  replays (fun existingItemMap st c =>
             category_step options existingItemMap packageMap index
               registryDir rootEntries st c) c.
Proof.
  intros Hskip E st tr st' tr' H. unfold category_step in H.
  destruct (entry (subdirectories rootEntries) (fst c)) as [d|] eqn:Ed.
  - cbv [bind lift] in H.
    destruct (readdirSync (path_join registryDir (fst c)) d)
      as [entries|err] eqn:Er; [|discriminate].
    destruct (for_each_replays
                (fun existingItemMap st e =>
                   entity_step options existingItemMap packageMap index
                     (fst c) (snd c) (path_join registryDir (fst c)) st e)
                (filter (fun e => selected options (fst c) (fst e))
                   (subdirectories entries))
                (fun e => entity_step_replays options packageMap index
                            (fst c) (snd c) (path_join registryDir (fst c)) e
                            Hskip)
                E st tr st' tr' H) as [Hmono Hreplay].
    split; [exact Hmono|].
    intros E2 st2 tr2 Hold Hnew.
    destruct (Hreplay E2 st2 tr2 Hold Hnew) as (s2 & tr2' & Hrun).
    exists s2, tr2'. unfold category_step. rewrite Ed.
    cbv [bind lift]. rewrite Er. exact Hrun.
  - injection H as <- _. split; [auto|].
    intros E2 [s2 m2] tr2 _ _. exists s2, tr2.
    unfold category_step. rewrite Ed. reflexivity.
Qed.

Lemma process_categories_rerun_skip (options : CliOptions)
  (existingItemMap : ItemMap) (packageMap index : JsMap.t jsstring)
  (registryDir : jsstring) (rootEntries : list (jsstring * node))
  (st : Summary * ItemMap) (tr tr' : list event) :
  noOverride options = true ->
  process_categories options existingItemMap packageMap index registryDir
    rootEntries tr = (Ok st, tr') ->
  forall tr0,
    exists summary tr0',
      process_categories options (snd st) packageMap index registryDir
        rootEntries tr0 = (Ok (summary, snd st), tr0').
Proof.
  intros Hskip Hrun tr0.
  destruct (for_each_replays
              (fun existingItemMap st c =>
                 category_step options existingItemMap packageMap index
                   registryDir rootEntries st c)
              (active_categories rootEntries)
              (fun c => category_step_replays options packageMap index
                          registryDir rootEntries c Hskip)
              existingItemMap (no_counts, existingItemMap) tr st tr' Hrun)
    as [Hmono Hreplay].
  destruct (Hreplay (snd st) (no_counts, snd st) tr0 Hmono (fun k H => H))
    as (s2 & tr2 & Hrun2).
  exists s2, tr2. exact Hrun2.
Qed.

Lemma process_categories_NoDup (options : CliOptions)
  (existingItemMap : ItemMap) (packageMap index : JsMap.t jsstring)
  (registryDir : jsstring) (rootEntries : list (jsstring * node))
  (st : Summary * ItemMap) (tr tr' : list event) :
  NoDup (JsMap.keys existingItemMap) ->
  process_categories options existingItemMap packageMap index registryDir
    rootEntries tr = (Ok st, tr') ->
  NoDup (JsMap.keys (snd st)).
Proof.
  intros Hnd H. unfold process_categories in H.
  eapply (for_each_invariant (fun st => NoDup (JsMap.keys (snd st))));
    [| |exact H]; [|exact Hnd].
  intros acc c t acc' t' _ HP Hc. unfold category_step in Hc.
  destruct (entry (subdirectories rootEntries) (fst c)) as [d|].
  - split_bind Hc.
    eapply (for_each_invariant (fun st => NoDup (JsMap.keys (snd st))));
      [| exact HP | exact Hc].
    intros acc1 e t1 acc1' t1' _ HP1 Hstep. unfold entity_step in Hstep.
    destruct (noOverride options && JsMap.has existingItemMap (fst e)).
    + cbv [bind emit ret] in Hstep. injection Hstep as <- _. exact HP1.
    + split_bind Hstep. destruct a0 as [fresh|].
      * assert (Hmap : snd acc1' = JsMap.set (snd acc1) (fst e) fresh).
        { destruct (JsMap.has existingItemMap (fst e));
            cbv [bind emit ret] in Hstep; injection Hstep as <- _;
            reflexivity. }
        rewrite Hmap.
        apply (assign_NoDup [(fst e, fresh)] (snd acc1) HP1).
      * injection Hstep as <- _. exact HP1.
  - injection Hc as <- _; exact HP.
Qed.

(** From the item map a run ended with, the same loops end with the
    same item map. *)
Lemma process_categories_rerun (options : CliOptions)
  (existingItemMap : ItemMap) (packageMap index : JsMap.t jsstring)
  (registryDir : jsstring) (rootEntries : list (jsstring * node))
  (st : Summary * ItemMap) (tr tr' : list event) :
  noOverride options = false ->
  NoDup (JsMap.keys existingItemMap) ->
  process_categories options existingItemMap packageMap index registryDir
    rootEntries tr = (Ok st, tr') ->
  NoDup (JsMap.keys (snd st))
  /\ forall tr0,
       exists summary tr0',
         process_categories options (snd st) packageMap index registryDir
           rootEntries tr0 = (Ok (summary, snd st), tr0').
Proof.
  intros Hno Hnd Hrun.
  destruct (process_categories_assigns options packageMap index registryDir
              rootEntries Hno) as [[a|] H].
  - destruct (H existingItemMap tr) as (s1 & tr1 & Hrun1).
    rewrite Hrun in Hrun1. injection Hrun1 as -> _. cbn [snd].
    split; [apply assign_NoDup, Hnd|].
    intros tr0.
    destruct (H (assign existingItemMap a) tr0) as (s2 & tr2 & Hrun2).
    exists s2, tr2. rewrite Hrun2, assign_idempotent by exact Hnd.
    reflexivity.
  - exfalso. apply (H existingItemMap tr st). rewrite Hrun. reflexivity.
Qed.

(** Every entry of the item map of a run is a persisted entry or
    holds, under the name of an entity directory, an item named by
    the kebab-cased name of that directory. *)
Lemma process_categories_entries (options : CliOptions)
  (existingItemMap : ItemMap) (packageMap index : JsMap.t jsstring)
  (registryDir : jsstring) (rootEntries : list (jsstring * node))
  (st : Summary * ItemMap) (tr tr' : list event) :
  process_categories options existingItemMap packageMap index registryDir
    rootEntries tr = (Ok st, tr') ->
  forall k item,
    In (k, item) (snd st) ->
    In (k, item) existingItemMap
    \/ (item_name item = toKebabCase k
        /\ exists categoryName categoryDir entries dir,
             entry (subdirectories rootEntries) categoryName
             = Some categoryDir
             /\ readdirSync (path_join registryDir categoryName) categoryDir
                = Done entries
             /\ In (k, dir) (subdirectories entries)).
Proof.
  intros H. unfold process_categories in H.
  set (P := fun st : Summary * ItemMap =>
              forall k item,
                In (k, item) (snd st) ->
                In (k, item) existingItemMap
                \/ (item_name item = toKebabCase k
                    /\ exists categoryName categoryDir entries dir,
                         entry (subdirectories rootEntries) categoryName
                         = Some categoryDir
                         /\ readdirSync (path_join registryDir categoryName)
                              categoryDir = Done entries
                         /\ In (k, dir) (subdirectories entries))).
  eapply (for_each_invariant P); [| |exact H];
    [|intros k item Hin; left; exact Hin].
  intros acc c t acc' t' _ HP Hc. unfold category_step in Hc.
  destruct (entry (subdirectories rootEntries) (fst c)) as [d|] eqn:Ed.
  - split_bind Hc. apply lift_done in E.
    eapply (for_each_invariant P); [|exact HP|exact Hc].
    intros acc1 e t1 acc1' t1' He HP1 Hstep.
    unfold entity_step in Hstep.
    destruct (noOverride options && JsMap.has existingItemMap (fst e)).
    + cbv [bind emit ret] in Hstep. injection Hstep as <- _. exact HP1.
    + split_bind Hstep. destruct a0 as [fresh|].
      * assert (Hmap : snd acc1' = JsMap.set (snd acc1) (fst e) fresh).
        { destruct (JsMap.has existingItemMap (fst e));
            cbv [bind emit ret] in Hstep; injection Hstep as <- _;
            reflexivity. }
        intros k item Hin. rewrite Hmap in Hin.
        apply map_set_In in Hin as [[-> ->] | Hin]; [|apply HP1, Hin].
        right. split.
        -- apply processEntity_item in E0 as (all & files & -> & _).
           reflexivity.
        -- apply filter_In in He as [He _].
           exists (fst c), d, a, (snd e). destruct e; auto.
      * injection Hstep as <- _. exact HP1.
  - injection Hc as <- _; exact HP.
Qed.

Lemma parseArgs_noOverride (w : World) (tr tr' : list event)
  (options : CliOptions) :
  parseArgs w tr = (Ok options, tr') ->
  noOverride options = skip_existing_mode w.
Proof.
  intros H. destruct (parseArgs_total w tr) as (targets' & tr1 & E).
  rewrite E in H. injection H as <- _. reflexivity.
Qed.

Lemma main_completed_package (w : World) (tr : list event) :
  main w [] = (Ok tt, tr) ->
  package_json w = Missing \/ exists pkg, package_json w = Parsed (Some pkg).
Proof.
  intros H. unfold main in H. unfold bind at 1 in H.
  destruct (parseArgs_trace w []) as [options Eargs].
  rewrite Eargs in H.
  destruct (registry_root w) as [root|].
  2: { cbv [bind emit exit] in H. discriminate. }
  unfold bind at 1 in H. unfold loadPackageJson in H.
  destruct (package_json w) as [| | |[pkg|]];
    cbv [bind emit ret throw] in H; try discriminate; eauto.
Qed.

(** The stages of [main], put together. *)
Lemma main_run (w : World) (options : CliOptions) (root : node)
  (index : JsMap.t jsstring) (rootEntries : list (jsstring * node))
  (st : Summary * ItemMap) (tr2 : list event) :
  parseArgs w []
  = (Ok options, map WarnTargetNotFound (filter (unmatched w) (positional w))) ->
  registry_root w = Some root ->
  (package_json w = Missing
   \/ exists pkg, package_json w = Parsed (Some pkg)) ->
  (forall t, buildRegistryEntityMap (REGISTRY_DIR w) root t = (Ok index, t)) ->
  existing_items (persisted w) = Done (persisted_index (persisted w)) ->
  readdirSync (REGISTRY_DIR w) root = Done rootEntries ->
  active_categories rootEntries <> [] ->
  process_categories options (persisted_index (persisted w)) (package_table w)
    index (REGISTRY_DIR w) rootEntries (preamble w) = (Ok st, tr2) ->
  output_writable w = true ->
  main w []
  = (Ok tt,
     tr2 ++ [ WriteFile (OUTPUT_FILE w)
                (build_registry (persisted w) (snd st));
              LogSummary (fst st) (JsMap.size (snd st)) ]).
Proof.
  intros Hargs Hroot Hpkg Hindex Hidx Hrd Hact Hloop Hout.
  assert (Htail : forall pkg tr0,
             process_categories options (persisted_index (persisted w))
               (buildPackageMap pkg) index (REGISTRY_DIR w) rootEntries
               (tr0 ++ registry_warning w) = (Ok st, tr2) ->
             main_from_packages w options root pkg tr0
             = (Ok tt,
                tr2 ++ [ WriteFile (OUTPUT_FILE w)
                           (build_registry (persisted w) (snd st));
                         LogSummary (fst st) (JsMap.size (snd st)) ])).
  { intros pkg tr0 Hl. unfold main_from_packages. unfold bind at 1.
    rewrite Hindex. unfold bind at 1. rewrite loadExistingRegistry_trace.
    unfold bind at 1. unfold lift at 1. rewrite Hidx. cbv beta iota.
    unfold bind at 1. unfold lift at 1. rewrite Hrd.
    destruct (length (active_categories rootEntries) =? 0) eqn:Eact.
    { apply Nat.eqb_eq, length_zero_iff_nil in Eact. contradiction. }
    unfold bind at 1. rewrite Hl. unfold writeFileSync. rewrite Hout.
    cbv [bind emit]. rewrite <- app_assoc. reflexivity. }
  unfold main. unfold bind at 1. rewrite Hargs, Hroot.
  unfold bind at 1. unfold loadPackageJson.
  unfold preamble, package_table, package_warning in Hloop.
  destruct Hpkg as [Hp | [pkg Hp]]; rewrite Hp in *;
    cbv [bind emit ret]; apply Htail.
  - rewrite <- app_assoc. exact Hloop.
  - exact Hloop.
Qed.

(** X22. A run is idempotent: where kebab-casing leaves the names of
    the entity directories as they are, running the script again over
    the manifest it has just written (read back as it was written),
    with the same command line and the same files, completes and
    writes the same manifest. *)
Theorem rerun_reproduces_the_manifest (w : World) (tr : list event) :
  main w [] = (Ok tt, tr) ->
  kebab_stable_entities w ->
  exists registry tr',
    In (WriteFile (OUTPUT_FILE w) registry) tr
    /\ main (with_manifest w registry) [] = (Ok tt, tr')
    /\ In (WriteFile (OUTPUT_FILE w) registry) tr'.
Proof.
  intros Hrun Hstable.
  pose proof (main_completed_package w tr Hrun) as Hpkg.
  apply main_completed in Hrun
    as (options & root & index & rootEntries & st & tr2 & Hargs & Hroot
        & Hindex & Hrd & Hact & Hloop & Hout & ->).
  assert (Hkeys0 : forall k item,
             In (k, item) (persisted_index (persisted w)) ->
             k = item_name item).
  { intros k item Hin. unfold persisted_index in Hin.
    apply of_entries_In in Hin.
    apply in_map_iff in Hin as (item' & [= <- <-] & _). reflexivity. }
  assert (Hnd0 : NoDup (JsMap.keys (persisted_index (persisted w))))
    by apply of_entries_keys.
  pose proof (process_categories_NoDup _ _ _ _ _ _ _ _ _ Hnd0 Hloop) as Hnd.
  assert (Hagain : forall tr0,
             exists summary tr0',
               process_categories options (snd st) (package_table w) index
                 (REGISTRY_DIR w) rootEntries tr0
               = (Ok (summary, snd st), tr0')).
  { destruct (noOverride options) eqn:Hmode.
    - exact (process_categories_rerun_skip _ _ _ _ _ _ _ _ _ Hmode Hloop).
    - exact (proj2 (process_categories_rerun _ _ _ _ _ _ _ _ _ Hmode Hnd0
                      Hloop)). }
  assert (Hkeys : forall k item, In (k, item) (snd st) -> k = item_name item).
  { intros k item Hin.
    destruct (process_categories_entries _ _ _ _ _ _ _ _ _ Hloop k item Hin)
      as [Hold | (Hname & c & cdir & entries & dir & Hc & Hread & Hdir)].
    - apply Hkeys0, Hold.
    - rewrite Hname. symmetry.
      apply (Hstable _ _ _ _ _ _ _ Hroot Hrd Hc Hread Hdir). }
  set (registry := build_registry (persisted w) (snd st)).
  assert (Hexisting : persisted_index (persisted (with_manifest w registry))
                      = snd st).
  { unfold persisted_index.
    change (persisted (with_manifest w registry)) with (Some registry).
    rewrite (persisted_list_listed registry (JsMap.values (snd st)) eq_refl).
    rewrite (entries_by_name _ Hkeys).
    apply of_entries_distinct. exact Hnd. }
  destruct (Hagain (preamble (with_manifest w registry)))
    as (summary & tr0 & Hloop').
  exists registry, (tr0 ++ [ WriteFile (OUTPUT_FILE w) registry;
                            LogSummary summary (JsMap.size (snd st)) ]).
  split; [apply in_or_app; right; left; reflexivity|].
  split; [|apply in_or_app; right; left; reflexivity].
  rewrite (main_run (with_manifest w registry) options root index rootEntries
             (summary, snd st) tr0);
    try assumption.
  - reflexivity.
  - exact (existing_items_listed registry (JsMap.values (snd st)) eq_refl).
  - rewrite Hexisting. exact Hloop'.
Qed.

End Rerun.

Lemma rerun_reproduces_the_manifest_witness :
  exists tr registry tr',
    run world_rerun = (Ok tt, tr)
    /\ In (WriteFile (OUTPUT_FILE world_rerun) registry) tr
    /\ run (with_manifest world_rerun registry) = (Ok tt, tr')
    /\ In (WriteFile (OUTPUT_FILE world_rerun) registry) tr'.
Proof.
  assert (Hrun : exists tr, run world_rerun = (Ok tt, tr)).
  { eexists. vm_compute. reflexivity. }
  destruct Hrun as [tr Hrun].
  assert (Hstable : @kebab_stable_entities Ascii_runtime.instance world_rerun).
  { intros root rootEntries categoryName categoryDir entries name dir
           Hroot Hrd Hc He Hin.
    injection Hroot as <-. injection Hrd as <-.
    cbn [subdirectories filter isDirectory snd entry] in Hc.
    destruct (Js.eqb categoryName (js "components")) eqn:E; [|discriminate].
    injection Hc as <-. injection He as <-.
    cbn [subdirectories filter isDirectory snd] in Hin.
    destruct Hin as [H | []]. injection H as <- _. reflexivity. }
  destruct (@rerun_reproduces_the_manifest Ascii_runtime.instance
              world_rerun tr Hrun Hstable)
    as (registry & tr' & Hw & Hrun' & Hw').
  exists tr, registry, tr'. auto.
Defined.
